(** * Verification of the circular doubly-linked queue of [queue.c]

    The queue is a sentinel [struct list_head] closed into a ring with the
    [list] members of its elements.  The C code rewires raw links, so the
    embedding keeps an explicit memory: every function of [queue.c] is a
    state-passing computation over that memory, loops carry a fuel argument,
    and a dereference of an address that is not live is a fault. *)

From stdpp Require Import gmap list strings sorting.
From Stdlib Require Import ZArith Lia.
From Stdlib Require Import Ascii.
From Stdlib Require String.

Local Open Scope N_scope.

(** ** Memory *)

Abbreviation ptr := N.

Definition NULL : ptr := 0.

(** Modelled from the spec: [list.h] is not among the sources.  A
    [struct list_head] is the link pair [{ prev, next }] that splices a
    node into a ring. *)
Record list_head := LH { next : ptr; prev : ptr }.

Global Instance list_head_eq_dec : EqDecision list_head.
Proof. solve_decision. Defined.

(** Modelled from the spec: [queue.h] is not among the sources.  An
    [element_t] owns one payload string [value] and embeds one link pair
    [list].  The code only ever reaches an element from its [list] member
    ([list_entry] is a constant offset), so an element is named by the
    address of that member: [heads] holds every live [list_head] (the
    sentinels and the [list] members), [values] the [value] field of every
    live element, and [chars] the heap strings, each one the bytes before
    its terminator. *)
Record mem := Mem {
  heads : gmap N list_head;
  values : gmap N N;
  chars : gmap N string }.

Definition set_heads (m : mem) (h : gmap N list_head) : mem :=
  Mem h (values m) (chars m).

(** ** Computations: state passing with faults and fuel *)

Inductive res (A : Type) : Type :=
  | Ok (a : A) (m : mem)
  | Fault
  | OutOfFuel.
Arguments Ok {A} a m.
Arguments Fault {A}.
Arguments OutOfFuel {A}.

Definition M (A : Type) : Type := mem -> res A.

Definition ret {A} (a : A) : M A := fun m => Ok a m.
Definition fault {A} : M A := fun _ => Fault.
Definition out_of_fuel {A} : M A := fun _ => OutOfFuel.
Definition bind {A B} (c : M A) (k : A -> M B) : M B :=
  fun m => match c m with
           | Ok a m' => k a m'
           | Fault => Fault
           | OutOfFuel => OutOfFuel
           end.

Notation "'let*' x := c 'in' k" := (bind c (fun x => k))
  (at level 10, x name, c at level 100, k at level 200).
Notation "'let*' ' p := c 'in' k" := (bind c (fun x => match x with p => k end))
  (at level 10, p pattern, c at level 100, k at level 200).
Notation "c ;;; k" := (bind c (fun _ => k))
  (at level 100, k at level 200, right associativity).

(** Field accesses; touching an address that is not live is a fault. *)
Definition load_next (p : ptr) : M ptr :=
  fun m => match heads m !! p with Some h => Ok (next h) m | None => Fault end.

Definition load_prev (p : ptr) : M ptr :=
  fun m => match heads m !! p with Some h => Ok (prev h) m | None => Fault end.

Definition store_next (p v : ptr) : M unit :=
  fun m => match heads m !! p with
           | Some h => Ok tt (set_heads m (<[p := LH v (prev h)]> (heads m)))
           | None => Fault
           end.

Definition store_prev (p v : ptr) : M unit :=
  fun m => match heads m !! p with
           | Some h => Ok tt (set_heads m (<[p := LH (next h) v]> (heads m)))
           | None => Fault
           end.

Definition load_value (e : ptr) : M ptr :=
  fun m => match values m !! e with Some v => Ok v m | None => Fault end.

Definition store_value (e v : ptr) : M unit :=
  fun m => match values m !! e with
           | Some _ => Ok tt (Mem (heads m) (<[e := v]> (values m)) (chars m))
           | None => Fault
           end.

Definition load_chars (v : ptr) : M string :=
  fun m => match chars m !! v with Some s => Ok s m | None => Fault end.

(** [malloc(sizeof(struct list_head))] and [malloc(sizeof(element_t))].  The
    allocator (the one of [harness.h], which may fail on purpose) is an
    oracle: [None] is a failed allocation, [Some a] the address it returns.
    Fresh storage is indeterminate; the model fills it with [NULL], and the
    code writes every field before reading it. *)
Definition malloc_head (a : option ptr) : M ptr :=
  fun m => match a with
           | Some n => Ok n (set_heads m (<[n := LH NULL NULL]> (heads m)))
           | None => Ok NULL m
           end.

Definition malloc_element (a : option ptr) : M ptr :=
  fun m => match a with
           | Some e => Ok e (Mem (<[e := LH NULL NULL]> (heads m))
                                 (<[e := NULL]> (values m)) (chars m))
           | None => Ok NULL m
           end.

(** [free] of a string ([free(NULL)] does nothing) and of an element. *)
Definition free_chars (v : ptr) : M unit :=
  fun m => if v =? NULL then Ok tt m
           else match chars m !! v with
                | Some _ => Ok tt (Mem (heads m) (values m) (delete v (chars m)))
                | None => Fault
                end.

Definition free_element (e : ptr) : M unit :=
  fun m => match heads m !! e, values m !! e with
           | Some _, Some _ =>
               Ok tt (Mem (delete e (heads m)) (delete e (values m)) (chars m))
           | _, _ => Fault
           end.

(** ** C strings *)

Definition byte_of (c : ascii) : Z := Z.of_N (N_of_ascii c).

(** The bytes of a C string stop at the first NUL. *)
Fixpoint cstr (s : string) : string :=
  match s with
  | EmptyString => EmptyString
  | String c r => if decide (c = Ascii.zero) then EmptyString else String c (cstr r)
  end.

(** [strcmp]: the difference of the first two bytes that differ, read as
    [unsigned char], the end of a string reading as NUL. *)
Fixpoint strcmp (s1 s2 : string) : Z :=
  match s1, s2 with
  | EmptyString, EmptyString => 0
  | EmptyString, String c2 _ => (0 - byte_of c2)%Z
  | String c1 _, EmptyString => byte_of c1
  | String c1 r1, String c2 r2 =>
      if decide (c1 = c2)
      then (if decide (c1 = Ascii.zero) then 0%Z else strcmp r1 r2)
      else (byte_of c1 - byte_of c2)%Z
  end.

(** [strdup]: a fresh heap string holding the bytes of [s], or [NULL]. *)
Definition strdup (s : string) (a : option ptr) : M ptr :=
  fun m => match a with
           | Some b => Ok b (Mem (heads m) (values m) (<[b := cstr s]> (chars m)))
           | None => Ok NULL m
           end.

(** ** The [list.h] primitives *)

(** [list.h] is not among the sources.  Its primitives are the ring
    operations the spec relies on, written as the usual link updates of a
    ring with a sentinel. *)

(** Modelled from the spec: [INIT_LIST_HEAD] of [list.h].  An empty
    container is a sentinel whose [next] and [prev] both point to itself. *)
Definition INIT_LIST_HEAD (h : ptr) : M unit :=
  store_next h h ;;; store_prev h h.

(** Modelled from the spec: [list_empty] of [list.h].  The ring is empty
    when the successor of the sentinel is the sentinel. *)
Definition list_empty (h : ptr) : M bool :=
  let* n := load_next h in ret (n =? h).

(** Modelled from the spec: [list_add] of [list.h].  It links [node] as the
    immediate successor of [head]. *)
Definition list_add (node head : ptr) : M unit :=
  let* nxt := load_next head in
  store_prev nxt node ;;;
  store_next node nxt ;;;
  store_prev node head ;;;
  store_next head node.

(** Modelled from the spec: [list_add_tail] of [list.h].  It links [node]
    as the immediate predecessor of [head]. *)
Definition list_add_tail (node head : ptr) : M unit :=
  let* prv := load_prev head in
  store_next prv node ;;;
  store_next node head ;;;
  store_prev node prv ;;;
  store_prev head node.

(** Modelled from the spec: [list_del] of [list.h].  It unlinks [node]: its
    neighbours are linked to each other, its storage and its own links
    stay. *)
Definition list_del (node : ptr) : M unit :=
  let* nxt := load_next node in
  let* prv := load_prev node in
  store_prev nxt prv ;;;
  store_next prv nxt.

(** Modelled from the spec: [list_entry(p, element_t, list)] of [list.h],
    the element whose [list] member is at [p]; elements are named by that
    address. *)
Definition list_entry (p : ptr) : ptr := p.

(** Modelled from the spec: [list_first_entry] and [list_last_entry] of
    [list.h], the elements after and before the sentinel. *)
Definition list_first_entry (head : ptr) : M ptr :=
  let* n := load_next head in ret (list_entry n).

(** Modelled from the spec: [list_last_entry] of [list.h]. *)
Definition list_last_entry (head : ptr) : M ptr :=
  let* p := load_prev head in ret (list_entry p).

(** ** The functions of [queue.c] *)

Definition q_new (a : option ptr) : M ptr :=
  let* n := malloc_head a in
  if n =? NULL then ret NULL
  else INIT_LIST_HEAD n ;;; ret n.

Definition q_release_element (e : ptr) : M unit :=
  let* v := load_value e in
  free_chars v ;;;
  free_element e.

(** [free] of a sentinel. *)
Definition free_head (h : ptr) : M unit :=
  fun m => match heads m !! h with
           | Some _ => Ok tt (set_heads m (delete h (heads m)))
           | None => Fault
           end.

(** Modelled from the spec: [list_for_each_entry_safe] of [list.h], with
    which the destroy operation walks the ring and frees every element.
    The cursor [n] is read one node ahead of [pos], so that the body may
    release [pos]; the walk ends when [pos] is back at the sentinel. *)
Fixpoint q_free_loop (fuel : nat) (l pos n : ptr) : M unit :=
  match fuel with
  | O => out_of_fuel
  | S f =>
      if pos =? l then ret tt
      else
        q_release_element pos ;;;
        let* nn := load_next n in
        q_free_loop f l n (list_entry nn)
  end.

Definition q_free (fuel : nat) (l : ptr) : M unit :=
  if l =? NULL then ret tt
  else
    let* p := load_next l in
    let pos := list_entry p in
    let* pn := load_next pos in
    q_free_loop fuel l pos (list_entry pn) ;;;
    free_head l.

(** The two allocations of an insertion are the oracles [a] (the element)
    and [b] (the copy of the string); [&e->list] is [e] itself. *)
Definition q_insert_head (head : ptr) (s : string) (a b : option ptr) : M bool :=
  if head =? NULL then ret false
  else
    let* e := malloc_element a in
    if e =? NULL then ret false
    else
      let* v := strdup s b in
      store_value e v ;;;
      let* v' := load_value e in
      if v' =? NULL then q_release_element e ;;; ret false
      else list_add e head ;;; ret true.

Definition q_insert_tail (head : ptr) (s : string) (a b : option ptr) : M bool :=
  if head =? NULL then ret false
  else
    let* e := malloc_element a in
    if e =? NULL then ret false
    else
      let* v := strdup s b in
      store_value e v ;;;
      let* v' := load_value e in
      if v' =? NULL then q_release_element e ;;; ret false
      else list_add_tail e head ;;; ret true.

(** The caller's output buffer [sp] is an array of bytes passed in and out:
    [None] is a null [sp], [Some buf] a buffer of capacity [length buf].
    [size_t] is 64 bits wide and its subtraction wraps. *)
Definition SIZE_MAX : N := 2 ^ 64 - 1.

Definition size_sub (a b : N) : N := (a + 2 ^ 64 - b) mod 2 ^ 64.

Definition lift {A} (o : option A) : M A :=
  fun m => match o with Some a => Ok a m | None => Fault end.

(** [strncpy(dst, src, n)] writes exactly [n] bytes: the bytes of [src],
    padded with NUL when [src] is shorter.  Writing past the capacity of
    [dst] is out of bounds. *)
Definition strncpy (dst : list ascii) (src : string) (n : N) : option (list ascii) :=
  if n <=? N.of_nat (length dst) then
    let bytes := String.list_ascii_of_string (cstr src) in
    Some (take (N.to_nat n)
            (bytes ++ replicate (N.to_nat n - length bytes) Ascii.zero)
          ++ drop (N.to_nat n) dst)
  else None.

Definition store_byte (dst : list ascii) (i : N) (c : ascii) : option (list ascii) :=
  if i <? N.of_nat (length dst) then Some (<[N.to_nat i := c]> dst) else None.

Definition copy_out (e : ptr) (sp : option (list ascii)) (bufsize : N)
  : M (option (list ascii)) :=
  match sp with
  | Some buf =>
      let* v := load_value e in
      let* s := load_chars v in
      let* buf1 := lift (strncpy buf s (size_sub bufsize 1)) in
      let* buf2 := lift (store_byte buf1 (size_sub bufsize 1) Ascii.zero) in
      ret (Some buf2)
  | None => ret None
  end.

Definition q_remove_head (head : ptr) (sp : option (list ascii)) (bufsize : N)
  : M (ptr * option (list ascii)) :=
  if head =? NULL then ret (NULL, sp)
  else
    let* em := list_empty head in
    if em then ret (NULL, sp)
    else
      let* e := list_first_entry head in
      list_del e ;;;
      let* sp' := copy_out e sp bufsize in
      ret (e, sp').

Definition q_remove_tail (head : ptr) (sp : option (list ascii)) (bufsize : N)
  : M (ptr * option (list ascii)) :=
  if head =? NULL then ret (NULL, sp)
  else
    let* em := list_empty head in
    if em then ret (NULL, sp)
    else
      let* e := list_last_entry head in
      list_del e ;;;
      let* sp' := copy_out e sp bufsize in
      ret (e, sp').

(** [q_size] counts in an [int]; incrementing [INT_MAX] is undefined. *)
Definition INT_MAX : Z := 2147483647.

Fixpoint q_size_loop (fuel : nat) (head pos : ptr) (size : Z) : M Z :=
  match fuel with
  | O => out_of_fuel
  | S f =>
      if pos =? head then ret size
      else if (size =? INT_MAX)%Z then fault
      else let* n := load_next pos in
           q_size_loop f head n (size + 1)%Z
  end.

Definition q_size (fuel : nat) (head : ptr) : M Z :=
  if head =? NULL then ret 0%Z
  else
    let* em := list_empty head in
    if em then ret 0%Z
    else
      let* pos := load_next head in
      q_size_loop fuel head pos 0%Z.

(** The [for] loop of [q_delete_mid]; its body is empty. *)
Fixpoint mid_loop (fuel : nat) (head fast slow : ptr) : M ptr :=
  match fuel with
  | O => out_of_fuel
  | S f =>
      if fast =? head then ret slow
      else
        let* fn := load_next fast in
        if fn =? head then ret slow
        else
          let* fnn := load_next fn in
          let* sn := load_next slow in
          mid_loop f head fnn sn
  end.

Definition q_delete_mid (fuel : nat) (head : ptr) : M bool :=
  if head =? NULL then ret false
  else
    let* em := list_empty head in
    if em then ret false
    else
      let* fast := load_next head in
      let* slow := load_next head in
      let* slow := mid_loop fuel head fast slow in
      list_del slow ;;;
      q_release_element (list_entry slow) ;;;
      ret true.

(** The inner [while] of [q_delete_dup]: it returns the final [end] and
    [prev]. *)
Fixpoint dup_inner (fuel : nat) (head start e1 end_ e2 prv : ptr) : M (ptr * ptr) :=
  match fuel with
  | O => out_of_fuel
  | S f =>
      if end_ =? head then ret (end_, prv)
      else
        let* v1 := load_value e1 in
        let* s1 := load_chars v1 in
        let* v2 := load_value e2 in
        let* s2 := load_chars v2 in
        if (strcmp s1 s2 =? 0)%Z then
          let prv := start in
          let* nxt := load_next end_ in
          list_del end_ ;;;
          q_release_element e2 ;;;
          dup_inner f head start e1 nxt (list_entry nxt) prv
        else ret (end_, prv)
  end.

Fixpoint dup_outer (fuel : nat) (head start end_ prv : ptr) : M unit :=
  match fuel with
  | O => out_of_fuel
  | S f =>
      if end_ =? head then ret tt
      else
        let* end_ := load_next start in
        let e1 := list_entry start in
        let e2 := list_entry end_ in
        let* '(end_, prv) := dup_inner f head start e1 end_ e2 prv in
        let* prv :=
          (if prv =? NULL then ret prv
           else let e1 := list_entry prv in
                list_del prv ;;;
                q_release_element e1 ;;;
                ret NULL) in
        dup_outer f head end_ end_ prv
  end.

Definition q_delete_dup (fuel : nat) (head : ptr) : M bool :=
  if head =? NULL then ret false
  else
    let* em := list_empty head in
    if em then ret true
    else
      let* start := load_next head in
      dup_outer fuel head start NULL NULL ;;;
      ret true.

Fixpoint swap_loop (fuel : nat) (head n : ptr) : M unit :=
  match fuel with
  | O => out_of_fuel
  | S f =>
      if n =? head then ret tt
      else
        let* nn := load_next n in
        if nn =? head then ret tt
        else
          let* nxt := load_next n in
          list_del n ;;;
          list_add n nxt ;;;
          let* n' := load_next n in
          swap_loop f head n'
  end.

Definition q_swap (fuel : nat) (head : ptr) : M unit :=
  if head =? NULL then ret tt
  else
    let* n := load_next head in
    swap_loop fuel head n.

Fixpoint reverse_loop (fuel : nat) (head prv curr nxt : ptr) : M unit :=
  match fuel with
  | O => out_of_fuel
  | S f =>
      if nxt =? head then ret tt
      else
        let* nxt := load_next curr in
        store_next curr prv ;;;
        store_prev curr nxt ;;;
        reverse_loop f head curr nxt nxt
  end.

Definition q_reverse (fuel : nat) (head : ptr) : M unit :=
  if head =? NULL then ret tt
  else
    let* em := list_empty head in
    if em then ret tt
    else
      let* prv := load_prev head in
      reverse_loop fuel head prv head NULL.

(** [merge_two_lists] walks with [struct list_head **ptr], which points
    either at the local [head] or at the [next] field of a node, and with
    [struct list_head **node], which points at [l1] or at [l2]. *)
Inductive lval := Lhead | Lnext (n : ptr).
Inductive which := L1 | L2.

(** [*ptr = v]; the result is the value of the local [head] afterwards. *)
Definition store_lval (pp : lval) (v head : ptr) : M ptr :=
  match pp with
  | Lhead => ret v
  | Lnext n => store_next n v ;;; ret head
  end.

Fixpoint merge_loop (fuel : nat) (l1 l2 head : ptr) (pp : lval) : M ptr :=
  match fuel with
  | O => out_of_fuel
  | S f =>
      if negb (l1 =? NULL) && negb (l2 =? NULL) then
        let* v1 := load_value (list_entry l1) in
        let* s1 := load_chars v1 in
        let* v2 := load_value (list_entry l2) in
        let* s2 := load_chars v2 in
        let node := if (strcmp s1 s2 <=? 0)%Z then L1 else L2 in
        let cur := match node with L1 => l1 | L2 => l2 end in
        let* head := store_lval pp cur head in
        let pp := Lnext cur in
        let* nxt := load_next cur in
        match node with
        | L1 => merge_loop f nxt l2 head pp
        | L2 => merge_loop f l1 nxt head pp
        end
      else
        store_lval pp (N.lor l1 l2) head
  end.

Definition merge_two_lists (fuel : nat) (l1 l2 : ptr) : M ptr :=
  merge_loop fuel l1 l2 NULL Lhead.

(** The [while (fast && fast->next)] loop of [merge_sort]; it returns the
    final [slow]. *)
Fixpoint split_loop (fuel : nat) (fast slow : ptr) : M ptr :=
  match fuel with
  | O => out_of_fuel
  | S f =>
      if fast =? NULL then ret slow
      else
        let* fn := load_next fast in
        if fn =? NULL then ret slow
        else
          let* fnn := load_next fn in
          let* sn := load_next slow in
          split_loop f fnn sn
  end.

(** C leaves the order in which the two arguments of the call
    [merge_two_lists(merge_sort(head), merge_sort(fast))] are evaluated to
    the compiler: [rtl] says whether the right one goes first. *)
Fixpoint merge_sort (rtl : bool) (fuel : nat) (head : ptr) : M ptr :=
  match fuel with
  | O => out_of_fuel
  | S f =>
      if head =? NULL then ret head
      else
        let* hn := load_next head in
        if hn =? NULL then ret head
        else
          let* slow := split_loop f hn head in
          let* fast := load_next slow in
          store_next slow NULL ;;;
          if rtl then
            let* b := merge_sort rtl f fast in
            let* a := merge_sort rtl f head in
            merge_two_lists f a b
          else
            let* a := merge_sort rtl f head in
            let* b := merge_sort rtl f fast in
            merge_two_lists f a b
  end.

(** The [for] loop of [q_sort] that restores the [prev] links; it returns
    the final [n]. *)
Fixpoint relink_loop (fuel : nat) (n : ptr) : M ptr :=
  match fuel with
  | O => out_of_fuel
  | S f =>
      let* nn := load_next n in
      if nn =? NULL then ret n
      else
        store_prev nn n ;;;
        let* n' := load_next n in
        relink_loop f n'
  end.

Definition q_sort (rtl : bool) (fuel : nat) (head : ptr) : M unit :=
  let* sz := q_size fuel head in
  if (sz <=? 1)%Z then ret tt
  else
    let* list := load_next head in
    let* tl := load_prev head in
    store_next tl NULL ;;;
    let* list := merge_sort rtl fuel list in
    store_next head list ;;;
    let* n := relink_loop fuel head in
    store_prev head n ;;;
    store_next n head.

(** ** Small queues, built by the code *)

Definition empty_mem : mem := Mem ∅ ∅ ∅.

(** A queue built by the code itself: the sentinel at address 1, the
    element of the [i]-th string at [2 i + 2] and its bytes at [2 i + 3]. *)
Fixpoint fill (i : N) (ss : list string) (head : ptr) : M unit :=
  match ss with
  | [] => ret tt
  | s :: r => q_insert_tail head s (Some (2 * i + 2)) (Some (2 * i + 3)) ;;;
              fill (i + 1) r head
  end.

Definition build (ss : list string) : mem :=
  match (q_new (Some 1) ;;; fill 0 ss 1) empty_mem with
  | Ok _ m => m
  | _ => empty_mem
  end.

(** A memory whose rings are cut after each of the nodes [ends], the way
    [q_sort] cuts the ring after its last element: what is left are chains
    ended by [NULL]. *)
Definition cut_after (ends : list ptr) (m : mem) : mem :=
  foldr (fun p m => match store_next p NULL m with
                    | Ok _ m' => m'
                    | _ => m
                    end) m ends.

(** ** The ring invariants *)

(** Following [field] links from [p] visits the nodes [ps] in turn and then
    reaches [q]. *)
Fixpoint walk (field : list_head -> ptr) (lk : gmap N list_head)
    (p : ptr) (ps : list ptr) (q : ptr) : Prop :=
  match ps with
  | [] => field <$> lk !! p = Some q
  | x :: r => field <$> lk !! p = Some x /\ walk field lk x r q
  end.

(** The ring of sentinel [head] holds exactly the elements [ps], in this
    order: [next] links from the sentinel visit each of them once and come
    back to the sentinel, and [prev] links do so in the reverse order. *)
Definition ring (lk : gmap N list_head) (head : ptr) (ps : list ptr) : Prop :=
  NoDup (head :: ps) /\
  walk next lk head ps head /\
  walk prev lk head (reverse ps) head.

(** Link symmetry: [A.next == B] implies [B.prev == A]. *)
Definition symmetric (lk : gmap N list_head) (c : list ptr) : Prop :=
  forall a b ha, a ∈ c -> lk !! a = Some ha -> next ha = b ->
    exists hb, lk !! b = Some hb /\ prev hb = a.

(** Every node of [c] has its predecessor in [p :: c] as [prev] and its
    successor in [c ++ [q]] as [next]. *)
Fixpoint path (lk : gmap N list_head) (p : ptr) (c : list ptr) (q : ptr) : Prop :=
  match c with
  | [] => True
  | x :: r => lk !! x = Some (LH (hd q r) p) /\ path lk x r q
  end.

(** The [next] half and the [prev] half of a path. *)
Fixpoint next_path (lk : gmap N list_head) (c : list ptr) (q : ptr) : Prop :=
  match c with
  | [] => True
  | x :: r => next <$> lk !! x = Some (hd q r) /\ next_path lk r q
  end.

Fixpoint prev_path (lk : gmap N list_head) (p : ptr) (c : list ptr) : Prop :=
  match c with
  | [] => True
  | x :: r => prev <$> lk !! x = Some p /\ prev_path lk x r
  end.

Definition cycle (lk : gmap N list_head) (c : list ptr) : Prop :=
  NoDup c /\ path lk (List.last c NULL) c (hd NULL c).

(** A singly-linked chain from [p] through the nodes [ps], ended by [NULL];
    [prev] links are not looked at. *)
Definition chain (lk : gmap N list_head) (p : ptr) (ps : list ptr) : Prop :=
  p = hd NULL ps /\ (NULL ∉ ps) /\ next_path lk ps NULL.

(** ** Elements and queues *)

(** A live element owns a non-null payload pointer to a live string. *)
Definition element (m : mem) (p : ptr) : Prop :=
  match values m !! p with
  | Some v => v <> NULL /\ is_Some (chars m !! v)
  | None => False
  end.

Global Instance element_dec m p : Decision (element m p).
Proof. unfold element. destruct (values m !! p); apply _. Defined.

Definition value_of (m : mem) (p : ptr) : ptr := default NULL (values m !! p).

Definition payload (m : mem) (p : ptr) : string :=
  default String.EmptyString (values m !! p ≫= fun v => chars m !! v).

(** [queue m head ps]: in memory [m], [head] is the sentinel of a ring whose
    elements are [ps] from first to last, each one live and the only owner
    of its payload. *)
Record queue (m : mem) (head : ptr) (ps : list ptr) : Prop := Queue {
  queue_ring : ring (heads m) head ps;
  queue_nonnull : NULL ∉ head :: ps;
  queue_elements : Forall (element m) ps;
  queue_owned : NoDup (value_of m <$> ps) }.

Definition contents (m : mem) (ps : list ptr) : list string := payload m <$> ps.

(** ** What the operations compute, on lists *)

(** Payload order and payload equality as [strcmp] decides them. *)
Definition str_le (a b : string) : Prop := (strcmp a b <= 0)%Z.
Definition str_eqb (a b : string) : bool := (strcmp a b =? 0)%Z.

(** Every adjacent pair is in order. *)
Definition ascending (l : list string) : Prop :=
  forall i a b, l !! i = Some a -> l !! S i = Some b -> str_le a b.

(** [x] comes before [y] in [l]. *)
Definition precedes {A} (l : list A) (x y : A) : Prop :=
  exists l1 l2 l3, l = l1 ++ x :: l2 ++ y :: l3.

Section Lists.
Context {A : Type}.

(** Exchange the 1st and 2nd, the 3rd and 4th, ... *)
Fixpoint swap_pairs (l : list A) : list A :=
  match l with
  | a :: b :: r => b :: a :: swap_pairs r
  | _ => l
  end.

Variable eqb : A -> A -> bool.

(** Keep the elements that differ from both neighbours, that is, drop
    every run of two or more adjacent equal elements; [pv] is the element
    before [l], if any. *)
Fixpoint isolated (pv : option A) (l : list A) : list A :=
  match l with
  | [] => []
  | x :: r =>
      let same_prev := match pv with Some p => eqb p x | None => false end in
      let same_next := match r with y :: _ => eqb x y | [] => false end in
      if same_prev || same_next then isolated (Some x) r
      else x :: isolated (Some x) r
  end.

(** The number of elements of [l] equal to [x]. *)
Definition occurrences (x : A) (l : list A) : nat :=
  length (filter (fun y => eqb x y = true) l).

(** The merge of [merge_two_lists]: the front of the first list goes
    first unless the front of the second is strictly smaller. *)
Variable leb : A -> A -> bool.

Fixpoint merged (l1 : list A) : list A -> list A :=
  fix merged_aux (l2 : list A) : list A :=
    match l1, l2 with
    | [], _ => l2
    | _, [] => l1
    | x :: r1, y :: r2 =>
        if leb x y then x :: merged r1 l2 else y :: merged_aux r2
    end.
End Lists.

(** ** Specifications *)

(** [wp c m Q]: run from [m], the computation [c] returns, without fault and
    within its fuel, a result and a memory that satisfy [Q]. *)
Definition wp {A} (c : M A) (m : mem) (Q : A -> mem -> Prop) : Prop :=
  exists a m', c m = Ok a m' /\ Q a m'.

(** The payloads are untouched: no string and no [value] field is
    allocated, freed or modified. *)
Definition same_payloads (m m' : mem) : Prop :=
  values m' = values m /\ chars m' = chars m.

(** Only the links of the nodes [c] may have changed. *)
Definition heads_frame (c : list ptr) (m m' : mem) : Prop :=
  forall y, y ∉ c -> heads m' !! y = heads m !! y.

(** What a successful allocation returns: a non-null address of storage
    that is not live. *)
Definition fresh_element (m : mem) (a : option ptr) : Prop :=
  forall e, a = Some e ->
    e <> NULL /\ heads m !! e = None /\ values m !! e = None.

Definition fresh_chars (m : mem) (b : option ptr) : Prop :=
  forall v, b = Some v -> v <> NULL /\ chars m !! v = None.

(** [q_insert_head] and [q_insert_tail] are the same code around the
    linking primitive. *)
Definition q_insert_with (link : ptr -> ptr -> M unit)
    (head : ptr) (s : string) (a b : option ptr) : M bool :=
  if head =? NULL then ret false
  else
    let* e := malloc_element a in
    if e =? NULL then ret false
    else
      let* v := strdup s b in
      store_value e v ;;;
      let* v' := load_value e in
      if v' =? NULL then q_release_element e ;;; ret false
      else link e head ;;; ret true.

(** ** Deciding the invariants of a given memory *)

Global Instance walk_dec field lk p ps q : Decision (walk field lk p ps q).
Proof. revert p. induction ps as [|x r IH]; intros p; simpl; apply _. Defined.

Global Instance ring_dec lk head ps : Decision (ring lk head ps).
Proof. unfold ring. apply _. Defined.

Global Instance queue_dec m head ps : Decision (queue m head ps).
Proof.
  refine (cast_if (decide (ring (heads m) head ps /\ (NULL ∉ head :: ps) /\
                           Forall (element m) ps /\
                           NoDup (value_of m <$> ps))));
    [abstract (by destruct a as (? & ? & ? & ?))
    |abstract (by intros [? ? ? ?]; apply n)].
Defined.

Global Instance next_path_dec lk c q : Decision (next_path lk c q).
Proof. induction c as [|x r IH]; simpl; apply _. Defined.

Global Instance chain_dec lk p ps : Decision (chain lk p ps).
Proof. unfold chain. apply _. Defined.

(** What [sp] holds after the copy: [n - 1] bytes from [strncpy], the
    terminator, and the rest of the buffer as it was. *)
Definition copied (buf : list ascii) (s : string) (n : nat) : list ascii :=
  let bytes := String.list_ascii_of_string (cstr s) in
  take (n - 1) (bytes ++ replicate (n - 1 - length bytes) Ascii.zero)
  ++ Ascii.zero :: drop n buf.

(** Two elements hold equal payloads. *)
Definition same_payload (m : mem) (a b : ptr) : bool :=
  str_eqb (payload m a) (payload m b).

Definition payload_le (m : mem) (a b : ptr) : Prop :=
  str_le (payload m a) (payload m b).

(** The comparison of [merge_two_lists]. *)
Definition payload_leb (m : mem) (a b : ptr) : bool :=
  (strcmp (payload m a) (payload m b) <=? 0)%Z.

(** [l'] keeps the elements of each class of [eqb] in the order they have
    in [l]. *)
Definition stable {A} (eqb : A -> A -> bool) (l l' : list A) : Prop :=
  forall k, filter (fun x => eqb k x = true) l'
            = filter (fun x => eqb k x = true) l.

(** [ps'] is [ps] sorted by payload, equal payloads in their order. *)
Definition sorted_of (m : mem) (ps ps' : list ptr) : Prop :=
  ps' ≡ₚ ps /\ StronglySorted (payload_le m) ps' /\
  stable (same_payload m) ps ps'.

(** The node a [struct list_head **] points into, if any. *)
Definition lval_nodes (pp : lval) : list ptr :=
  match pp with Lhead => [] | Lnext n => [n] end.

(** What a sort of the chain [ps] from memory [m] returns. *)
Definition sorted_chain (m : mem) (ps : list ptr) (p' : ptr) (m' : mem) : Prop :=
  exists ps', chain (heads m') p' ps' /\ sorted_of m ps ps' /\
              heads_frame ps m m' /\ same_payloads m m'.

(** [c] sorts every chain of fewer than [bound] elements. *)
Definition sorts_chains (bound : nat) (c : ptr -> M ptr) : Prop :=
  forall m p ps,
    chain (heads m) p ps -> NoDup ps -> Forall (element m) ps ->
    (length ps < bound)%nat ->
    wp (c p) m (sorted_chain m ps).

(** The computation [c] returns and leaves a queue at [head] whose ring is
    closed in both directions and whose links are symmetric. *)
Definition keeps_ring {A} (c : M A) (m : mem) (head : ptr) : Prop :=
  exists r m' ps',
    c m = Ok r m' /\ ring (heads m') head ps' /\
    symmetric (heads m') (head :: ps') /\ queue m' head ps'.

(** A usable output buffer: null, or of at least [bufsize >= 1] bytes. *)
Definition buffer_ok (sp : option (list ascii)) (bufsize : N) : Prop :=
  match sp with
  | Some buf => 1 <= bufsize <= N.of_nat (length buf) /\
                N.of_nat (length buf) <= SIZE_MAX
  | None => True
  end.

(** [l] does not start with an element equal to [p]. *)
Definition starts_off {A} (eqb : A -> A -> bool) (p : A) (l : list A) : Prop :=
  match l with y :: _ => eqb p y = false | [] => True end.

(** ** Further vocabulary *)

(** Every earlier payload is strictly below every later one: the list is
    ascending and no two of its payloads compare equal. *)
Definition strictly_ascending (l : list string) : Prop :=
  forall i j a b, (i < j)%nat -> l !! i = Some a -> l !! j = Some b ->
    (strcmp a b < 0)%Z.

(** No two adjacent payloads compare equal. *)
Definition adjacent_distinct (l : list string) : Prop :=
  forall i a b, l !! i = Some a -> l !! S i = Some b -> str_eqb a b = false.

(** The bytes of a buffer read as a C string. *)
Definition c_string (buf : list ascii) : string :=
  cstr (String.string_of_list_ascii buf).

(** [m0] is [m] without the storage of the queue at [head]: the sentinel,
    the elements [ps] and the strings they own are not live in [m0], and
    everything else is as in [m]. *)
Definition without_queue (m : mem) (head : ptr) (ps : list ptr) (m0 : mem) : Prop :=
  (forall y, heads m0 !! y
             = if decide (y ∈ head :: ps) then None else heads m !! y) /\
  (forall y, values m0 !! y
             = if decide (y ∈ ps) then None else values m !! y) /\
  (forall v, chars m0 !! v
             = if decide (v ∈ value_of m <$> ps) then None else chars m !! v).

(** No [prev] link is written and no node is allocated or released: every
    address holds a node after if and only if it did before, with the
    same [prev]. *)
Definition prevs_kept (m m' : mem) : Prop :=
  forall y, prev <$> heads m' !! y = prev <$> heads m !! y.

(** * Proofs *)

Local Close Scope N_scope.
Local Arguments List.last : simpl never.

(** ** First and last elements *)

Lemma hd_app {A} (d : A) l1 l2 : hd d (l1 ++ l2) = hd (hd d l2) l1.
Proof. by destruct l1. Qed.

Lemma dlast_cons {A} (d x : A) l : List.last (x :: l) d = List.last l x.
Proof.
  revert d x. induction l as [|y l IH]; intros d x; [done|].
  change (List.last (y :: l) d = List.last (y :: l) x).
  by rewrite !IH.
Qed.

Lemma dlast_app {A} (d : A) l1 l2 :
  List.last (l1 ++ l2) d = List.last l2 (List.last l1 d).
Proof.
  revert d. induction l1 as [|x l1 IH]; intros d; [done|].
  by rewrite <- app_comm_cons, !dlast_cons, IH.
Qed.

Lemma dlast_snoc {A} (d x : A) l : List.last (l ++ [x]) d = x.
Proof. by rewrite dlast_app. Qed.

Lemma dlast_elem_of {A} (d : A) l : List.last l d = d \/ List.last l d ∈ l.
Proof.
  destruct l as [|x l _] using rev_ind; [by left|].
  right. rewrite dlast_snoc. set_solver.
Qed.

Lemma hd_elem_of {A} (d : A) l : hd d l = d \/ hd d l ∈ l.
Proof. destruct l; [by left|right; simpl; set_solver]. Qed.

Lemma hd_reverse {A} (d : A) l : hd d (reverse l) = List.last l d.
Proof.
  destruct l as [|x l _] using rev_ind; [done|].
  by rewrite reverse_snoc, dlast_snoc.
Qed.

Lemma dlast_reverse {A} (d : A) l : List.last (reverse l) d = hd d l.
Proof. destruct l as [|x l]; [done|]. by rewrite reverse_cons, dlast_snoc. Qed.

(** ** Paths *)

Lemma path_app lk p c1 c2 q :
  path lk p (c1 ++ c2) q <->
  path lk p c1 (hd q c2) /\ path lk (List.last c1 p) c2 q.
Proof.
  revert p. induction c1 as [|x c1 IH]; intros p; simpl.
  - tauto.
  - rewrite IH, hd_app, dlast_cons. tauto.
Qed.

Lemma path_ext lk lk' p c q :
  (forall x, x ∈ c -> lk' !! x = lk !! x) ->
  path lk p c q -> path lk' p c q.
Proof.
  revert p. induction c as [|x c IH]; intros p Hext; simpl; [done|].
  intros [Hx Hp]. split.
  - rewrite Hext; [done|set_solver].
  - apply IH; [|done]. intros y Hy. apply Hext. set_solver.
Qed.

Lemma path_insert lk p c q x h :
  x ∉ c -> path lk p c q -> path (<[x := h]> lk) p c q.
Proof.
  intros Hx. apply path_ext. intros y Hy.
  apply lookup_insert_ne. intros ->. done.
Qed.

Lemma path_delete lk p c q x :
  x ∉ c -> path lk p c q -> path (delete x lk) p c q.
Proof.
  intros Hx. apply path_ext. intros y Hy.
  apply lookup_delete_ne. intros ->. done.
Qed.

Lemma path_lookup lk p c1 x c2 q :
  path lk p (c1 ++ x :: c2) q ->
  lk !! x = Some (LH (hd q c2) (List.last c1 p)).
Proof. rewrite path_app. simpl. tauto. Qed.

(** Redirecting the [prev] link of the first node. *)
Lemma path_set_prev lk p p' x r q :
  x ∉ r -> path lk p (x :: r) q ->
  path (<[x := LH (hd q r) p']> lk) p' (x :: r) q.
Proof.
  simpl. intros Hx [_ Hr]. split; [apply lookup_insert_eq|].
  by apply path_insert.
Qed.

(** Redirecting the [next] link of the last node. *)
Lemma path_set_next lk p r z q q' :
  z ∉ r -> path lk p (r ++ [z]) q ->
  path (<[z := LH q' (List.last r p)]> lk) p (r ++ [z]) q'.
Proof.
  intros Hz. rewrite !path_app. simpl. intros (Hr & _ & _).
  split; [|split; [apply lookup_insert_eq|done]].
  by apply path_insert.
Qed.

Lemma path_reverse_snoc lk p c x q :
  path lk q (reverse (c ++ [x])) p <->
  lk !! x = Some (LH (List.last c p) q) /\ path lk x (reverse c) p.
Proof. rewrite reverse_snoc. simpl. by rewrite hd_reverse. Qed.

(** ** Cycles *)

Lemma cycle_rotate lk c1 c2 : cycle lk (c1 ++ c2) -> cycle lk (c2 ++ c1).
Proof.
  unfold cycle. intros [Hnd Hp]. split.
  { apply NoDup_app in Hnd as (H1 & H2 & H3). apply NoDup_app.
    split; [done|]. split; [|done]. intros x Hx Hx'. by apply (H2 x). }
  destruct c1 as [|x c1]; [by rewrite app_nil_r in *|].
  destruct c2 as [|y c2]; [by rewrite app_nil_r in *|].
  revert Hp. rewrite !path_app, !hd_app, !dlast_app. simpl.
  rewrite !dlast_cons. tauto.
Qed.

Lemma cycle_cons lk x c :
  cycle lk (x :: c) <-> NoDup (x :: c) /\ path lk (List.last c x) (x :: c) x.
Proof. unfold cycle. by rewrite dlast_cons. Qed.

(** ** Rings are cycles through the sentinel *)

Lemma path_halves lk p c q :
  path lk p c q <-> next_path lk c q /\ prev_path lk p c.
Proof.
  revert p. induction c as [|x c IH]; intros p; simpl; [tauto|].
  rewrite IH. destruct (lk !! x) as [[n v]|]; simpl.
  - split.
    + intros ([= -> ->] & ? & ?). done.
    + intros (([= ->] & ?) & [= ->] & ?). done.
  - split; [intros [[=] _]|intros [[[=] _] _]].
Qed.

Lemma walk_next_path lk p ps q :
  walk next lk p ps q <-> next_path lk (p :: ps) q.
Proof.
  revert p. induction ps as [|x ps IH]; intros p; simpl; [tauto|].
  rewrite IH. simpl. tauto.
Qed.

Lemma prev_path_app lk p c1 c2 :
  prev_path lk p (c1 ++ c2) <->
  prev_path lk p c1 /\ prev_path lk (List.last c1 p) c2.
Proof.
  revert p. induction c1 as [|x c1 IH]; intros p; simpl; [tauto|].
  rewrite IH, dlast_cons. tauto.
Qed.

Lemma walk_prev_path lk q c p :
  walk prev lk q (reverse c) p <->
  prev <$> lk !! q = Some (List.last c p) /\ prev_path lk p c.
Proof.
  revert q. induction c as [|x c IH] using rev_ind; intros q.
  - simpl. tauto.
  - rewrite reverse_snoc, dlast_snoc, prev_path_app. simpl.
    rewrite IH. tauto.
Qed.

Lemma ring_cycle lk head ps : ring lk head ps <-> cycle lk (head :: ps).
Proof.
  unfold ring. rewrite cycle_cons, path_halves, walk_next_path, walk_prev_path.
  simpl. tauto.
Qed.

Lemma ring_path lk head ps :
  ring lk head ps <->
  NoDup (head :: ps) /\ path lk (List.last ps head) (head :: ps) head.
Proof. by rewrite ring_cycle, cycle_cons. Qed.

(** The links of the sentinel and of an element of a ring. *)
Lemma ring_head lk head ps :
  ring lk head ps -> lk !! head = Some (LH (hd head ps) (List.last ps head)).
Proof. rewrite ring_path. simpl. tauto. Qed.

Lemma ring_elem lk head l1 x l2 :
  ring lk head (l1 ++ x :: l2) ->
  lk !! x = Some (LH (hd head l2) (List.last l1 head)).
Proof.
  rewrite ring_path. intros [_ Hp].
  rewrite app_comm_cons in Hp. apply path_lookup in Hp.
  by rewrite dlast_cons in Hp.
Qed.

Lemma ring_NoDup lk head ps : ring lk head ps -> NoDup (head :: ps).
Proof. by intros [? _]. Qed.

(** Link symmetry holds all around a ring. *)
Lemma ring_symmetric lk head ps :
  ring lk head ps -> symmetric lk (head :: ps).
Proof.
  intros Hr a b ha Ha Hla <-.
  apply list_elem_of_split in Ha as (l1 & l2 & Hc).
  destruct l1 as [|h l1]; simpl in Hc; injection Hc as -> ->.
  - rewrite (ring_head _ _ _ Hr) in Hla. simplify_eq/=.
    destruct l2 as [|x ps]; simpl.
    + eexists. split; [by apply ring_head in Hr|done].
    + eexists. split; [apply (ring_elem _ _ [] x ps Hr)|done].
  - rewrite (ring_elem _ _ _ _ _ Hr) in Hla. simplify_eq/=.
    destruct l2 as [|y l2]; simpl.
    + eexists. split; [by apply ring_head in Hr|]. simpl. by rewrite dlast_snoc.
    + replace (l1 ++ a :: y :: l2) with ((l1 ++ [a]) ++ y :: l2) in Hr
        by (by rewrite <- app_assoc).
      eexists. split; [apply (ring_elem _ _ _ _ _ Hr)|]. simpl. by rewrite dlast_snoc.
Qed.

(** ** Rules for running the code *)

Lemma wp_ret {A} (a : A) m Q : Q a m -> wp (ret a) m Q.
Proof. intros. by exists a, m. Qed.

Lemma wp_bind {A B} (c : M A) (k : A -> M B) m Q :
  wp c m (fun a m' => wp (k a) m' Q) -> wp (bind c k) m Q.
Proof.
  intros (a & m' & Hc & b & m'' & Hk & HQ).
  exists b, m''. unfold bind. by rewrite Hc.
Qed.

Lemma wp_mono {A} (c : M A) m (Q Q' : A -> mem -> Prop) :
  wp c m Q -> (forall a m', Q a m' -> Q' a m') -> wp c m Q'.
Proof. intros (a & m' & Hc & HQ) HQQ'. exists a, m'. auto. Qed.

Lemma wp_seq {A B} (c : M A) (k : A -> M B) m (P : A -> mem -> Prop) Q :
  wp c m P -> (forall a m', P a m' -> wp (k a) m' Q) -> wp (bind c k) m Q.
Proof. intros Hc Hk. apply wp_bind. eapply wp_mono; eauto. Qed.

Lemma wp_load_next p h m Q :
  heads m !! p = Some h -> Q (next h) m -> wp (load_next p) m Q.
Proof. intros Hp HQ. exists (next h), m. unfold load_next. by rewrite Hp. Qed.

Lemma wp_load_prev p h m Q :
  heads m !! p = Some h -> Q (prev h) m -> wp (load_prev p) m Q.
Proof. intros Hp HQ. exists (prev h), m. unfold load_prev. by rewrite Hp. Qed.

Lemma wp_store_next p v h m Q :
  heads m !! p = Some h ->
  Q tt (set_heads m (<[p := LH v (prev h)]> (heads m))) ->
  wp (store_next p v) m Q.
Proof. intros Hp HQ. eexists tt, _. unfold store_next. by rewrite Hp. Qed.

Lemma wp_store_prev p v h m Q :
  heads m !! p = Some h ->
  Q tt (set_heads m (<[p := LH (next h) v]> (heads m))) ->
  wp (store_prev p v) m Q.
Proof. intros Hp HQ. eexists tt, _. unfold store_prev. by rewrite Hp. Qed.

Lemma wp_load_value e v m Q :
  values m !! e = Some v -> Q v m -> wp (load_value e) m Q.
Proof. intros He HQ. exists v, m. unfold load_value. by rewrite He. Qed.

Lemma wp_load_chars v s m Q :
  chars m !! v = Some s -> Q s m -> wp (load_chars v) m Q.
Proof. intros Hv HQ. exists s, m. unfold load_chars. by rewrite Hv. Qed.

Lemma wp_result {A} (c : M A) m Q :
  wp c m Q -> exists a m', c m = Ok a m' /\ Q a m'.
Proof. done. Qed.

Lemma same_payloads_refl m : same_payloads m m.
Proof. done. Qed.

Lemma same_payloads_trans m1 m2 m3 :
  same_payloads m1 m2 -> same_payloads m2 m3 -> same_payloads m1 m3.
Proof. intros [? ?] [? ?]. split; congruence. Qed.

Lemma same_payloads_set_heads m lk : same_payloads m (set_heads m lk).
Proof. done. Qed.

Lemma heads_frame_refl c m : heads_frame c m m.
Proof. done. Qed.

Lemma heads_frame_trans c m1 m2 m3 :
  heads_frame c m1 m2 -> heads_frame c m2 m3 -> heads_frame c m1 m3.
Proof. intros H1 H2 y Hy. rewrite H2, H1; done. Qed.

Lemma heads_frame_mono c c' m m' :
  c ⊆ c' -> heads_frame c m m' -> heads_frame c' m m'.
Proof. intros Hc H y Hy. apply H. set_solver. Qed.

(** One step of the code: the next load or store, justified by the lookup
    [H] of the address it touches. *)
Ltac wp_step H :=
  try apply wp_bind;
  first [ eapply wp_load_next; [exact H|]
        | eapply wp_load_prev; [exact H|]
        | eapply wp_store_next; [exact H|]
        | eapply wp_store_prev; [exact H|]
        | eapply wp_load_value; [exact H|]
        | eapply wp_load_chars; [exact H|] ];
  simpl.

(** Membership in a list whose matching element is in sight. *)
Ltac elem_here :=
  solve [repeat first [apply list_elem_of_here | apply list_elem_of_further]].

(** ** The ring primitives *)

Lemma snoc_inv {A} (l : list A) : l <> [] -> exists r z, l = r ++ [z].
Proof.
  destruct l as [|z r _] using rev_ind; [done|]. intros _. by exists r, z.
Qed.

(** [list_del] unlinks a node of a cycle and leaves its own links alone. *)
Lemma list_del_cycle m x c :
  c <> [] -> cycle (heads m) (x :: c) ->
  wp (list_del x) m (fun _ m' =>
    cycle (heads m') c /\ heads_frame c m m' /\ same_payloads m m').
Proof.
  intros Hc [Hnd Hp]%cycle_cons.
  destruct c as [|y r]; [done|]. clear Hc.
  destruct (snoc_inv (y :: r)) as (r' & z & Hr'); [done|].
  assert (Hx : heads m !! x = Some (LH y (List.last (y :: r) x))) by apply Hp.
  destruct Hp as [_ Hp].
  assert (Hy : heads m !! y = Some (LH (hd x r) x)) by apply Hp.
  apply NoDup_cons in Hnd as [Hxc Hnd].
  pose proof Hnd as [Hyr _]%NoDup_cons.
  unfold list_del.
  apply wp_bind, (wp_load_next _ _ _ _ Hx).
  apply wp_bind, (wp_load_prev _ _ _ _ Hx). simpl.
  apply wp_bind, (wp_store_prev _ _ _ _ _ Hy). simpl.
  apply (path_set_prev _ _ (List.last (y :: r) x)) in Hp; [|done].
  set (lk1 := <[y := _]> (heads m)) in *.
  rewrite Hr', dlast_snoc in Hp |- *.
  assert (Hz : lk1 !! z = Some (LH x (List.last r' z))).
  { eapply path_lookup in Hp. by rewrite Hp. }
  eapply wp_store_next; [exact Hz|]. simpl.
  rewrite Hr' in Hnd. pose proof Hnd as (_ & Hzr & _)%NoDup_app.
  apply (path_set_next _ _ _ _ _ y) in Hp; [|set_solver].
  split; [|split; [|done]].
  - split; [done|]. rewrite dlast_snoc.
    replace (hd NULL (r' ++ [z])) with y; [done|].
    rewrite <- Hr'. done.
  - intros w Hw. simpl. rewrite lookup_insert_ne by set_solver.
    unfold lk1. rewrite lookup_insert_ne; [done|].
    intros ->. apply Hw. rewrite <- Hr'. set_solver.
Qed.

(** [list_add] links a detached node right after a node of a cycle. *)
Lemma list_add_cycle m n h c hn :
  cycle (heads m) (h :: c) -> n ∉ h :: c -> heads m !! n = Some hn ->
  wp (list_add n h) m (fun _ m' =>
    cycle (heads m') (h :: n :: c) /\ heads_frame (n :: h :: c) m m' /\
    same_payloads m m').
Proof.
  intros Hcy Hn Hhn.
  assert (Hh : heads m !! h = Some (LH (hd h c) (List.last c h))).
  { apply cycle_cons in Hcy as [_ Hp]. apply Hp. }
  apply (cycle_rotate _ [h] c) in Hcy as [Hnd Hp].
  rewrite dlast_snoc, hd_app in Hp. simpl in Hp.
  unfold list_add.
  remember (c ++ [h]) as L eqn:HL.
  assert (HhdL : hd h c = hd NULL L) by (subst L; by rewrite hd_app).
  destruct L as [|nxt L']; [by destruct c|]. simpl in HhdL. rewrite HhdL in Hh, Hp.
  wp_step Hh.
  assert (HnL : n ∉ nxt :: L') by (rewrite HL; set_solver).
  pose proof Hnd as [HnxtL' _]%NoDup_cons.
  assert (Hnxt : heads m !! nxt = Some (LH (hd nxt L') h)) by apply Hp.
  wp_step Hnxt.
  apply (path_set_prev _ _ n) in Hp; [|done].
  set (lk1 := <[nxt := _]> (heads m)) in *.
  assert (Hn1 : lk1 !! n = Some hn).
  { unfold lk1. rewrite lookup_insert_ne; [done|]. intros ->. set_solver. }
  wp_step Hn1.
  apply (path_insert _ _ _ _ n (LH nxt (prev hn))) in Hp; [|done].
  set (lk2 := <[n := _]> lk1) in *.
  apply wp_bind. eapply wp_store_prev; [subst lk2; apply lookup_insert_eq|]. simpl.
  apply (path_insert _ _ _ _ n (LH nxt h)) in Hp; [|done].
  set (lk3 := <[n := _]> lk2) in *.
  rewrite HL in Hp, Hnd.
  assert (Hh3 : lk3 !! h = Some (LH nxt (List.last c n))).
  { eapply path_lookup in Hp. by rewrite Hp. }
  eapply wp_store_next; [exact Hh3|]. simpl.
  pose proof Hnd as (_ & Hhc & _)%NoDup_app.
  apply (path_set_next _ _ _ _ _ n) in Hp; [|set_solver].
  set (lk4 := <[h := _]> lk3) in *.
  assert (Hn4 : lk4 !! n = Some (LH nxt h)).
  { unfold lk4. rewrite lookup_insert_ne by set_solver.
    subst lk3. apply lookup_insert_eq. }
  split; [|split; [|done]].
  - apply (cycle_rotate _ (n :: c) [h]).
    change (cycle lk4 (n :: (c ++ [h]))). apply cycle_cons.
    split; [apply NoDup_cons; split; [set_solver|done]|].
    rewrite dlast_snoc. simpl. split; [|done].
    rewrite Hn4. do 2 f_equal. rewrite hd_app. simpl. done.
  - intros w Hw. simpl. unfold lk4, lk3, lk2, lk1.
    rewrite !lookup_insert_ne; [done|..]; intros ->; apply Hw.
    all: try solve [elem_here].
    clear -HhdL. destruct c; simpl in HhdL; subst; elem_here.
Qed.

(** [list_add_tail] links a detached node right before a node of a cycle. *)
Lemma list_add_tail_cycle m n h c hn :
  cycle (heads m) (h :: c) -> n ∉ h :: c -> heads m !! n = Some hn ->
  wp (list_add_tail n h) m (fun _ m' =>
    cycle (heads m') (h :: c ++ [n]) /\ heads_frame (n :: h :: c) m m' /\
    same_payloads m m').
Proof.
  intros Hcy Hn Hhn.
  assert (Hh : heads m !! h = Some (LH (hd h c) (List.last c h))).
  { apply cycle_cons in Hcy as [_ Hp]. apply Hp. }
  apply cycle_cons in Hcy as [Hnd Hp].
  unfold list_add_tail.
  wp_step Hh.
  destruct (snoc_inv (h :: c)) as (L' & prv & HL); [done|].
  assert (Hlast : List.last c h = prv).
  { rewrite <- dlast_cons with (d := NULL). by rewrite HL, dlast_snoc. }
  rewrite Hlast in *. rewrite HL in Hp, Hnd.
  assert (Hprv : heads m !! prv = Some (LH h (List.last L' prv))).
  { eapply path_lookup in Hp. by rewrite Hp. }
  pose proof Hnd as (_ & HprvL' & _)%NoDup_app.
  wp_step Hprv.
  apply (path_set_next _ _ _ _ _ n) in Hp; [|set_solver].
  set (lk1 := <[prv := _]> (heads m)) in *.
  assert (HnL : n ∉ L' ++ [prv]) by (rewrite <- HL; done).
  assert (Hn1 : lk1 !! n = Some hn).
  { unfold lk1. rewrite lookup_insert_ne; [done|]. intros ->. set_solver. }
  wp_step Hn1.
  apply (path_insert _ _ _ _ n (LH h (prev hn))) in Hp; [|done].
  set (lk2 := <[n := _]> lk1) in *.
  apply wp_bind. eapply wp_store_prev; [subst lk2; apply lookup_insert_eq|]. simpl.
  apply (path_insert _ _ _ _ n (LH h prv)) in Hp; [|done].
  set (lk3 := <[n := _]> lk2) in *.
  rewrite <- HL in Hp, Hnd.
  assert (Hh3 : lk3 !! h = Some (LH (hd n c) prv)) by apply Hp.
  eapply wp_store_prev; [exact Hh3|]. simpl.
  pose proof Hnd as [Hhc _]%NoDup_cons.
  apply (path_set_prev _ _ n) in Hp; [|done].
  set (lk4 := <[h := _]> lk3) in *.
  assert (Hn4 : lk4 !! n = Some (LH h prv)).
  { unfold lk4. rewrite lookup_insert_ne by set_solver.
    subst lk3. apply lookup_insert_eq. }
  split; [|split; [|done]].
  - apply (cycle_rotate _ [n] (h :: c)). simpl. apply cycle_cons.
    split; [apply NoDup_cons; split; [set_solver|done]|].
    rewrite dlast_cons, Hlast. simpl. split; [done|]. apply Hp.
  - intros w Hw. simpl. unfold lk4, lk3, lk2, lk1.
    rewrite !lookup_insert_ne; [done|..]; intros ->; apply Hw.
    all: try solve [elem_here].
    clear -HL. assert (w ∈ h :: c) by (rewrite HL; set_solver). set_solver.
Qed.

(** ** Unlinking from and linking into a ring *)

Lemma ring_del m head l1 x l2 :
  ring (heads m) head (l1 ++ x :: l2) ->
  wp (list_del x) m (fun _ m' =>
    ring (heads m') head (l1 ++ l2) /\
    heads_frame (head :: l1 ++ l2) m m' /\ same_payloads m m').
Proof.
  intros Hr%ring_cycle.
  apply (cycle_rotate _ (head :: l1) (x :: l2)) in Hr.
  change (cycle (heads m) (x :: (l2 ++ head :: l1))) in Hr.
  eapply wp_mono; [apply list_del_cycle; [|exact Hr]|].
  { by destruct l2. }
  intros _ m' (Hc & Hf & Hs). split; [|split; [|done]].
  - apply ring_cycle. by apply (cycle_rotate _ l2 (head :: l1)).
  - eapply heads_frame_mono; [|done]. set_solver.
Qed.

Lemma ring_add m head l1 y l2 n hn :
  ring (heads m) head (l1 ++ y :: l2) ->
  n ∉ head :: l1 ++ y :: l2 -> heads m !! n = Some hn ->
  wp (list_add n y) m (fun _ m' =>
    ring (heads m') head (l1 ++ y :: n :: l2) /\
    heads_frame (n :: head :: l1 ++ y :: l2) m m' /\ same_payloads m m').
Proof.
  intros Hr%ring_cycle Hn Hhn.
  apply (cycle_rotate _ (head :: l1) (y :: l2)) in Hr.
  change (cycle (heads m) (y :: (l2 ++ head :: l1))) in Hr.
  eapply wp_mono; [apply (list_add_cycle _ n _ _ hn Hr); [set_solver|done]|].
  intros _ m' (Hc & Hf & Hs). split; [|split; [|done]].
  - apply ring_cycle. by apply (cycle_rotate _ (y :: n :: l2) (head :: l1)).
  - eapply heads_frame_mono; [|done]. set_solver.
Qed.

Lemma ring_add_head m head ps n hn :
  ring (heads m) head ps -> n ∉ head :: ps -> heads m !! n = Some hn ->
  wp (list_add n head) m (fun _ m' =>
    ring (heads m') head (n :: ps) /\
    heads_frame (n :: head :: ps) m m' /\ same_payloads m m').
Proof.
  intros Hr%ring_cycle Hn Hhn.
  eapply wp_mono; [by apply (list_add_cycle _ n _ _ hn Hr)|].
  intros _ m' (Hc & Hf & Hs). by rewrite ring_cycle.
Qed.

Lemma ring_add_tail m head ps n hn :
  ring (heads m) head ps -> n ∉ head :: ps -> heads m !! n = Some hn ->
  wp (list_add_tail n head) m (fun _ m' =>
    ring (heads m') head (ps ++ [n]) /\
    heads_frame (n :: head :: ps) m m' /\ same_payloads m m').
Proof.
  intros Hr%ring_cycle Hn Hhn.
  eapply wp_mono; [by apply (list_add_tail_cycle _ n _ _ hn Hr)|].
  intros _ m' (Hc & Hf & Hs). by rewrite ring_cycle.
Qed.

(** A ring only depends on the links of its own nodes. *)
Lemma ring_ext lk lk' head ps :
  (forall x, x ∈ head :: ps -> lk' !! x = lk !! x) ->
  ring lk head ps -> ring lk' head ps.
Proof.
  rewrite !ring_path. intros Hext [Hnd Hp]. split; [done|].
  by apply (path_ext lk).
Qed.

Lemma list_empty_ring m head ps Q :
  ring (heads m) head ps ->
  Q (bool_decide (ps = [])) m -> wp (list_empty head) m Q.
Proof.
  intros Hr HQ. unfold list_empty.
  wp_step (ring_head _ _ _ Hr). apply wp_ret.
  destruct ps as [|x ps]; simpl in *.
  - by rewrite N.eqb_refl.
  - apply ring_NoDup in Hr. apply NoDup_cons in Hr as [Hx _].
    destruct (N.eqb_spec x head) as [->|]; [|done].
    exfalso. apply Hx. elem_here.
Qed.

(** ** Elements *)

Lemma element_value m p :
  element m p ->
  exists v s, values m !! p = Some v /\ v <> NULL /\ chars m !! v = Some s /\
              value_of m p = v /\ payload m p = s.
Proof.
  unfold element, value_of, payload.
  destruct (values m !! p) as [v|]; [|done]. intros [Hv [s Hs]].
  exists v, s. simpl. by rewrite Hs.
Qed.

Lemma element_same m m' p :
  same_payloads m m' -> element m p -> element m' p.
Proof. unfold element. by intros [-> ->]. Qed.

Lemma value_of_same m m' p : same_payloads m m' -> value_of m' p = value_of m p.
Proof. unfold value_of. by intros [-> _]. Qed.

Lemma payload_same m m' p : same_payloads m m' -> payload m' p = payload m p.
Proof. unfold payload. by intros [-> ->]. Qed.

Lemma contents_same m m' ps :
  same_payloads m m' -> contents m' ps = contents m ps.
Proof.
  intros Hs. unfold contents. apply list_fmap_ext. intros _ p _.
  by apply payload_same.
Qed.

(** Relinking the same elements in another order keeps a queue. *)
Lemma queue_relink m m' head ps ps' :
  queue m head ps -> ring (heads m') head ps' -> ps' ≡ₚ ps ->
  same_payloads m m' -> queue m' head ps'.
Proof.
  intros [Hr Hnn He Ho] Hr' Hperm Hs. split; [done|..].
  - rewrite Hperm. done.
  - rewrite Hperm. eapply Forall_impl; [done|]. intros p. by apply element_same.
  - rewrite Hperm. erewrite list_fmap_ext; [done|].
    intros _ p _. by apply value_of_same.
Qed.

(** [q_release_element] frees the string, then the element. *)
Lemma q_release_element_spec m e :
  element m e -> is_Some (heads m !! e) ->
  wp (q_release_element e) m (fun _ m' =>
    m' = Mem (delete e (heads m)) (delete e (values m))
             (delete (value_of m e) (chars m))).
Proof.
  intros (v & s & Hv & Hnn & Hs & Hvo & _)%element_value [h Hh].
  unfold q_release_element. wp_step Hv.
  apply wp_bind. exists tt, (Mem (heads m) (values m) (delete v (chars m))).
  split.
  { unfold free_chars. destruct (N.eqb_spec v NULL); [done|]. by rewrite Hs. }
  exists tt. eexists. split.
  { unfold free_element. simpl. by rewrite Hh, Hv. }
  simpl. by rewrite Hvo.
Qed.

(** Releasing an element that is no longer linked keeps the queue. *)
Lemma queue_release m head ps e :
  ring (heads m) head ps -> NULL ∉ head :: ps ->
  Forall (element m) ps -> NoDup (value_of m <$> e :: ps) ->
  e ∉ head :: ps ->
  let m' := Mem (delete e (heads m)) (delete e (values m))
                (delete (value_of m e) (chars m)) in
  queue m' head ps /\ (forall p, p ∈ ps -> payload m' p = payload m p).
Proof.
  intros Hr Hnn He Ho Hne m'.
  rewrite fmap_cons in Ho. apply NoDup_cons in Ho as [Hve Ho].
  assert (Hval : forall p, p ∈ ps -> values m' !! p = values m !! p).
  { intros p Hp. simpl. apply lookup_delete_ne. intros ->. set_solver. }
  assert (Hch : forall p, p ∈ ps ->
            chars m' !! value_of m p = chars m !! value_of m p).
  { intros p Hp. simpl. apply lookup_delete_ne. intros Heq.
    apply Hve. rewrite Heq. apply list_elem_of_fmap. eauto. }
  assert (Hvo : forall p, p ∈ ps -> value_of m' p = value_of m p).
  { intros p Hp. unfold value_of. by rewrite Hval. }
  split; [split|].
  - eapply ring_ext; [|done]. intros x Hx. simpl.
    apply lookup_delete_ne. intros ->. done.
  - done.
  - apply Forall_forall. intros p Hp.
    rewrite Forall_forall in He. specialize (He p Hp).
    destruct (element_value _ _ He) as (v & s & Hv & Hvn & Hs & Hvp & _).
    unfold element. rewrite Hval, Hv by done. split; [done|].
    rewrite <- Hvp, Hch, Hvp, Hs by done. done.
  - erewrite list_fmap_ext; [done|]. intros _ p Hp%list_elem_of_lookup_2.
    by apply Hvo.
  - intros p Hp. rewrite Forall_forall in He. specialize (He p Hp).
    destruct (element_value _ _ He) as (v & s & Hv & Hvn & Hs & Hvp & _).
    unfold payload. rewrite Hval, Hv by done. simpl.
    rewrite <- Hvp. by rewrite Hch.
Qed.

(** ** Insertion *)

Lemma wp_exec {A} (c : M A) m a m' (Q : A -> mem -> Prop) :
  c m = Ok a m' -> Q a m' -> wp c m Q.
Proof. intros. by exists a, m'. Qed.

Lemma mem_eta m : Mem (heads m) (values m) (chars m) = m.
Proof. by destruct m. Qed.

Lemma ring_lookup lk head ps x :
  ring lk head ps -> x ∈ head :: ps -> is_Some (lk !! x).
Proof.
  intros Hr Hx. apply list_elem_of_split in Hx as (l1 & l2 & Hc).
  destruct l1 as [|h l1]; simpl in Hc; injection Hc as -> ->.
  - rewrite (ring_head _ _ _ Hr). eauto.
  - rewrite (ring_elem _ _ _ _ _ Hr). eauto.
Qed.

(** The memory just before the new element is linked. *)
Lemma queue_new_element m head ps e v s :
  queue m head ps ->
  e <> NULL -> heads m !! e = None -> values m !! e = None ->
  v <> NULL -> chars m !! v = None ->
  let m3 := Mem (<[e := LH NULL NULL]> (heads m))
                (<[e := v]> (<[e := NULL]> (values m)))
                (<[v := s]> (chars m)) in
  ring (heads m3) head ps /\ (e ∉ head :: ps) /\
  (NULL ∉ head :: e :: ps) /\ Forall (element m3) (e :: ps) /\
  NoDup (value_of m3 <$> e :: ps) /\
  payload m3 e = s /\ (forall p, p ∈ ps -> payload m3 p = payload m p).
Proof.
  intros [Hr Hnn He Ho] Hen Heh Hev Hvn Hvc m3. unfold m3. clear m3.
  set (m3 := Mem _ _ _).
  assert (Hne : e ∉ head :: ps).
  { intros [h Hh]%(ring_lookup _ _ _ _ Hr). congruence. }
  assert (Hval : forall p, p ∈ ps -> values m3 !! p = values m !! p).
  { intros p Hp. unfold m3; simpl. rewrite !lookup_insert_ne; [done|..];
      intros ->; apply Hne; by apply list_elem_of_further. }
  assert (Hold : forall p, p ∈ ps ->
            exists w t, values m !! p = Some w /\ chars m !! w = Some t /\
                        w <> NULL /\ w <> v).
  { intros p Hp. rewrite Forall_forall in He.
    destruct (element_value _ _ (He p Hp)) as (w & t & Hw & Hwn & Ht & _).
    exists w, t. repeat split; try done. intros ->. congruence. }
  assert (Hvo : forall p, p ∈ ps -> value_of m3 p = value_of m p).
  { intros p Hp. unfold value_of. by rewrite Hval. }
  assert (Hve : value_of m3 e = v).
  { unfold value_of. unfold m3; simpl. by rewrite lookup_insert_eq. }
  split_and!.
  - eapply ring_ext; [|done]. intros x Hx. unfold m3; simpl.
    apply lookup_insert_ne. intros ->. done.
  - done.
  - intros [Heq|[Heq|Hin]%elem_of_cons]%elem_of_cons.
    + apply Hnn. rewrite Heq. elem_here.
    + done.
    + apply Hnn. by apply list_elem_of_further.
  - apply Forall_cons. split.
    + unfold element. unfold m3; simpl. rewrite !lookup_insert_eq. eauto.
    + apply Forall_forall. intros p Hp.
      destruct (Hold p Hp) as (w & t & Hw & Ht & Hwn & Hwv).
      unfold element. rewrite Hval, Hw by done. split; [done|].
      unfold m3; simpl. rewrite lookup_insert_ne by done. eauto.
  - rewrite fmap_cons. apply NoDup_cons. split.
    + rewrite Hve. intros (p & Hpv & Hp)%list_elem_of_fmap.
      destruct (Hold p Hp) as (w & t & Hw & Ht & Hwn & Hwv).
      rewrite Hvo in Hpv by done. unfold value_of in Hpv.
      rewrite Hw in Hpv. simpl in Hpv. congruence.
    + erewrite list_fmap_ext; [done|]. intros _ p Hp%list_elem_of_lookup_2.
      by apply Hvo.
  - unfold payload. unfold m3; simpl. rewrite lookup_insert_eq. simpl.
    by rewrite lookup_insert_eq.
  - intros p Hp. destruct (Hold p Hp) as (w & t & Hw & Ht & Hwn & Hwv).
    unfold payload. rewrite Hval, Hw by done. unfold m3; simpl.
    by rewrite lookup_insert_ne.
Qed.

Lemma queue_head_nonnull m head ps : queue m head ps -> (head =? NULL)%N = false.
Proof.
  intros [_ Hnn _ _]. apply N.eqb_neq. intros ->. apply Hnn. elem_here.
Qed.

(** The two insertions differ in the linking primitive only. *)
Section Insert.
Variable link : ptr -> ptr -> M unit.
Variable place : ptr -> list ptr -> list ptr.
Hypothesis place_perm : forall e ps, place e ps ≡ₚ e :: ps.
Hypothesis link_spec : forall m head ps n hn,
  ring (heads m) head ps -> n ∉ head :: ps -> heads m !! n = Some hn ->
  wp (link n head) m (fun _ m' =>
    ring (heads m') head (place n ps) /\
    heads_frame (n :: head :: ps) m m' /\ same_payloads m m').

Lemma q_insert_null s a b m : q_insert_with link NULL s a b m = Ok false m.
Proof. done. Qed.

Lemma q_insert_spec m head ps s a b :
  queue m head ps -> fresh_element m a -> fresh_chars m b ->
  exists r m', q_insert_with link head s a b m = Ok r m' /\
    (r = false <-> a = None \/ b = None) /\
    (r = false -> m' = m) /\
    (r = true -> exists e v, a = Some e /\ b = Some v /\
       queue m' head (place e ps) /\
       values m' !! e = Some v /\ chars m' !! v = Some (cstr s) /\
       payload m' e = cstr s /\
       (forall p, p ∈ ps -> payload m' p = payload m p)).
Proof.
  intros Hq Ha Hb. unfold q_insert_with. rewrite (queue_head_nonnull _ _ _ Hq).
  destruct a as [e|]; [|exists false, m; simpl; intuition (eauto; done)].
  destruct (Ha e eq_refl) as (Hen & Heh & Hev).
  unfold bind at 1. simpl.
  destruct (N.eqb_spec e NULL) as [|_]; [done|].
  destruct b as [v|].
  - destruct (Hb v eq_refl) as (Hvn & Hvc).
    unfold bind at 1. simpl. unfold bind at 1.
    unfold store_value at 1. simpl. rewrite lookup_insert_eq.
    unfold bind at 1. unfold load_value at 1. simpl.
    rewrite lookup_insert_eq.
    destruct (N.eqb_spec v NULL) as [|_]; [done|].
    destruct (queue_new_element m head ps e v (cstr s) Hq)
      as (Hr & Hne & Hnn & Hel & Hnd & Hpe & Hpo); try done.
    destruct (link_spec _ head ps e (LH NULL NULL) Hr Hne)
      as ([] & m' & Hrun & Hr' & Hf & Hs).
    { simpl. apply lookup_insert_eq. }
    exists true, m'. split; [|split; [|split]].
    + unfold bind. by rewrite Hrun.
    + split; [done|]. by intros [|].
    + done.
    + intros _. exists e, v. split; [done|]. split; [done|].
      pose proof Hs as [Hsv Hsc]. split; [|split; [|split; [|split]]].
      * split; [done|..].
        -- by rewrite place_perm.
        -- rewrite place_perm. eapply Forall_impl; [exact Hel|].
           intros p. by apply element_same.
        -- rewrite place_perm. erewrite list_fmap_ext; [exact Hnd|].
           intros _ p _. by apply value_of_same.
      * rewrite Hsv. simpl. apply lookup_insert_eq.
      * rewrite Hsc. simpl. apply lookup_insert_eq.
      * by rewrite (payload_same _ _ _ Hs).
      * intros p Hp. rewrite (payload_same _ _ _ Hs). by apply Hpo.
  - unfold bind at 1. simpl. unfold bind at 1.
    unfold store_value at 1. simpl. rewrite lookup_insert_eq.
    unfold bind at 1. unfold load_value at 1. simpl.
    rewrite lookup_insert_eq. simpl.
    unfold bind, q_release_element, bind, load_value. simpl.
    rewrite lookup_insert_eq. simpl.
    unfold free_element. simpl. rewrite !lookup_insert_eq.
    exists false. eexists. split; [done|].
    split; [by split; [right|]|]. split; [|done]. intros _.
    rewrite !delete_insert_eq. rewrite !delete_id by done.
    apply mem_eta.
Qed.
End Insert.

Lemma q_insert_head_with : q_insert_head = q_insert_with list_add.
Proof. done. Qed.

Lemma q_insert_tail_with : q_insert_tail = q_insert_with list_add_tail.
Proof. done. Qed.

Lemma contents_ext m m' ps :
  (forall p, p ∈ ps -> payload m' p = payload m p) ->
  contents m' ps = contents m ps.
Proof.
  intros H. apply list_fmap_ext. intros _ p Hp%list_elem_of_lookup_2. auto.
Qed.

(** ** Removal *)

(** Relinking some of the elements of a queue, in any order, gives a
    queue. *)
Lemma queue_sub m m' head ps ps' :
  queue m head ps -> ring (heads m') head ps' -> ps' ⊆+ ps ->
  same_payloads m m' -> queue m' head ps'.
Proof.
  intros [Hr Hnn He Ho] Hr' Hsub Hs.
  destruct (submseteq_Permutation _ _ Hsub) as [k Hk].
  assert (Hin : forall p, p ∈ ps' -> p ∈ ps).
  { intros p Hp. rewrite Hk. apply elem_of_app. by left. }
  split; [done|..].
  - intros [Heq|Hp%Hin]%elem_of_cons; apply Hnn.
    + rewrite Heq. elem_here.
    + by apply list_elem_of_further.
  - apply Forall_forall. intros p Hp%Hin. rewrite Forall_forall in He.
    eapply element_same; eauto.
  - rewrite Hk, fmap_app in Ho. apply NoDup_app in Ho as [Ho _].
    erewrite list_fmap_ext; [done|]. intros _ p _. by apply value_of_same.
Qed.

Lemma size_sub_pos n : (1 <= n < 2 ^ 64)%N -> size_sub n 1 = (n - 1)%N.
Proof.
  intros Hn. unfold size_sub.
  replace (n + 2 ^ 64 - 1)%N with ((n - 1) + 1 * 2 ^ 64)%N by lia.
  rewrite N.Div0.mod_add. apply N.mod_small. lia.
Qed.

Lemma size_sub_zero : size_sub 0 1 = SIZE_MAX.
Proof. done. Qed.

Lemma copy_out_some m e buf bufsize :
  element m e ->
  (1 <= bufsize < 2 ^ 64)%N -> (N.to_nat bufsize <= length buf)%nat ->
  copy_out e (Some buf) bufsize m
  = Ok (Some (copied buf (payload m e) (N.to_nat bufsize))) m.
Proof.
  intros (v & s & Hv & Hnn & Hs & _ & Hp)%element_value Hn Hlen.
  unfold copy_out, bind, load_value, load_chars. rewrite Hv, Hs, Hp.
  rewrite size_sub_pos by done.
  unfold strncpy. destruct (N.leb_spec (bufsize - 1) (N.of_nat (length buf))) as [_|]; [|lia].
  simpl. unfold store_byte.
  set (k := (N.to_nat bufsize - 1)%nat).
  replace (N.to_nat (bufsize - 1)) with k by lia.
  set (l1 := take _ (_ ++ _)).
  assert (Hl1 : length l1 = k).
  { unfold l1. rewrite length_take, length_app, length_replicate. lia. }
  rewrite length_app, length_drop.
  destruct (N.ltb_spec (bufsize - 1)
              (N.of_nat (length l1 + (length buf - k)))) as [_|]; [|lia].
  simpl. unfold ret, copied. do 3 f_equal. fold k. fold l1.
  replace k with (length l1 + 0)%nat at 1 by lia.
  rewrite insert_app_r. f_equal.
  destruct (drop k buf) as [|c r] eqn:Hd.
  { apply (f_equal length) in Hd. rewrite length_drop in Hd. simpl in Hd. lia. }
  simpl. f_equal.
  replace (N.to_nat bufsize) with (k + 1)%nat by lia.
  rewrite <- drop_drop, Hd. done.
Qed.

(** With [bufsize == 0] the subtraction wraps and both writes are out of
    the bounds of any actual buffer. *)
Lemma copy_out_zero m e buf :
  element m e -> (N.of_nat (length buf) <= SIZE_MAX)%N ->
  copy_out e (Some buf) 0 m = Fault.
Proof.
  intros (v & s & Hv & Hnn & Hs & _ & Hp)%element_value Hlen.
  unfold copy_out, bind, load_value, load_chars. rewrite Hv, Hs.
  rewrite size_sub_zero. unfold strncpy.
  destruct (N.leb_spec SIZE_MAX (N.of_nat (length buf))) as [Hle|]; [|done].
  simpl. unfold store_byte.
  rewrite length_app, length_take, length_drop, length_app, length_replicate.
  destruct (N.ltb_spec SIZE_MAX (N.of_nat
    (N.to_nat SIZE_MAX `min` (length (String.list_ascii_of_string (cstr s)) +
       (N.to_nat SIZE_MAX - length (String.list_ascii_of_string (cstr s)))) +
     (length buf - N.to_nat SIZE_MAX)))) as [Hlt|]; [|done].
  lia.
Qed.

Lemma copied_length buf s n :
  (1 <= n <= length buf)%nat -> length (copied buf s n) = length buf.
Proof.
  intros Hn. unfold copied.
  rewrite length_app, length_take, length_app, length_replicate. simpl.
  rewrite length_drop. lia.
Qed.

(** The buffer receives the first [min (payload length) (n - 1)] bytes of
    the payload, then a terminator. *)
Lemma copied_prefix buf s n :
  (1 <= n)%nat ->
  let bytes := String.list_ascii_of_string (cstr s) in
  let k := (length bytes `min` (n - 1))%nat in
  take k (copied buf s n) = take k bytes /\
  copied buf s n !! k = Some Ascii.zero.
Proof.
  intros Hn bytes k. unfold copied. fold bytes.
  set (pad := replicate (n - 1 - length bytes) Ascii.zero).
  assert (Hlen : length (take (n - 1) (bytes ++ pad)) = (n - 1)%nat).
  { rewrite length_take, length_app. unfold pad. rewrite length_replicate. lia. }
  split.
  - rewrite take_app_le by lia. rewrite take_take.
    replace (k `min` (n - 1))%nat with k by lia.
    rewrite take_app_le by lia. done.
  - destruct (decide (length bytes < n - 1)%nat) as [Hlt|Hge].
    + rewrite lookup_app_l by lia. rewrite lookup_take_lt by lia.
      replace k with (length bytes + 0)%nat by lia.
      rewrite lookup_app_r by lia.
      replace (length bytes + 0 - length bytes)%nat with 0%nat by lia.
      unfold pad. destruct (n - 1 - length bytes)%nat eqn:E; [lia|done].
    + replace k with (length (take (n - 1) (bytes ++ pad)) + 0)%nat by lia.
      rewrite lookup_app_r by lia.
      by replace (length (take (n - 1) (bytes ++ pad)) + 0
                  - length (take (n - 1) (bytes ++ pad)))%nat with 0%nat by lia.
Qed.

(** Unlinking an element of a queue: the element stays live, it is only no
    longer in the ring. *)
Lemma queue_unlink m head l1 x l2 :
  queue m head (l1 ++ x :: l2) ->
  wp (list_del x) m (fun _ m' =>
    queue m' head (l1 ++ l2) /\ same_payloads m m' /\
    element m' x /\ heads m' !! x = heads m !! x).
Proof.
  intros Hq. pose proof Hq as [Hr Hnn He Ho].
  eapply wp_mono; [by apply ring_del|].
  intros _ m' (Hr' & Hf & Hs). split_and!.
  - eapply queue_sub; [done..| |done].
    apply submseteq_skips_l, submseteq_cons, reflexivity.
  - done.
  - eapply element_same; [done|]. rewrite Forall_forall in He. apply He.
    apply elem_of_app. right. elem_here.
  - apply Hf. apply ring_NoDup in Hr.
    rewrite app_comm_cons in Hr. apply NoDup_app in Hr as (_ & Hd & Hx).
    apply NoDup_cons in Hx as [Hx _].
    intros [Hin|Hin]%(elem_of_app (head :: l1)); [|done].
    apply (Hd x Hin). elem_here.
Qed.

Lemma q_remove_head_run m head x ps :
  queue m head (x :: ps) ->
  exists m', list_del x m = Ok tt m' /\
    queue m' head ps /\ same_payloads m m' /\ element m' x /\
    forall sp bufsize,
      q_remove_head head sp bufsize m
      = (let* sp' := copy_out x sp bufsize in ret (x, sp')) m'.
Proof.
  intros Hq. destruct (queue_unlink m head [] x ps Hq)
    as ([] & m' & Hdel & Hq' & Hs & He & _).
  exists m'. split_and!; try done.
  intros sp bufsize. unfold q_remove_head.
  rewrite (queue_head_nonnull _ _ _ Hq).
  pose proof (ring_head _ _ _ (queue_ring _ _ _ Hq)) as Hh. simpl in Hh.
  unfold bind at 1, list_empty, bind at 1, load_next. rewrite Hh. simpl.
  assert (Hxh : (x =? head)%N = false).
  { apply N.eqb_neq. intros ->.
    pose proof (ring_NoDup _ _ _ (queue_ring _ _ _ Hq)) as [Hn _]%NoDup_cons.
    apply Hn. elem_here. }
  rewrite Hxh. unfold bind at 1, list_first_entry, bind at 1, load_next.
  rewrite Hh. simpl. unfold list_entry. unfold bind at 1. by rewrite Hdel.
Qed.

Lemma q_remove_tail_run m head x ps :
  queue m head (ps ++ [x]) ->
  exists m', list_del x m = Ok tt m' /\
    queue m' head ps /\ same_payloads m m' /\ element m' x /\
    forall sp bufsize,
      q_remove_tail head sp bufsize m
      = (let* sp' := copy_out x sp bufsize in ret (x, sp')) m'.
Proof.
  intros Hq. destruct (queue_unlink m head ps x [] Hq)
    as ([] & m' & Hdel & Hq' & Hs & He & _).
  rewrite app_nil_r in Hq'.
  exists m'. split_and!; try done.
  intros sp bufsize. unfold q_remove_tail.
  rewrite (queue_head_nonnull _ _ _ Hq).
  pose proof (ring_head _ _ _ (queue_ring _ _ _ Hq)) as Hh.
  rewrite dlast_snoc in Hh.
  unfold bind at 1, list_empty, bind at 1, load_next. rewrite Hh. simpl.
  assert (Hxh : (hd head (ps ++ [x]) =? head)%N = false).
  { apply N.eqb_neq. intros Heq.
    pose proof (ring_NoDup _ _ _ (queue_ring _ _ _ Hq)) as [Hn _]%NoDup_cons.
    apply Hn. rewrite <- Heq at 1. destruct ps; simpl; elem_here. }
  rewrite Hxh. unfold bind at 1, list_last_entry, bind at 1, load_prev.
  rewrite Hh. simpl. unfold list_entry. unfold bind at 1. by rewrite Hdel.
Qed.

Lemma q_remove_empty m head sp bufsize :
  queue m head [] ->
  q_remove_head head sp bufsize m = Ok (NULL, sp) m /\
  q_remove_tail head sp bufsize m = Ok (NULL, sp) m.
Proof.
  intros Hq. unfold q_remove_head, q_remove_tail.
  rewrite (queue_head_nonnull _ _ _ Hq).
  pose proof (ring_head _ _ _ (queue_ring _ _ _ Hq)) as Hh. simpl in Hh.
  destruct (list_empty_ring m head [] (fun b m' => b = true /\ m' = m)
              (queue_ring _ _ _ Hq)) as (b & m' & Hrun & -> & ->); [done|].
  unfold bind. by rewrite Hrun.
Qed.

Lemma copied_beyond buf s n :
  (1 <= n <= length buf)%nat -> drop n (copied buf s n) = drop n buf.
Proof.
  intros Hn. unfold copied.
  set (l1 := take _ _).
  assert (Hl1 : length l1 = (n - 1)%nat).
  { unfold l1. rewrite length_take, length_app, length_replicate. lia. }
  rewrite drop_app_ge by lia.
  replace (n - length l1)%nat with 1%nat by lia. done.
Qed.

(** ** Deleting an element *)

(** [list_del] followed by [q_release_element]: the element leaves the ring
    and its storage is freed; the others keep their payloads. *)
Lemma queue_delete {A} m head l1 x l2 (k : M A) Q :
  queue m head (l1 ++ x :: l2) ->
  (forall m', queue m' head (l1 ++ l2) ->
     (forall p, p ∈ l1 ++ l2 -> payload m' p = payload m p) ->
     heads m' !! x = None -> values m' !! x = None ->
     chars m' !! value_of m x = None ->
     wp k m' Q) ->
  wp (list_del x ;;; q_release_element x ;;; k) m Q.
Proof.
  intros Hq Hk. pose proof Hq as [Hr Hnn He Ho].
  eapply wp_seq; [by apply queue_unlink|].
  intros _ m1 ([Hr1 Hnn1 He1 Ho1] & Hs & Hex & Hhx). simpl.
  eapply wp_seq.
  { apply q_release_element_spec; [done|].
    rewrite Hhx. apply (ring_lookup _ _ _ _ Hr).
    apply list_elem_of_further, elem_of_app. right. elem_here. }
  intros _ m2 ->. simpl.
  assert (Hnd : NoDup (head :: l1 ++ x :: l2)) by by apply ring_NoDup in Hr.
  destruct (queue_release m1 head (l1 ++ l2) x) as [Hq2 Hp2]; try done.
  - rewrite (list_fmap_ext (value_of m1) (value_of m))
      by (intros _ p _; by apply value_of_same).
    rewrite fmap_cons, fmap_app. rewrite fmap_app, fmap_cons in Ho.
    apply NoDup_app in Ho as (H1 & H2 & [H3 H4]%NoDup_cons).
    apply NoDup_cons. split.
    + intros [Hin|Hin]%elem_of_app; [|done]. apply (H2 _ Hin). elem_here.
    + apply NoDup_app. split; [done|]. split; [|done].
      intros y Hy Hy'. apply (H2 y Hy). by apply list_elem_of_further.
  - apply NoDup_cons in Hnd as [Hh Hnd].
    apply NoDup_app in Hnd as (H1 & H2 & [H3 H4]%NoDup_cons).
    intros [->|[Hin|Hin]%elem_of_app]%elem_of_cons.
    + apply Hh, elem_of_app. right. elem_here.
    + apply (H2 _ Hin). elem_here.
    + done.
  - apply Hk.
    + done.
    + intros p Hp. rewrite Hp2 by done. by apply payload_same.
    + simpl. apply lookup_delete_eq.
    + simpl. apply lookup_delete_eq.
    + simpl. rewrite (value_of_same _ _ _ Hs). apply lookup_delete_eq.
Qed.

(** ** The middle of a ring *)

Lemma ring_nth lk head ps i :
  ring lk head ps -> (i < length ps)%nat ->
  lk !! nth i ps head
  = Some (LH (nth (S i) ps head)
             (match i with O => head | S j => nth j ps head end)).
Proof.
  intros Hr Hi.
  destruct (nth_split ps head Hi) as (l1 & l2 & Hps & Hl1).
  remember (nth i ps head) as x eqn:Hx. clear Hx. subst ps i.
  rewrite (ring_elem _ _ _ _ _ Hr). do 2 f_equal.
  - replace (S (length l1)) with (length l1 + 1)%nat by lia.
    rewrite app_nth2_plus. by destruct l2.
  - destruct l1 as [|y l1 _] using rev_ind; [done|].
    rewrite dlast_snoc, length_app. simpl.
    replace (length l1 + 1)%nat with (S (length l1)) by lia.
    rewrite <- !app_assoc. simpl.
    replace (length l1) with (length l1 + 0)%nat at 1 by lia.
    by rewrite app_nth2_plus.
Qed.

Lemma ring_nth_head lk head ps i :
  ring lk head ps -> nth i ps head = head <-> (length ps <= i)%nat.
Proof.
  intros Hr. split.
  - intros Heq. destruct (decide (length ps <= i)%nat) as [|Hlt]; [done|].
    exfalso. apply ring_NoDup, NoDup_cons in Hr as [Hh _]. apply Hh.
    rewrite <- Heq. apply list_elem_of_In, nth_In. lia.
  - intros Hle. by apply nth_overflow.
Qed.

Lemma nth_middle_split {A} (l : list A) d i :
  (i < length l)%nat -> l = take i l ++ nth i l d :: drop (S i) l.
Proof.
  revert i. induction l as [|x l IH]; intros [|i] Hi; simpl in *; try lia.
  - done.
  - f_equal. apply IH. lia.
Qed.

Lemma delete_take_drop {A} (l : list A) i :
  delete i l = take i l ++ drop (S i) l.
Proof.
  revert i. induction l as [|x l IH]; intros [|i]; simpl; try done.
  f_equal. apply IH.
Qed.

Lemma mid_loop_spec m head ps fuel k :
  ring (heads m) head ps ->
  (2 * k <= length ps)%nat -> (k < length ps)%nat ->
  (length ps / 2 - k < fuel)%nat ->
  mid_loop fuel head (nth (2 * k) ps head) (nth k ps head) m
  = Ok (nth (length ps / 2) ps head) m.
Proof.
  intros Hr. revert k. induction fuel as [|fuel IH]; intros k H2k Hk Hfuel; [lia|].
  remember (2 * k)%nat as j eqn:Hj.
  cbn [mid_loop].
  destruct (N.eqb_spec (nth j ps head) head) as [Heq|Hne].
  { apply (ring_nth_head _ _ _ _ Hr) in Heq.
    assert (k = length ps / 2)%nat as ->; [|done].
    assert (length ps = k * 2)%nat as -> by lia.
    by rewrite Nat.div_mul. }
  rewrite (ring_nth_head _ _ _ _ Hr) in Hne.
  unfold bind at 1, load_next at 1. rewrite (ring_nth _ _ _ _ Hr) by lia.
  cbn [next].
  destruct (N.eqb_spec (nth (S j) ps head) head) as [Heq|Hne'].
  { apply (ring_nth_head _ _ _ _ Hr) in Heq.
    assert (k = length ps / 2)%nat as ->; [|done].
    assert (length ps = 1 + k * 2)%nat as -> by lia.
    rewrite Nat.div_add by done. done. }
  rewrite (ring_nth_head _ _ _ _ Hr) in Hne'.
  unfold bind at 1, load_next at 1. rewrite (ring_nth _ _ _ _ Hr) by lia.
  cbn [next].
  unfold bind at 1, load_next at 1. rewrite (ring_nth _ _ _ _ Hr) by lia.
  cbn [next].
  replace (S (S j)) with (2 * S k)%nat by lia.
  assert (S k <= length ps / 2)%nat by (apply Nat.div_le_lower_bound; lia).
  apply IH; lia.
Qed.

Lemma q_delete_mid_spec m head ps fuel :
  queue m head ps -> ps <> [] -> (length ps / 2 < fuel)%nat ->
  wp (q_delete_mid fuel head) m (fun r m' =>
    r = true /\
    queue m' head (delete (length ps / 2) ps) /\
    (forall p, p ∈ delete (length ps / 2) ps -> payload m' p = payload m p) /\
    heads m' !! nth (length ps / 2) ps head = None).
Proof.
  intros Hq Hne Hfuel. pose proof (queue_ring _ _ _ Hq) as Hr.
  unfold q_delete_mid. rewrite (queue_head_nonnull _ _ _ Hq).
  apply wp_bind, (list_empty_ring _ _ ps _ Hr).
  rewrite bool_decide_eq_false_2 by done.
  assert (Hlen : (0 < length ps)%nat) by (destruct ps; [done|simpl; lia]).
  assert (Hhd : hd head ps = nth 0 ps head) by by destruct ps.
  wp_step (ring_head _ _ _ Hr). wp_step (ring_head _ _ _ Hr). rewrite Hhd.
  apply wp_bind.
  eapply wp_exec.
  { apply (mid_loop_spec m head ps fuel 0 Hr); lia. }
  set (i := (length ps / 2)%nat).
  assert (Hi : (i < length ps)%nat) by (apply Nat.div_lt; lia).
  unfold list_entry. rewrite delete_take_drop.
  rewrite (nth_middle_split ps head i Hi) in Hq.
  eapply queue_delete; [exact Hq|].
  intros m' Hq' Hpay Hh _ _. apply wp_ret. done.
Qed.

Lemma q_delete_mid_null fuel m : q_delete_mid fuel NULL m = Ok false m.
Proof. done. Qed.

Lemma q_delete_mid_empty fuel m head :
  queue m head [] -> q_delete_mid fuel head m = Ok false m.
Proof.
  intros Hq. unfold q_delete_mid. rewrite (queue_head_nonnull _ _ _ Hq).
  destruct (list_empty_ring m head [] (fun b m' => b = true /\ m' = m)
              (queue_ring _ _ _ Hq)) as (b & m' & Hrun & -> & ->); [done|].
  unfold bind. by rewrite Hrun.
Qed.

(** The elements of a ring are determined by the memory. *)
Lemma walk_unique lk head p ps ps' :
  head ∉ ps -> head ∉ ps' ->
  walk next lk p ps head -> walk next lk p ps' head -> ps = ps'.
Proof.
  revert p ps'. induction ps as [|x ps IH]; intros p [|x' ps'] Hh Hh'; simpl.
  - done.
  - intros H1 [H2 _]. exfalso. apply Hh'.
    rewrite H1 in H2. injection H2 as <-. elem_here.
  - intros [H1 _] H2. exfalso. apply Hh.
    rewrite H1 in H2. injection H2 as <-. elem_here.
  - intros [H1 Hw] [H2 Hw']. rewrite H1 in H2. injection H2 as <-.
    f_equal. apply (IH x).
    + intros Hin. apply Hh. by apply list_elem_of_further.
    + intros Hin. apply Hh'. by apply list_elem_of_further.
    + done.
    + done.
Qed.

Lemma ring_unique lk head ps ps' :
  ring lk head ps -> ring lk head ps' -> ps = ps'.
Proof.
  intros ([Hh _]%NoDup_cons & Hw & _) ([Hh' _]%NoDup_cons & Hw' & _).
  by apply (walk_unique lk head head).
Qed.

Lemma queue_unique m head ps ps' :
  queue m head ps -> queue m head ps' -> ps = ps'.
Proof. intros [Hr _ _ _] [Hr' _ _ _]. by apply (ring_unique (heads m) head). Qed.

Lemma contents_delete m m' ps i :
  (forall p, p ∈ delete i ps -> payload m' p = payload m p) ->
  contents m' (delete i ps) = delete i (contents m ps).
Proof.
  intros H. rewrite (contents_ext m m') by done.
  unfold contents. by rewrite !delete_take_drop, fmap_app, fmap_take, fmap_drop.
Qed.

(** ** Swapping pairs *)

(** Induction two elements at a time. *)
Lemma pairs_ind {A} (P : list A -> Prop) :
  P [] -> (forall a, P [a]) -> (forall a b r, P r -> P (a :: b :: r)) ->
  forall l, P l.
Proof.
  intros H0 H1 H2 l.
  assert (P l /\ forall a, P (a :: l)) as [H _]; [|done].
  induction l as [|b l [IH1 IH2]]; [by split|].
  split; [apply IH2|]. intros a. by apply H2.
Qed.

Lemma ring_hd_not_head lk head l1 x l2 :
  ring lk head (l1 ++ x :: l2) -> (x =? head)%N = false.
Proof.
  intros [Hh _]%ring_NoDup%NoDup_cons. apply N.eqb_neq. intros ->.
  apply Hh, elem_of_app. right. elem_here.
Qed.

Lemma swap_loop_spec fuel : forall m head l1 rest,
  ring (heads m) head (l1 ++ rest) -> (length rest / 2 < fuel)%nat ->
  wp (swap_loop fuel head (hd head rest)) m (fun _ m' =>
    ring (heads m') head (l1 ++ swap_pairs rest) /\
    same_payloads m m' /\
    ((length rest < 2)%nat -> m' = m)).
Proof.
  induction fuel as [|fuel IH]; intros m head l1 rest Hr Hfuel; [lia|].
  cbn [swap_loop].
  destruct rest as [|a [|b r]].
  - simpl. rewrite N.eqb_refl. by apply wp_ret.
  - simpl. rewrite (ring_hd_not_head _ _ _ _ _ Hr).
    wp_step (ring_elem _ _ _ _ _ Hr). rewrite N.eqb_refl. by apply wp_ret.
  - cbn [hd swap_pairs]. rewrite (ring_hd_not_head _ _ _ _ _ Hr).
    pose proof (ring_elem _ _ _ _ _ Hr) as Ha. simpl in Ha.
    wp_step Ha.
    assert (Hr2 : ring (heads m) head ((l1 ++ [a]) ++ b :: r))
      by by rewrite <- app_assoc.
    rewrite (ring_hd_not_head _ _ _ _ _ Hr2).
    wp_step Ha.
    eapply wp_seq; [by apply ring_del|].
    intros _ m1 (Hr1 & Hf1 & Hs1). simpl.
    assert (Hna : a ∉ head :: l1 ++ b :: r).
    { apply ring_NoDup in Hr. rewrite app_comm_cons in Hr.
      apply NoDup_app in Hr as (_ & Hd & [Hx _]%NoDup_cons).
      intros [Hin|Hin]%(elem_of_app (head :: l1)); [|done].
      apply (Hd a Hin). elem_here. }
    assert (Ha1 : heads m1 !! a = Some (LH b (List.last l1 head))).
    { rewrite Hf1; done. }
    eapply wp_seq; [by eapply ring_add|].
    intros _ m2 (Hr2' & Hf2 & Hs2). simpl.
    replace (l1 ++ b :: a :: r) with ((l1 ++ [b]) ++ a :: r) in Hr2'
      by by rewrite <- app_assoc.
    wp_step (ring_elem _ _ _ _ _ Hr2').
    replace ((l1 ++ [b]) ++ a :: r) with ((l1 ++ [b; a]) ++ r) in Hr2'
      by by rewrite <- !app_assoc.
    eapply wp_mono; [apply (IH _ _ _ _ Hr2')|].
    + cbn [length] in Hfuel.
      replace (S (S (length r))) with (length r + 1 * 2)%nat in Hfuel by lia.
      rewrite Nat.div_add in Hfuel by done. lia.
    + intros _ m' (Hr' & Hs' & _). split_and!.
      * by rewrite <- app_assoc in Hr'.
      * eauto using same_payloads_trans.
      * simpl. lia.
Qed.

Lemma q_swap_spec m head ps fuel :
  queue m head ps -> (length ps / 2 < fuel)%nat ->
  wp (q_swap fuel head) m (fun _ m' =>
    queue m' head (swap_pairs ps) /\ same_payloads m m' /\
    ((length ps < 2)%nat -> m' = m)).
Proof.
  intros Hq Hfuel. pose proof (queue_ring _ _ _ Hq) as Hr.
  unfold q_swap. rewrite (queue_head_nonnull _ _ _ Hq).
  wp_step (ring_head _ _ _ Hr).
  eapply wp_mono; [by apply (swap_loop_spec fuel m head [] ps)|].
  intros _ m' (Hr' & Hs & Hsame). split_and!; try done.
  eapply queue_relink; try done.
  clear. induction ps as [|a|a b r IH] using pairs_ind; simpl; try done.
  rewrite IH. apply perm_swap.
Qed.

Lemma q_swap_null fuel m : q_swap fuel NULL m = Ok tt m.
Proof. done. Qed.

Lemma swap_pairs_lookup_even {A} (l : list A) i :
  (2 * i + 1 < length l)%nat ->
  swap_pairs l !! (2 * i)%nat = l !! (2 * i + 1)%nat /\
  swap_pairs l !! (2 * i + 1)%nat = l !! (2 * i)%nat.
Proof.
  revert l. induction i as [|i IH]; intros [|a [|b r]] Hlen; simpl in *; try lia.
  - done.
  - replace (i + S (i + 0))%nat with (S (2 * i)) by lia. simpl.
    replace (i + S (i + 0) + 1)%nat with (S (2 * i + 1)) by lia. simpl.
    apply IH. lia.
Qed.

Lemma swap_pairs_length {A} (l : list A) : length (swap_pairs l) = length l.
Proof.
  induction l as [|a|a b r IH] using pairs_ind; simpl; try done.
  by rewrite IH.
Qed.

Lemma swap_pairs_lookup_last {A} (l : list A) :
  Nat.Odd (length l) ->
  swap_pairs l !! (length l - 1)%nat = l !! (length l - 1)%nat.
Proof.
  induction l as [|a|a b r IH] using pairs_ind; simpl; try done.
  intros Hodd.
  assert (Nat.Odd (length r)) as Hr.
  { destruct Hodd as [k Hk]. exists (k - 1)%nat. lia. }
  specialize (IH Hr).
  destruct r as [|c r]; [by destruct Hr as [k Hk]; simpl in Hk; lia|].
  simpl in *. rewrite Nat.sub_0_r in *. done.
Qed.

Lemma swap_pairs_fmap {A B} (f : A -> B) (l : list A) :
  f <$> swap_pairs l = swap_pairs (f <$> l).
Proof.
  induction l as [|a|a b r IH] using pairs_ind; try done.
  cbn [swap_pairs fmap list_fmap]. do 2 f_equal. exact IH.
Qed.

(** ** Reversal *)

Lemma heads_frame_insert c m lk x h :
  x ∈ c -> heads_frame c m (set_heads m lk) ->
  heads_frame c m (set_heads m (<[x := h]> lk)).
Proof.
  intros Hx Hf y Hy. simpl. rewrite lookup_insert_ne; [by apply Hf|].
  intros ->. done.
Qed.

(** The loop has turned the links of [done] around and has yet to visit
    [todo]; [z] is the node before the sentinel. *)
Lemma reverse_loop_spec fuel : forall m0 m head z done todo nxt,
  NoDup (done ++ todo) -> head ∈ done ++ todo ->
  (todo <> [] -> head ∈ done \/ hd head todo = head) ->
  path (heads m) (List.last done z) todo head ->
  path (heads m) (hd head todo) (reverse done) z ->
  (nxt =? head)%N = bool_decide (todo = []) ->
  (length todo < fuel)%nat ->
  heads_frame (done ++ todo) m0 m -> same_payloads m0 m ->
  wp (reverse_loop fuel head (List.last done z) (hd head todo) nxt) m
    (fun _ m' =>
       path (heads m') head (reverse (done ++ todo)) z /\
       heads_frame (done ++ todo) m0 m' /\ same_payloads m0 m').
Proof.
  induction fuel as [|fuel IH];
    intros m0 m head z done todo nxt Hnd Hin Hhd Htodo Hdone Hnxt Hfuel Hf Hs; [lia|].
  cbn [reverse_loop]. rewrite Hnxt.
  destruct todo as [|x t].
  { rewrite bool_decide_eq_true_2 by done. apply wp_ret.
    by rewrite app_nil_r in *. }
  rewrite bool_decide_eq_false_2 by done. cbn [hd] in *.
  assert (Hx : heads m !! x = Some (LH (hd head t) (List.last done z))) by apply Htodo.
  destruct Htodo as [_ Ht].
  apply NoDup_app in Hnd as (Hnd1 & Hnd2 & [Hxt Hnd3]%NoDup_cons).
  assert (Hxd : x ∉ done).
  { intros Hxd. apply (Hnd2 x Hxd). elem_here. }
  wp_step Hx. wp_step Hx.
  apply wp_bind. eapply wp_store_prev; [simpl; apply lookup_insert_eq|]. simpl.
  rewrite insert_insert_eq.
  set (lk' := <[x := _]> (heads m)).
  replace (done ++ x :: t) with ((done ++ [x]) ++ t) in * by by rewrite <- app_assoc.
  replace x with (List.last (done ++ [x]) z) at 1 by apply dlast_snoc.
  eapply (IH m0).
  - rewrite <- app_assoc. apply NoDup_app. split; [done|]. split; [done|].
    by apply NoDup_cons.
  - done.
  - intros Hne. left.
    destruct (Hhd ltac:(done)) as [Hd| ->];
      apply elem_of_app; [by left|right; elem_here].
  - rewrite dlast_snoc. simpl. by apply path_insert.
  - apply path_reverse_snoc. simpl. split; [apply lookup_insert_eq|].
    apply path_insert; [|done]. by rewrite elem_of_reverse.
  - destruct t as [|y t]; cbn [hd].
    + rewrite N.eqb_refl. symmetry. by apply bool_decide_eq_true_2.
    + transitivity false; [|symmetry; by apply bool_decide_eq_false_2].
      apply N.eqb_neq. intros ->.
      destruct (Hhd ltac:(done)) as [Hd| ->].
      * apply (Hnd2 head Hd). apply list_elem_of_further. elem_here.
      * apply Hxt. elem_here.
  - simpl in Hfuel. lia.
  - apply (heads_frame_insert _ m0 (heads m)).
    + rewrite <- app_assoc. apply elem_of_app. right. elem_here.
    + intros y Hy. simpl. by apply Hf.
  - done.
Qed.

Lemma q_reverse_spec m head ps fuel :
  queue m head ps -> (S (length ps) < fuel)%nat ->
  wp (q_reverse fuel head) m (fun _ m' =>
    queue m' head (reverse ps) /\ same_payloads m m' /\
    heads_frame (head :: ps) m m').
Proof.
  intros Hq Hfuel. pose proof (queue_ring _ _ _ Hq) as Hr.
  unfold q_reverse. rewrite (queue_head_nonnull _ _ _ Hq).
  apply wp_bind, (list_empty_ring _ _ ps _ Hr).
  destruct ps as [|x ps].
  { rewrite bool_decide_eq_true_2 by done. by apply wp_ret. }
  rewrite bool_decide_eq_false_2 by done.
  wp_step (ring_head _ _ _ Hr).
  set (z := List.last (x :: ps) head).
  pose proof Hr as [Hnd Hp]%ring_path.
  eapply wp_mono.
  { apply (reverse_loop_spec fuel m m head z [] (head :: x :: ps) NULL);
      try done.
    - elem_here.
    - intros _. by right.
    - transitivity false; [|symmetry; by apply bool_decide_eq_false_2].
      apply N.eqb_neq. intros Heq. apply (queue_nonnull _ _ _ Hq).
      rewrite Heq. elem_here. }
  intros _ m' (Hp' & Hf & Hs). simpl in Hp', Hf. split_and!; try done.
  eapply queue_relink; [done| |by rewrite reverse_Permutation|done].
  apply ring_cycle. rewrite reverse_cons in Hp'.
  apply (cycle_rotate _ (reverse (x :: ps)) [head]). split.
  - rewrite <- reverse_cons. by rewrite reverse_Permutation.
  - rewrite dlast_snoc, hd_app.
    replace (hd (hd NULL [head]) (reverse (x :: ps))) with z; [done|].
    unfold z. rewrite hd_reverse. rewrite !dlast_cons. done.
Qed.

Lemma q_reverse_null fuel m : q_reverse fuel NULL m = Ok tt m.
Proof. done. Qed.

Lemma q_reverse_empty fuel m head :
  queue m head [] -> q_reverse fuel head m = Ok tt m.
Proof.
  intros Hq. unfold q_reverse. rewrite (queue_head_nonnull _ _ _ Hq).
  destruct (list_empty_ring m head [] (fun b m' => b = true /\ m' = m)
              (queue_ring _ _ _ Hq)) as (b & m' & Hrun & -> & ->); [done|].
  unfold bind. by rewrite Hrun.
Qed.

(** Two memories that hold the same ring and agree elsewhere are equal. *)
Lemma ring_heads_eq m m' head ps :
  ring (heads m) head ps -> ring (heads m') head ps ->
  heads_frame (head :: ps) m m' -> heads m' = heads m.
Proof.
  intros Hr Hr' Hf. apply map_eq. intros x.
  destruct (decide (x ∈ head :: ps)) as [Hx|Hx]; [|by apply Hf].
  apply list_elem_of_split in Hx as (l1 & l2 & Hc).
  destruct l1 as [|h l1]; simpl in Hc; injection Hc as -> ->.
  - by rewrite (ring_head _ _ _ Hr), (ring_head _ _ _ Hr').
  - by rewrite (ring_elem _ _ _ _ _ Hr), (ring_elem _ _ _ _ _ Hr').
Qed.

Lemma q_reverse_twice m head ps fuel :
  queue m head ps -> (S (length ps) < fuel)%nat ->
  wp (q_reverse fuel head ;;; q_reverse fuel head) m (fun _ m' => m' = m).
Proof.
  intros Hq Hfuel. eapply wp_seq; [by apply q_reverse_spec|].
  intros _ m1 (Hq1 & Hs1 & Hf1). simpl.
  eapply wp_mono; [apply q_reverse_spec; [done|by rewrite length_reverse]|].
  intros _ m2 (Hq2 & Hs2 & Hf2). simpl in *.
  rewrite reverse_involutive in Hq2.
  assert (Hh : heads m2 = heads m).
  { eapply ring_heads_eq; [by apply queue_ring..|].
    eapply heads_frame_trans; [done|].
    eapply heads_frame_mono; [|done].
    intros y Hy. apply elem_of_cons in Hy as [->|Hy]; [elem_here|].
    apply list_elem_of_further. by apply elem_of_reverse. }
  destruct Hs1 as [Hv1 Hc1], Hs2 as [Hv2 Hc2].
  destruct m, m2; simpl in *. congruence.
Qed.

(** ** [strcmp] is a total preorder *)

Lemma byte_of_range c : (0 <= byte_of c < 256)%Z.
Proof.
  unfold byte_of. pose proof (N_ascii_bounded c). lia.
Qed.

Lemma byte_of_inj c1 c2 : byte_of c1 = byte_of c2 -> c1 = c2.
Proof.
  unfold byte_of. intros H%N2Z.inj.
  rewrite <- (ascii_N_embedding c1), <- (ascii_N_embedding c2). by rewrite H.
Qed.

Lemma byte_of_zero c : byte_of c = 0%Z <-> c = Ascii.zero.
Proof.
  split; [|by intros ->]. intros H. apply byte_of_inj. by rewrite H.
Qed.

(** Facts about the bytes in sight, for [lia]. *)
Ltac bytes :=
  repeat match goal with
  | H : ?c1 <> ?c2 |- _ =>
      lazymatch type of c1 with
      | ascii =>
          assert (byte_of c1 <> byte_of c2) by (intros ?%byte_of_inj; done);
          clear H
      end
  end;
  repeat match goal with
  | |- context [byte_of ?c] =>
      lazymatch goal with
      | _ : (0 <= byte_of c < 256)%Z |- _ => fail
      | _ => pose proof (byte_of_range c)
      end
  | _ : context [byte_of ?c] |- _ =>
      lazymatch goal with
      | _ : (0 <= byte_of c < 256)%Z |- _ => fail
      | _ => pose proof (byte_of_range c)
      end
  end;
  change (byte_of Ascii.zero) with 0%Z in *.

Lemma strcmp_refl s : strcmp s s = 0%Z.
Proof.
  induction s as [|c s IH]; simpl; [done|].
  rewrite decide_True by done. by destruct (decide (c = Ascii.zero)).
Qed.

Lemma strcmp_antisym a b : strcmp b a = (- strcmp a b)%Z.
Proof.
  revert b. induction a as [|c1 a IH]; intros [|c2 b]; simpl;
    repeat case_decide; subst; try done; try lia.
Qed.

Lemma strcmp_le_trans a b c :
  (strcmp a b <= 0)%Z -> (strcmp b c <= 0)%Z -> (strcmp a c <= 0)%Z.
Proof.
  revert b c. induction a as [|c1 a IH]; intros [|c2 b] [|c3 c]; simpl;
    repeat case_decide; subst; try done; intros; bytes; try lia; eauto.
Qed.

Lemma strcmp_eq_trans a b c :
  strcmp a b = 0%Z -> strcmp b c = 0%Z -> strcmp a c = 0%Z.
Proof.
  intros H1 H2.
  assert (strcmp a c <= 0)%Z by (apply (strcmp_le_trans a b c); lia).
  assert (Hca : (strcmp c a <= 0)%Z).
  { apply (strcmp_le_trans c b a).
    - rewrite (strcmp_antisym b c). lia.
    - rewrite (strcmp_antisym a b). lia. }
  rewrite (strcmp_antisym a c) in Hca. lia.
Qed.

Lemma strcmp_eq_sym a b : strcmp a b = 0%Z -> strcmp b a = 0%Z.
Proof. rewrite (strcmp_antisym a b). lia. Qed.

Lemma strcmp_total a b : (strcmp a b <= 0)%Z \/ (strcmp b a <= 0)%Z.
Proof. rewrite (strcmp_antisym a b). lia. Qed.

(** Two strings compare equal exactly when their bytes are the same. *)
Lemma strcmp_eq_cstr a b : strcmp a b = 0%Z <-> cstr a = cstr b.
Proof.
  revert b. induction a as [|c1 a IH]; intros [|c2 b]; simpl;
    repeat case_decide; subst; try done; bytes;
    try (split; [lia|done]).
  - rewrite IH. split; [by intros ->|by intros [= ?]].
  - split; [lia|]. intros [= -> ?]. done.
Qed.

Lemma str_eqb_refl a : str_eqb a a = true.
Proof. unfold str_eqb. by rewrite strcmp_refl. Qed.

Lemma str_eqb_sym a b : str_eqb a b = str_eqb b a.
Proof. unfold str_eqb. rewrite (strcmp_antisym b a). destruct (strcmp b a); done. Qed.

Lemma str_eqb_trans a b c :
  str_eqb a b = true -> str_eqb b c = true -> str_eqb a c = true.
Proof.
  unfold str_eqb. rewrite !Z.eqb_eq. apply strcmp_eq_trans.
Qed.

Lemma str_eqb_cong a b c : str_eqb a b = true -> str_eqb a c = str_eqb b c.
Proof.
  intros Hab. destruct (str_eqb b c) eqn:Hbc.
  - by apply (str_eqb_trans a b c).
  - destruct (str_eqb a c) eqn:Hac; [|done].
    rewrite <- Hbc. symmetry. apply (str_eqb_trans b a c); [|done].
    by rewrite str_eqb_sym.
Qed.

(** ** Runs of equal elements *)

Section Runs.
Context {A : Type} (eqb : A -> A -> bool).
Hypothesis eqb_refl : forall a, eqb a a = true.
Hypothesis eqb_sym : forall a b, eqb a b = eqb b a.
Hypothesis eqb_trans : forall a b c,
  eqb a b = true -> eqb b c = true -> eqb a c = true.

Lemma eqb_cong a b c : eqb a b = true -> eqb a c = eqb b c.
Proof.
  intros Hab. destruct (eqb b c) eqn:Hbc; [by apply (eqb_trans a b c)|].
  destruct (eqb a c) eqn:Hac; [|done].
  rewrite <- Hbc. symmetry. apply (eqb_trans b a c); [|done].
  by rewrite eqb_sym.
Qed.

Lemma isolated_starts_off p l :
  starts_off eqb p l -> isolated eqb (Some p) l = isolated eqb None l.
Proof. destruct l as [|y l]; [done|]. simpl. by intros ->. Qed.

Lemma isolated_equal p q l :
  eqb p q = true -> isolated eqb (Some p) l = isolated eqb (Some q) l.
Proof.
  intros Hpq. destruct l as [|y l]; [done|]. simpl.
  by rewrite (eqb_cong p q y).
Qed.

(** A run of elements equal to the one before it disappears. *)
Lemma isolated_run x run rest :
  Forall (fun y => eqb x y = true) run -> starts_off eqb x rest ->
  isolated eqb (Some x) (run ++ rest) = isolated eqb None rest.
Proof.
  revert x. induction run as [|y run IH]; intros x Hrun Hrest.
  - by apply isolated_starts_off.
  - apply Forall_cons in Hrun as [Hxy Hrun].
    change (isolated eqb (Some x) (y :: (run ++ rest))
            = isolated eqb None rest).
    cbn [isolated]. rewrite Hxy. cbn [orb]. apply IH.
    + eapply Forall_impl; [done|]. intros z Hxz. simpl in Hxz.
      by rewrite <- (eqb_cong x y z).
    + destruct rest as [|z rest]; [done|]. simpl in *.
      by rewrite <- (eqb_cong x y z).
Qed.

(** What one round of the outer loop of [q_delete_dup] does to the
    remaining list. *)
Lemma isolated_round pv x run rest :
  match pv with Some p => eqb p x = false | None => True end ->
  Forall (fun y => eqb x y = true) run -> starts_off eqb x rest ->
  isolated eqb pv (x :: run ++ rest)
  = match run with
    | [] => x :: isolated eqb None rest
    | _ :: _ => isolated eqb None rest
    end.
Proof.
  intros Hpv Hrun Hrest. cbn [isolated].
  replace (match pv with Some p => eqb p x | None => false end) with false
    by (destruct pv; done).
  cbn [orb]. destruct run as [|y run].
  - simpl. destruct rest as [|z rest]; [done|]. simpl in Hrest.
    rewrite Hrest. f_equal. by apply isolated_starts_off.
  - rewrite <- app_comm_cons.
    pose proof Hrun as [Hxy _]%Forall_cons. rewrite Hxy.
    by apply (isolated_run x (y :: run) rest).
Qed.

Lemma isolated_sublist pv l : isolated eqb pv l `sublist_of` l.
Proof.
  revert pv. induction l as [|x l IH]; intros pv; simpl; [done|].
  destruct (_ || _); [apply sublist_cons|apply sublist_skip]; apply IH.
Qed.

(** In a list in ascending order, the elements that differ from their
    neighbours are those that occur once. *)
Variable le : A -> A -> Prop.
Hypothesis le_trans : forall a b c, le a b -> le b c -> le a c.
Hypothesis eqb_le : forall a b, eqb a b = true <-> le a b /\ le b a.

Lemma occurrences_app x l1 l2 :
  occurrences eqb x (l1 ++ l2) = (occurrences eqb x l1 + occurrences eqb x l2)%nat.
Proof. unfold occurrences. by rewrite filter_app, length_app. Qed.

Lemma occurrences_cons x y l :
  occurrences eqb x (y :: l)
  = ((if eqb x y then 1 else 0) + occurrences eqb x l)%nat.
Proof.
  unfold occurrences. rewrite filter_cons.
  case_decide as H; [by rewrite H|].
  by destruct (eqb x y).
Qed.

Lemma occurrences_zero x l :
  Forall (fun y => eqb x y = false) l -> occurrences eqb x l = 0%nat.
Proof.
  induction 1 as [|y l Hy _ IH]; [done|].
  by rewrite occurrences_cons, Hy, IH.
Qed.

Lemma occurrences_pos x y l :
  y ∈ l -> eqb x y = true -> (0 < occurrences eqb x l)%nat.
Proof.
  induction 1 as [y l|y z l _ IH]; intros Hxy; rewrite occurrences_cons.
  - rewrite Hxy. lia.
  - specialize (IH Hxy). lia.
Qed.

(** Nothing after [x] equals [x] when the next element does not. *)
Lemma sorted_after x l :
  StronglySorted le (x :: l) -> starts_off eqb x l ->
  Forall (fun y => eqb x y = false) l.
Proof.
  intros Hs Hoff. destruct l as [|y l]; [done|]. simpl in Hoff.
  apply StronglySorted_inv in Hs as [Hs Hx].
  apply StronglySorted_inv in Hs as [_ Hy].
  apply Forall_cons in Hx as [Hxy Hx].
  apply Forall_cons. split; [done|].
  apply Forall_forall. intros z Hz.
  destruct (eqb x z) eqn:Hxz; [|done].
  apply eqb_le in Hxz as [_ Hzx].
  rewrite Forall_forall in Hy. specialize (Hy z Hz).
  assert (eqb x y = true); [|congruence].
  apply eqb_le. split; [done|]. by apply (le_trans y z x).
Qed.

(** Nothing before [x] equals [x] when the previous element does not. *)
Lemma sorted_before pre p x l :
  StronglySorted le (pre ++ p :: x :: l) -> eqb p x = false ->
  Forall (fun y => eqb x y = false) (pre ++ [p]).
Proof.
  intros Hs Hpx. apply Forall_forall. intros z Hz.
  destruct (eqb x z) eqn:Hxz; [|done]. exfalso.
  apply eqb_le in Hxz as [Hxz _].
  replace (pre ++ p :: x :: l) with ((pre ++ [p]) ++ x :: l) in Hs
    by by rewrite <- app_assoc.
  assert (Hpx' : le p x).
  { apply (StronglySorted_app_1_elem_of _ _ _ _ _ Hs).
    - apply elem_of_app. right. apply list_elem_of_here.
    - apply list_elem_of_here. }
  assert (Hzp : le z p).
  { apply elem_of_app in Hz as [Hz|Hz%list_elem_of_singleton].
    - apply StronglySorted_app_1_l in Hs.
      apply (StronglySorted_app_1_elem_of _ _ _ _ _ Hs); [done|].
      apply list_elem_of_here.
    - subst z. apply eqb_le. apply eqb_refl. }
  assert (eqb p x = true); [|congruence].
  apply eqb_le. split; [done|]. by apply (le_trans x z p).
Qed.

Lemma isolated_sorted pre l :
  StronglySorted le (pre ++ l) ->
  isolated eqb (last pre) l
  = filter (fun x => occurrences eqb x (pre ++ l) = 1%nat) l.
Proof.
  revert pre. induction l as [|x l IH]; intros pre Hs; [done|].
  cbn [isolated]. rewrite filter_cons.
  specialize (IH (pre ++ [x])). rewrite last_snoc, <- app_assoc in IH.
  specialize (IH Hs). simpl in IH. rewrite IH. clear IH.
  rewrite occurrences_app, occurrences_cons, eqb_refl.
  set (same_prev := match last pre with Some p => eqb p x | None => false end).
  set (same_next := match l with y :: _ => eqb x y | [] => false end).
  assert (Hprev : same_prev = false -> occurrences eqb x pre = 0%nat).
  { unfold same_prev. destruct pre as [|p pre _] using rev_ind; [done|].
    rewrite last_snoc. intros Hpx. apply occurrences_zero.
    rewrite <- app_assoc in Hs. by apply (sorted_before pre p x l). }
  assert (Hprev' : same_prev = true -> (0 < occurrences eqb x pre)%nat).
  { unfold same_prev. destruct pre as [|p pre _] using rev_ind; [done|].
    rewrite last_snoc. intros Hpx. apply (occurrences_pos x p).
    - apply elem_of_app. right. apply list_elem_of_here.
    - by rewrite eqb_sym. }
  assert (Hnext : same_next = false -> occurrences eqb x l = 0%nat).
  { unfold same_next. intros Hoff. apply occurrences_zero.
    apply sorted_after; [by apply StronglySorted_app_1_r in Hs|].
    by destruct l. }
  assert (Hnext' : same_next = true -> (0 < occurrences eqb x l)%nat).
  { unfold same_next. destruct l as [|y l]; [done|]. intros Hxy.
    apply (occurrences_pos x y); [apply list_elem_of_here|done]. }
  destruct same_prev, same_next; simpl.
  - rewrite decide_False; [done|]. specialize (Hprev' eq_refl). lia.
  - rewrite decide_False; [done|]. specialize (Hprev' eq_refl). lia.
  - rewrite decide_False; [done|]. specialize (Hnext' eq_refl). lia.
  - rewrite decide_True; [done|]. rewrite Hprev, Hnext by done. done.
Qed.
End Runs.

(** ** Deleting duplicates *)

Lemma same_payload_refl m a : same_payload m a a = true.
Proof. apply str_eqb_refl. Qed.

Lemma same_payload_sym m a b : same_payload m a b = same_payload m b a.
Proof. apply str_eqb_sym. Qed.

Lemma same_payload_trans m a b c :
  same_payload m a b = true -> same_payload m b c = true ->
  same_payload m a c = true.
Proof. apply str_eqb_trans. Qed.

Lemma same_payload_ext m m' a b :
  payload m' a = payload m a -> payload m' b = payload m b ->
  same_payload m' a b = same_payload m a b.
Proof. unfold same_payload. by intros -> ->. Qed.

Lemma isolated_ext {A} (eqb eqb' : A -> A -> bool) pv l :
  (forall a b, a ∈ l -> b ∈ l -> eqb a b = eqb' a b) ->
  (forall p b, pv = Some p -> b ∈ l -> eqb p b = eqb' p b) ->
  isolated eqb pv l = isolated eqb' pv l.
Proof.
  revert pv. induction l as [|x l IH]; intros pv Hl Hpv; [done|].
  cbn [isolated].
  assert (Hprev : match pv with Some p => eqb p x | None => false end
                  = match pv with Some p => eqb' p x | None => false end).
  { destruct pv as [p|]; [|done]. apply Hpv; [done|apply list_elem_of_here]. }
  assert (Hnext : match l with y :: _ => eqb x y | [] => false end
                  = match l with y :: _ => eqb' x y | [] => false end).
  { destruct l as [|y l]; [done|].
    apply Hl; [apply list_elem_of_here|apply list_elem_of_further, list_elem_of_here]. }
  rewrite Hprev, Hnext.
  rewrite (IH (Some x)).
  - done.
  - intros a b Ha Hb. apply Hl; by apply list_elem_of_further.
  - intros p b [= <-] Hb. apply Hl; [apply list_elem_of_here|by apply list_elem_of_further].
Qed.

Lemma isolated_fmap {A B} (f : A -> B) (eqb : B -> B -> bool) pv l :
  f <$> isolated (fun a b => eqb (f a) (f b)) pv l
  = isolated eqb (f <$> pv) (f <$> l).
Proof.
  revert pv. induction l as [|x l IH]; intros pv; [done|].
  cbn [isolated fmap list_fmap].
  replace (match f <$> pv with Some p => eqb p (f x) | None => false end)
    with (match pv with Some p => eqb (f p) (f x) | None => false end)
    by by destruct pv.
  replace (match f <$> l with y :: _ => eqb (f x) y | [] => false end)
    with (match l with y :: _ => eqb (f x) (f y) | [] => false end)
    by by destruct l.
  specialize (IH (Some x)). simpl in IH.
  destruct (_ || _); [|rewrite fmap_cons; f_equal]; exact IH.
Qed.

Lemma wp_element_payload {A} m e (k : string -> M A) Q :
  element m e ->
  wp (k (payload m e)) m Q ->
  wp (let* v := load_value (list_entry e) in let* s := load_chars v in k s) m Q.
Proof.
  intros (v & s & Hv & _ & Hs & _ & <-)%element_value Hk.
  unfold list_entry. wp_step Hv. wp_step Hs. done.
Qed.

Lemma queue_element m head ps x : queue m head ps -> x ∈ ps -> element m x.
Proof. intros [_ _ He _] Hx. rewrite Forall_forall in He. auto. Qed.

Lemma queue_hd_empty m head l1 rest :
  queue m head (l1 ++ rest) ->
  (hd head rest =? head)%N = bool_decide (rest = []).
Proof.
  intros Hq. destruct rest as [|x r]; cbn [hd].
  - rewrite N.eqb_refl. symmetry. by apply bool_decide_eq_true_2.
  - rewrite (ring_hd_not_head _ _ _ _ _ (queue_ring _ _ _ Hq)).
    symmetry. by apply bool_decide_eq_false_2.
Qed.

(** The inner loop deletes the elements after [start] that hold the payload
    of [start], and says through [prv] whether there was one. *)
Lemma dup_inner_spec fuel : forall m head l1 start rest prv,
  queue m head (l1 ++ start :: rest) -> (length rest < fuel)%nat ->
  wp (dup_inner fuel head start start (hd head rest) (hd head rest) prv) m
    (fun r m' => exists run rest',
       rest = run ++ rest' /\
       Forall (fun y => same_payload m start y = true) run /\
       starts_off (same_payload m) start rest' /\
       r = (hd head rest', match run with [] => prv | _ :: _ => start end) /\
       queue m' head (l1 ++ start :: rest') /\
       (forall p, p ∈ l1 ++ start :: rest' -> payload m' p = payload m p)).
Proof.
  induction fuel as [|fuel IH]; intros m head l1 start rest prv Hq Hfuel; [lia|].
  cbn [dup_inner].
  replace (l1 ++ start :: rest) with ((l1 ++ [start]) ++ rest) in Hq
    by by rewrite <- app_assoc.
  rewrite (queue_hd_empty _ _ _ _ Hq).
  destruct rest as [|y r].
  { rewrite bool_decide_eq_true_2 by done. apply wp_ret.
    exists [], []. rewrite <- app_assoc in Hq. split_and!; try done. }
  rewrite bool_decide_eq_false_2 by done. cbn [hd].
  assert (Hes : element m start).
  { apply (queue_element _ _ _ _ Hq). apply elem_of_app. left.
    apply elem_of_app. right. elem_here. }
  assert (Hey : element m y).
  { apply (queue_element _ _ _ _ Hq). apply elem_of_app. right. elem_here. }
  apply (wp_element_payload m start); [done|].
  apply (wp_element_payload m y); [done|].
  fold (str_eqb (payload m start) (payload m y)).
  fold (same_payload m start y).
  destruct (same_payload m start y) eqn:Hsy.
  - wp_step (ring_elem _ _ _ _ _ (queue_ring _ _ _ Hq)).
    unfold list_entry.
    eapply queue_delete; [exact Hq|].
    intros m1 Hq1 Hpay _ _ _.
    rewrite <- app_assoc in Hq1. simpl in Hq1.
    eapply wp_mono; [apply (IH m1 head l1 start r start Hq1); simpl in Hfuel; lia|].
    intros [e p] m' (run & rest' & -> & Hrun & Hoff & Hr & Hq' & Hpay').
    assert (Hin : forall p, p ∈ start :: run ++ rest' ->
              p ∈ (l1 ++ [start]) ++ run ++ rest').
    { intros q Hq0. rewrite <- app_assoc. apply elem_of_app. by right. }
    assert (Hp1 : forall p, p ∈ start :: run ++ rest' ->
              payload m1 p = payload m p).
    { intros q Hq0. by apply Hpay, Hin. }
    exists (y :: run), rest'. split_and!.
    + done.
    + apply Forall_cons. split; [done|].
      apply Forall_forall. intros z Hz. rewrite Forall_forall in Hrun.
      rewrite <- (Hrun z Hz). symmetry.
      apply same_payload_ext; apply Hp1.
      * elem_here.
      * apply list_elem_of_further, elem_of_app. by left.
    + destruct rest' as [|z rest']; [done|]. simpl in *.
      rewrite <- Hoff. symmetry.
      apply same_payload_ext; apply Hp1.
      * elem_here.
      * apply list_elem_of_further, elem_of_app. right. elem_here.
    + injection Hr as -> ->. f_equal. by destruct run.
    + done.
    + intros q Hq0. rewrite Hpay' by done. apply Hpay.
      rewrite <- app_assoc. simpl.
      apply elem_of_app in Hq0 as [Hq0|Hq0]; apply elem_of_app; [by left|right].
      apply elem_of_cons in Hq0 as [->|Hq0]; [elem_here|].
      apply list_elem_of_further, elem_of_app. by right.
  - apply wp_ret. exists [], (y :: r).
    rewrite <- app_assoc in Hq. split_and!; try done.
Qed.

(** The outer loop, with [rest] still to scan after the kept [l1]. *)
Lemma dup_outer_spec fuel : forall m head l1 rest end_,
  queue m head (l1 ++ rest) ->
  (end_ =? head)%N = bool_decide (rest = []) ->
  (length rest < fuel)%nat ->
  wp (dup_outer fuel head (hd head rest) end_ NULL) m (fun _ m' =>
    queue m' head (l1 ++ isolated (same_payload m) None rest) /\
    (forall p, p ∈ l1 ++ isolated (same_payload m) None rest ->
       payload m' p = payload m p)).
Proof.
  induction fuel as [|fuel IH]; intros m head l1 rest end_ Hq Hend Hfuel; [lia|].
  match goal with |- wp _ _ ?Q => set (post := Q) end.
  cbn [dup_outer]. rewrite Hend.
  destruct rest as [|x r].
  { rewrite bool_decide_eq_true_2 by done. by apply wp_ret. }
  rewrite bool_decide_eq_false_2 by done. cbn [hd].
  wp_step (ring_elem _ _ _ _ _ (queue_ring _ _ _ Hq)).
  unfold list_entry.
  eapply wp_seq; [apply (dup_inner_spec fuel m head l1 x r NULL Hq); simpl in Hfuel; lia|].
  intros [e p] m1 (run & rest' & -> & Hrun & Hoff & [= -> ->] & Hq1 & Hpay1).
  cbn beta iota.
  assert (Hround : isolated (same_payload m) None (x :: run ++ rest')
                   = match run with
                     | [] => x :: isolated (same_payload m) None rest'
                     | _ :: _ => isolated (same_payload m) None rest'
                     end).
  { apply isolated_round; try done.
    - apply same_payload_sym.
    - apply same_payload_trans. }
  assert (Hlen : (length rest' < fuel)%nat).
  { simpl in Hfuel. rewrite length_app in Hfuel. lia. }
  assert (Hsub : forall q, q ∈ isolated (same_payload m) None rest' -> q ∈ rest').
  { intros q Hq0. eapply elem_of_sublist; [done|apply isolated_sublist]. }
  destruct run as [|y run].
  - (* no duplicate of [x]: it stays *)
    rewrite N.eqb_refl. apply wp_bind, wp_ret.
    replace (l1 ++ x :: rest') with ((l1 ++ [x]) ++ rest') in Hq1, Hpay1
      by by rewrite <- app_assoc.
    eapply wp_mono.
    { apply (IH m1 head (l1 ++ [x]) rest' (hd head rest') Hq1); [|done].
      exact (queue_hd_empty m1 head (l1 ++ [x]) rest' Hq1). }
    intros [] m' (Hq' & Hpay').
    assert (Hiso : isolated (same_payload m1) None rest'
                   = isolated (same_payload m) None rest').
    { apply isolated_ext; [|done]. intros a b Ha Hb.
      apply same_payload_ext; apply Hpay1; apply elem_of_app; by right. }
    rewrite Hiso in Hq', Hpay'. rewrite <- app_assoc in Hq', Hpay'.
    unfold post. cbn [app] in Hround |- *. rewrite Hround.
    split; [done|]. intros q Hq0. rewrite Hpay' by done. apply Hpay1.
    rewrite <- app_assoc.
    apply elem_of_app in Hq0 as [Hq0|Hq0]; apply elem_of_app; [by left|right].
    apply elem_of_cons in Hq0 as [->|Hq0]; [elem_here|].
    apply list_elem_of_further. by apply Hsub.
  - (* [x] had duplicates: it goes too *)
    assert (Hx : (x =? NULL)%N = false).
    { apply N.eqb_neq. intros ->. apply (queue_nonnull _ _ _ Hq1).
      apply list_elem_of_further, elem_of_app. right. elem_here. }
    rewrite Hx. apply wp_bind.
    eapply wp_mono.
    { apply (queue_delete m1 head l1 x rest' (ret NULL)
               (fun r m2 => r = NULL /\ queue m2 head (l1 ++ rest') /\
                  forall p, p ∈ l1 ++ rest' -> payload m2 p = payload m1 p) Hq1).
      intros m2 Hq2 Hpay2 _ _ _. by apply wp_ret. }
    intros ? m2 (-> & Hq2 & Hpay2).
    assert (Hp2 : forall p, p ∈ l1 ++ rest' -> payload m2 p = payload m p).
    { intros q Hq0. rewrite Hpay2 by done. apply Hpay1.
      apply elem_of_app in Hq0 as [Hq0|Hq0]; apply elem_of_app; [by left|right].
      by apply list_elem_of_further. }
    eapply wp_mono.
    { apply (IH m2 head l1 rest' (hd head rest') Hq2); [|done].
      exact (queue_hd_empty m2 head l1 rest' Hq2). }
    intros [] m' (Hq' & Hpay').
    assert (Hiso : isolated (same_payload m2) None rest'
                   = isolated (same_payload m) None rest').
    { apply isolated_ext; [|done]. intros a b Ha Hb.
      apply same_payload_ext; apply Hp2; apply elem_of_app; by right. }
    rewrite Hiso in Hq', Hpay'.
    unfold post. cbn [app] in Hround |- *. rewrite Hround.
    split; [done|]. intros q Hq0. rewrite Hpay' by done. apply Hp2.
    apply elem_of_app in Hq0 as [Hq0|Hq0]; apply elem_of_app; [by left|right].
    by apply Hsub.
Qed.

Lemma q_delete_dup_spec m head ps fuel :
  queue m head ps -> (length ps < fuel)%nat ->
  wp (q_delete_dup fuel head) m (fun r m' =>
    r = true /\
    queue m' head (isolated (same_payload m) None ps) /\
    (forall p, p ∈ isolated (same_payload m) None ps ->
       payload m' p = payload m p) /\
    (ps = [] -> m' = m)).
Proof.
  intros Hq Hfuel. pose proof (queue_ring _ _ _ Hq) as Hr.
  unfold q_delete_dup. rewrite (queue_head_nonnull _ _ _ Hq).
  apply wp_bind, (list_empty_ring _ _ ps _ Hr).
  destruct ps as [|x ps].
  { rewrite bool_decide_eq_true_2 by done. by apply wp_ret. }
  rewrite bool_decide_eq_false_2 by done.
  wp_step (ring_head _ _ _ Hr).
  apply wp_bind. eapply wp_mono.
  { apply (dup_outer_spec fuel m head [] (x :: ps) NULL Hq); [|done].
    transitivity false; [|symmetry; by apply bool_decide_eq_false_2].
    apply N.eqb_neq. intros Heq. apply (queue_nonnull _ _ _ Hq).
    rewrite Heq. elem_here. }
  intros _ m' (Hq' & Hpay'). apply wp_ret. done.
Qed.

Lemma q_delete_dup_null fuel m : q_delete_dup fuel NULL m = Ok false m.
Proof. done. Qed.

(** Ascending payloads, as a strongly sorted list of elements. *)
Global Instance payload_le_trans m : Transitive (payload_le m).
Proof. intros a b c. unfold payload_le, str_le. apply strcmp_le_trans. Qed.

Lemma ascending_tail x l : ascending (x :: l) -> ascending l.
Proof. intros H i a b Ha Hb. apply (H (S i)); done. Qed.

Lemma ascending_sorted m ps :
  ascending (contents m ps) -> StronglySorted (payload_le m) ps.
Proof.
  intros H. apply Sorted_StronglySorted; [apply _|].
  induction ps as [|x ps IH]; [constructor|].
  constructor.
  - apply IH. by apply (ascending_tail (payload m x)).
  - destruct ps as [|y ps]; constructor. apply (H 0%nat); done.
Qed.

Lemma sorted_ascending m ps :
  Sorted (payload_le m) ps -> ascending (contents m ps).
Proof.
  induction 1 as [|x ps Hs IH Hhd]; intros i a b Ha Hb; [done|].
  destruct i as [|i].
  - destruct Hhd as [|y ps Hxy]; [done|]. simpl in Ha, Hb.
    injection Ha as <-. injection Hb as <-. done.
  - by apply (IH i).
Qed.

Lemma same_payload_le m a b :
  same_payload m a b = true <-> payload_le m a b /\ payload_le m b a.
Proof.
  unfold same_payload, payload_le, str_eqb, str_le. rewrite Z.eqb_eq.
  rewrite (strcmp_antisym (payload m a) (payload m b)). lia.
Qed.

Lemma occurrences_fmap {A B} (f : A -> B) (eqb : B -> B -> bool) x l :
  occurrences (fun a b => eqb (f a) (f b)) x l = occurrences eqb (f x) (f <$> l).
Proof.
  unfold occurrences. induction l as [|y l IH]; [done|].
  rewrite fmap_cons, !filter_cons.
  destruct (decide (eqb (f x) (f y) = true)); simpl; by rewrite IH.
Qed.

(** On ascending payloads, what [q_delete_dup] keeps are the elements whose
    payload occurs once. *)
Lemma isolated_once m ps :
  ascending (contents m ps) ->
  isolated (same_payload m) None ps
  = filter (fun p => occurrences str_eqb (payload m p) (contents m ps) = 1%nat) ps.
Proof.
  intros Hs%ascending_sorted.
  pose proof (isolated_sorted (same_payload m) (same_payload_refl m)
                (same_payload_sym m) (payload_le m)
                (payload_le_trans m) (same_payload_le m) [] ps Hs) as Hiso.
  simpl in Hiso. rewrite Hiso.
  apply list_filter_iff. intros p. simpl.
  by rewrite (occurrences_fmap (payload m) str_eqb).
Qed.

(** ** Counting *)

Lemma q_size_loop_spec m head ps fuel i :
  ring (heads m) head ps -> (Z.of_nat (length ps) <= INT_MAX)%Z ->
  (i <= length ps)%nat -> (length ps - i < fuel)%nat ->
  q_size_loop fuel head (nth i ps head) (Z.of_nat i) m
  = Ok (Z.of_nat (length ps)) m.
Proof.
  intros Hr Hmax. revert i. induction fuel as [|fuel IH]; intros i Hi Hfuel; [lia|].
  cbn [q_size_loop].
  destruct (N.eqb_spec (nth i ps head) head) as [Heq|Hne].
  { apply (ring_nth_head _ _ _ _ Hr) in Heq.
    by replace i with (length ps) by lia. }
  rewrite (ring_nth_head _ _ _ _ Hr) in Hne.
  destruct (Z.eqb_spec (Z.of_nat i) INT_MAX) as [|_]; [lia|].
  unfold bind, load_next. rewrite (ring_nth _ _ _ _ Hr) by lia. cbn [next].
  replace (Z.of_nat i + 1)%Z with (Z.of_nat (S i)) by lia.
  apply IH; lia.
Qed.

Lemma q_size_spec m head ps fuel :
  queue m head ps -> (Z.of_nat (length ps) <= INT_MAX)%Z ->
  (length ps < fuel)%nat ->
  q_size fuel head m = Ok (Z.of_nat (length ps)) m.
Proof.
  intros Hq Hmax Hfuel. pose proof (queue_ring _ _ _ Hq) as Hr.
  unfold q_size. rewrite (queue_head_nonnull _ _ _ Hq).
  destruct (list_empty_ring m head ps (fun b m' => b = bool_decide (ps = []) /\ m' = m) Hr)
    as (b & m' & Hrun & -> & ->); [done|].
  unfold bind at 1. rewrite Hrun.
  destruct ps as [|x ps]; [done|].
  rewrite bool_decide_eq_false_2 by done.
  unfold bind, load_next. rewrite (ring_head _ _ _ Hr). cbn [next hd].
  apply (q_size_loop_spec m head (x :: ps) fuel 0 Hr Hmax); lia.
Qed.

Lemma q_size_null fuel m : q_size fuel NULL m = Ok 0%Z m.
Proof. done. Qed.

(** ** Merging sorted lists *)

Section Merge.
Context {A : Type} (leb : A -> A -> bool) (eqb : A -> A -> bool).
Context (le : A -> A -> Prop).
Hypothesis leb_le : forall a b, leb a b = true <-> le a b.
Hypothesis le_total : forall a b, le a b \/ le b a.
Hypothesis le_trans : forall a b c, le a b -> le b c -> le a c.
Hypothesis eqb_le : forall a b, eqb a b = true <-> le a b /\ le b a.

Lemma merged_nil_r l : merged leb l [] = l.
Proof. by destruct l. Qed.

Lemma merged_cons x r1 y r2 :
  merged leb (x :: r1) (y :: r2)
  = if leb x y then x :: merged leb r1 (y :: r2)
    else y :: merged leb (x :: r1) r2.
Proof. done. Qed.

Lemma merged_nil_l l : merged leb [] l = l.
Proof. by destruct l. Qed.

Lemma merged_perm l1 l2 : merged leb l1 l2 ≡ₚ l1 ++ l2.
Proof.
  revert l2. induction l1 as [|x r1 IH1]; intros l2; [by rewrite merged_nil_l|].
  induction l2 as [|y r2 IH2]; [by rewrite app_nil_r|].
  rewrite merged_cons. destruct (leb x y).
  - simpl. by rewrite IH1.
  - rewrite IH2. by rewrite <- Permutation_middle.
Qed.

Lemma merged_sorted l1 l2 :
  StronglySorted le l1 -> StronglySorted le l2 ->
  StronglySorted le (merged leb l1 l2).
Proof.
  revert l2. induction l1 as [|x r1 IH1]; intros l2 Hs1 Hs2;
    [by rewrite merged_nil_l|].
  induction l2 as [|y r2 IH2]; [done|].
  rewrite merged_cons.
  apply StronglySorted_inv in Hs1 as [Hs1 Hx].
  pose proof Hs2 as [Hs2' Hy]%StronglySorted_inv.
  destruct (leb x y) eqn:Hxy.
  - apply leb_le in Hxy. constructor; [by apply IH1|].
    rewrite merged_perm. apply Forall_app. split; [done|].
    apply Forall_cons. split; [done|].
    eapply Forall_impl; [exact Hy|]. intros z Hyz. by apply (le_trans x y z).
  - assert (Hyx : le y x).
    { destruct (le_total x y) as [Hle|Hle]; [|done].
      apply leb_le in Hle. congruence. }
    constructor; [apply IH2; try done; by constructor|].
    rewrite merged_perm. apply Forall_app. split; [|done].
    apply Forall_cons. split; [done|].
    eapply Forall_impl; [exact Hx|]. intros z Hxz. by apply (le_trans y x z).
Qed.

Lemma filter_none (P : A -> Prop) `{!forall x, Decision (P x)} l :
  Forall (fun x => ~ P x) l -> filter P l = [].
Proof.
  induction 1 as [|x l Hx _ IH]; [done|].
  by rewrite filter_cons, decide_False.
Qed.

(** Each class of equal elements comes out with the elements of the
    first list before those of the second. *)
Lemma merged_filter k l1 l2 :
  StronglySorted le l1 ->
  filter (fun x => eqb k x = true) (merged leb l1 l2)
  = filter (fun x => eqb k x = true) l1 ++ filter (fun x => eqb k x = true) l2.
Proof.
  revert l2. induction l1 as [|x r1 IH1]; intros l2 Hs1;
    [by rewrite merged_nil_l|].
  induction l2 as [|y r2 IH2]; [by rewrite app_nil_r|].
  rewrite merged_cons.
  pose proof Hs1 as [Hs1' Hx]%StronglySorted_inv.
  destruct (leb x y) eqn:Hxy.
  - rewrite !(filter_cons _ x). rewrite IH1 by done.
    by destruct (decide (eqb k x = true)).
  - rewrite !(filter_cons _ y), IH2.
    destruct (decide (eqb k y = true)) as [Hky|Hky]; [|done].
    rewrite (filter_none (fun z => eqb k z = true) (x :: r1)); [done|].
    apply Forall_forall. intros z Hz Hkz.
    assert (Hxz : le x z).
    { apply elem_of_cons in Hz as [->|Hz].
      - by destruct (le_total x x).
      - rewrite Forall_forall in Hx. by apply Hx. }
    apply eqb_le in Hky as [Hky _]. apply eqb_le in Hkz as [_ Hzk].
    assert (Hle : le x y).
    { apply (le_trans x z y); [done|]. by apply (le_trans z k y). }
    apply leb_le in Hle. congruence.
Qed.
End Merge.

(** ** Sorted versions of a list of elements *)

Lemma payload_leb_le m a b : payload_leb m a b = true <-> payload_le m a b.
Proof. unfold payload_leb, payload_le, str_le. apply Z.leb_le. Qed.

Lemma payload_le_total m a b : payload_le m a b \/ payload_le m b a.
Proof. apply strcmp_total. Qed.

Lemma sorted_of_short m ps : (length ps <= 1)%nat -> sorted_of m ps ps.
Proof.
  intros Hlen. split; [done|]. split; [|done].
  destruct ps as [|x [|y ps]]; [constructor|repeat constructor|simpl in Hlen; lia].
Qed.

Lemma sorted_of_merge m a b a' b' :
  sorted_of m a a' -> sorted_of m b b' ->
  sorted_of m (a ++ b) (merged (payload_leb m) a' b').
Proof.
  intros (Hpa & Hsa & Hta) (Hpb & Hsb & Htb). split_and!.
  - by rewrite merged_perm, Hpa, Hpb.
  - apply (merged_sorted (payload_leb m) (payload_le m)); try done.
    + apply payload_leb_le.
    + apply payload_le_total.
    + apply payload_le_trans.
  - intros k.
    rewrite (merged_filter (payload_leb m) (same_payload m) (payload_le m));
      try done.
    + by rewrite filter_app, Hta, Htb.
    + apply payload_leb_le.
    + apply payload_le_total.
    + apply payload_le_trans.
    + apply same_payload_le.
Qed.

Lemma sorted_of_same m m' ps ps' :
  same_payloads m m' -> sorted_of m' ps ps' -> sorted_of m ps ps'.
Proof.
  intros Hs (Hperm & Hsorted & Hst).
  assert (Hp : forall p, payload m' p = payload m p)
    by (intros p; by apply payload_same).
  split_and!; [done| |].
  - clear Hperm Hst.
    induction Hsorted as [|x l _ IH Hx]; constructor; [done|].
    eapply Forall_impl; [exact Hx|]. intros y. unfold payload_le.
    by rewrite !Hp.
  - intros k. specialize (Hst k).
    rewrite (list_filter_iff (fun x => same_payload m k x = true)
               (fun x => same_payload m' k x = true) ps').
    + rewrite Hst. apply list_filter_iff. intros x. unfold same_payload.
      by rewrite !Hp.
    + intros x. unfold same_payload. by rewrite !Hp.
Qed.

(** ** Chains *)

Lemma next_path_ext lk lk' c q :
  (forall x, x ∈ c -> next <$> lk' !! x = next <$> lk !! x) ->
  next_path lk c q -> next_path lk' c q.
Proof.
  induction c as [|x c IH]; intros Hext; simpl; [done|].
  intros [Hx Hc]. split.
  - rewrite Hext; [done|elem_here].
  - apply IH; [|done]. intros y Hy. apply Hext. by apply list_elem_of_further.
Qed.

Lemma next_path_app lk c1 c2 q :
  next_path lk (c1 ++ c2) q <->
  next_path lk c1 (hd q c2) /\ next_path lk c2 q.
Proof.
  induction c1 as [|x c1 IH]; simpl; [tauto|].
  rewrite IH, hd_app. tauto.
Qed.

Lemma chain_nil lk p : chain lk p [] <-> p = NULL.
Proof.
  unfold chain. simpl. split; [tauto|]. intros ->. split_and!; try done.
  apply not_elem_of_nil.
Qed.

Lemma chain_cons lk p x r :
  chain lk p (x :: r) <->
  p = x /\ x <> NULL /\ next <$> lk !! x = Some (hd NULL r) /\
  chain lk (hd NULL r) r.
Proof.
  unfold chain. simpl. rewrite not_elem_of_cons. split.
  - intros (-> & [Hx Hr] & Hn & Hp). split_and!; try done.
  - intros (-> & Hx & Hn & _ & Hr & Hp). split_and!; try done.
Qed.

Lemma chain_ext lk lk' p ps :
  (forall x, x ∈ ps -> next <$> lk' !! x = next <$> lk !! x) ->
  chain lk p ps -> chain lk' p ps.
Proof.
  intros Hext (Hp & Hn & Hnp). split_and!; try done.
  by apply (next_path_ext lk).
Qed.

Lemma chain_null lk p ps :
  chain lk p ps -> (p =? NULL)%N = bool_decide (ps = []).
Proof.
  destruct ps as [|x r].
  - intros ->%chain_nil. done.
  - intros (-> & Hx & _)%chain_cons.
    transitivity false; [by apply N.eqb_neq|].
    symmetry. by apply bool_decide_eq_false_2.
Qed.

Lemma chain_hd lk p ps : chain lk p ps -> p = hd NULL ps.
Proof. by intros [? _]. Qed.

Lemma chain_lookup lk p x r :
  chain lk p (x :: r) -> exists h, lk !! x = Some h /\ next h = hd NULL r.
Proof.
  intros (_ & _ & Hn & _)%chain_cons.
  destruct (lk !! x) as [h|]; [|done]. exists h. split; [done|].
  by injection Hn.
Qed.

Lemma next_insert_ne (lk : gmap N list_head) x y h :
  x <> y -> next <$> <[x := h]> lk !! y = next <$> lk !! y.
Proof. intros Hne. by rewrite lookup_insert_ne. Qed.

(** ** Merging two chains *)

Lemma store_lval_spec m pp v head (Q : ptr -> mem -> Prop) :
  Forall (fun n => is_Some (heads m !! n)) (lval_nodes pp) ->
  (forall m', 
     Forall (fun n => next <$> heads m' !! n = Some v) (lval_nodes pp) ->
     Forall (fun n => is_Some (heads m' !! n)) (lval_nodes pp) ->
     heads_frame (lval_nodes pp) m m' -> same_payloads m m' ->
     Q (match pp with Lhead => v | Lnext _ => head end) m') ->
  wp (store_lval pp v head) m Q.
Proof.
  intros Hpp HQ. destruct pp as [|n]; simpl.
  - apply wp_ret. apply HQ; try done.
  - apply Forall_singleton in Hpp as [h Hh].
    wp_step Hh. apply wp_ret. apply HQ.
    + apply Forall_singleton. simpl. by rewrite lookup_insert_eq.
    + apply Forall_singleton. simpl. rewrite lookup_insert_eq. eauto.
    + intros y Hy. simpl. apply lookup_insert_ne. intros ->. apply Hy. elem_here.
    + done.
Qed.

Lemma merged_ext {A} (leb leb' : A -> A -> bool) l1 l2 :
  (forall a b, leb a b = leb' a b) -> merged leb l1 l2 = merged leb' l1 l2.
Proof.
  intros Hext. revert l2. induction l1 as [|x r1 IH1]; intros l2.
  - by rewrite !merged_nil_l.
  - induction l2 as [|y r2 IH2]; [by rewrite !merged_nil_r|].
    by rewrite !merged_cons, Hext, IH1, IH2.
Qed.

Lemma merged_payloads m m' a b :
  same_payloads m m' ->
  merged (payload_leb m) a b = merged (payload_leb m') a b.
Proof.
  intros Hs. apply merged_ext. intros x y. unfold payload_leb.
  by rewrite !(payload_same _ _ _ Hs).
Qed.

Lemma merge_loop_spec fuel : forall m a b l1 l2 head pp,
  chain (heads m) l1 a -> chain (heads m) l2 b ->
  NoDup (lval_nodes pp ++ a ++ b) -> Forall (element m) (a ++ b) ->
  Forall (fun n => is_Some (heads m !! n)) (lval_nodes pp) ->
  (length a + length b < fuel)%nat ->
  wp (merge_loop fuel l1 l2 head pp) m (fun ret m' =>
    chain (heads m') (hd NULL (merged (payload_leb m) a b))
          (merged (payload_leb m) a b) /\
    ret = match pp with
          | Lhead => hd NULL (merged (payload_leb m) a b)
          | Lnext _ => head
          end /\
    Forall (fun n => next <$> heads m' !! n
                     = Some (hd NULL (merged (payload_leb m) a b)))
           (lval_nodes pp) /\
    heads_frame (lval_nodes pp ++ a ++ b) m m' /\
    same_payloads m m').
Proof.
  induction fuel as [|fuel IH];
    intros m a b l1 l2 head pp Ha Hb Hnd Hel Hpp Hfuel; [lia|].
  cbn [merge_loop].
  rewrite (chain_null _ _ _ Ha), (chain_null _ _ _ Hb).
  destruct a as [|x a']; [|destruct b as [|y b']].
  - (* the first chain is exhausted *)
    rewrite bool_decide_eq_true_2 by done. cbn [negb andb].
    apply chain_nil in Ha as ->. rewrite N.lor_0_l, merged_nil_l.
    pose proof (chain_hd _ _ _ Hb) as Hl2. subst l2.
    apply store_lval_spec; [done|]. intros m' Hn Hs Hf Hsp.
    split_and!; try done.
    + eapply chain_ext; [|done]. intros z Hz. rewrite Hf; [done|].
      intros Hzp. apply NoDup_app in Hnd as (_ & Hd & _). by apply (Hd z).
    + eapply heads_frame_mono; [|done]. intros z Hz. apply elem_of_app. by left.
  - (* the second chain is exhausted *)
    rewrite (bool_decide_eq_false_2 (x :: a' = [])) by done.
    rewrite (bool_decide_eq_true_2 (@nil ptr = [])) by done. cbn [negb andb].
    apply chain_nil in Hb as ->. rewrite N.lor_0_r, merged_nil_r.
    pose proof (chain_hd _ _ _ Ha) as Hl1. subst l1.
    apply store_lval_spec; [done|]. intros m' Hn Hs Hf Hsp.
    split_and!; try done.
    + eapply chain_ext; [|done]. intros z Hz. rewrite Hf; [done|].
      intros Hzp. apply NoDup_app in Hnd as (_ & Hd & _). apply (Hd z Hzp).
      apply elem_of_app. by left.
    + eapply heads_frame_mono; [|done]. intros z Hz. apply elem_of_app. by left.
  - (* both chains have a front element *)
    rewrite !bool_decide_eq_false_2 by done. cbn [negb andb].
    pose proof Ha as (-> & Hxn & Hxnext & Ha')%chain_cons.
    pose proof Hb as (-> & Hyn & Hynext & Hb')%chain_cons.
    assert (Hex : element m x).
    { rewrite Forall_forall in Hel. apply Hel. elem_here. }
    assert (Hey : element m y).
    { rewrite Forall_forall in Hel. apply Hel. apply elem_of_app. right. elem_here. }
    apply (wp_element_payload m x); [done|].
    apply (wp_element_payload m y); [done|].
    fold (payload_leb m x y). rewrite merged_cons.
    apply NoDup_app in Hnd as (Hndp & Hdisj & Hndab).
    destruct (payload_leb m x y) eqn:Hxy.
    + (* the front of the first chain goes out *)
      apply wp_bind. apply store_lval_spec; [done|].
      intros m1 Hn1 Hs1 Hf1 Hsp1.
      assert (Hxp : x ∉ lval_nodes pp).
      { intros Hxp. apply (Hdisj x Hxp). elem_here. }
      assert (Hx1 : next <$> heads m1 !! x = Some (hd NULL a')) by by rewrite Hf1.
      destruct (heads m1 !! x) as [hx|] eqn:Hhx; [|done].
      injection Hx1 as Hx1.
      wp_step Hhx. rewrite Hx1.
      assert (Hchain : forall ps, (forall z, z ∈ ps -> z ∈ (x :: a') ++ y :: b') ->
                chain (heads m) (hd NULL ps) ps -> chain (heads m1) (hd NULL ps) ps).
      { intros ps Hps. apply chain_ext. intros z Hz. rewrite Hf1; [done|].
        intros Hzp. apply (Hdisj z Hzp). by apply Hps. }
      eapply wp_mono.
      { apply (IH m1 a' (y :: b') (hd NULL a') y _ (Lnext x)).
        - apply Hchain; [|done]. intros z Hz. clear -Hz. set_solver.
        - apply (Hchain (y :: b')); [|done]. intros z Hz.
          apply elem_of_app. by right.
        - apply NoDup_cons. split; [|by apply NoDup_cons in Hndab as [_ ?]].
          by apply NoDup_cons in Hndab as [? _].
        - apply Forall_forall. intros z Hz. apply (element_same m); [done|].
          rewrite Forall_forall in Hel. apply Hel. clear -Hz. set_solver.
        - apply Forall_singleton. eauto.
        - simpl in *. lia. }
      intros ret m' (Hc & -> & Hn & Hf & Hsp).
      cbn [lval_nodes] in Hn. rewrite Forall_singleton in Hn.
      assert (Hleb : merged (payload_leb m1) a' (y :: b')
                     = merged (payload_leb m) a' (y :: b'))
        by (symmetry; by apply merged_payloads).
      rewrite Hleb in *. cbn [hd lval_nodes] in *.
      split_and!.
      * apply chain_cons. split_and!; try done.
      * by destruct pp.
      * apply Forall_forall. intros n Hnp.
        rewrite Hf.
        -- rewrite Forall_forall in Hn1. by apply Hn1.
        -- intros Hin. apply (Hdisj n Hnp). clear -Hin. set_solver.
      * intros z Hz. rewrite Hf, Hf1; [done|..].
        -- intros Hzp. apply Hz, elem_of_app. by left.
        -- intros Hin. apply Hz, elem_of_app. right. clear -Hin. set_solver.
      * by apply (same_payloads_trans m m1 m').
    + (* the front of the second chain goes out *)
      apply wp_bind. apply store_lval_spec; [done|].
      intros m1 Hn1 Hs1 Hf1 Hsp1.
      assert (Hyp : y ∉ lval_nodes pp).
      { intros Hyp. apply (Hdisj y Hyp). apply elem_of_app. right. elem_here. }
      assert (Hy1 : next <$> heads m1 !! y = Some (hd NULL b')) by by rewrite Hf1.
      destruct (heads m1 !! y) as [hy|] eqn:Hhy; [|done].
      injection Hy1 as Hy1.
      wp_step Hhy. rewrite Hy1.
      assert (Hchain : forall ps, (forall z, z ∈ ps -> z ∈ (x :: a') ++ y :: b') ->
                chain (heads m) (hd NULL ps) ps -> chain (heads m1) (hd NULL ps) ps).
      { intros ps Hps. apply chain_ext. intros z Hz. rewrite Hf1; [done|].
        intros Hzp. apply (Hdisj z Hzp). by apply Hps. }
      assert (Hnd' : NoDup ([y] ++ (x :: a') ++ b')).
      { apply NoDup_app in Hndab as (H1 & H2 & [H3 H4]%NoDup_cons).
        apply NoDup_cons. split.
        - intros [Hin|Hin]%elem_of_app; [|done]. apply (H2 y Hin). elem_here.
        - apply NoDup_app. split; [done|]. split; [|done].
          intros z Hz Hz'. apply (H2 z Hz). by apply list_elem_of_further. }
      eapply wp_mono.
      { apply (IH m1 (x :: a') b' x (hd NULL b') _ (Lnext y)).
        - apply (Hchain (x :: a')); [|done]. intros z Hz.
          apply elem_of_app. by left.
        - apply Hchain; [|done]. intros z Hz. clear -Hz. set_solver.
        - done.
        - apply Forall_forall. intros z Hz. apply (element_same m); [done|].
          rewrite Forall_forall in Hel. apply Hel. clear -Hz. set_solver.
        - apply Forall_singleton. eauto.
        - simpl in *. lia. }
      intros ret m' (Hc & -> & Hn & Hf & Hsp).
      cbn [lval_nodes] in Hn. rewrite Forall_singleton in Hn.
      assert (Hleb : merged (payload_leb m1) (x :: a') b'
                     = merged (payload_leb m) (x :: a') b')
        by (symmetry; by apply merged_payloads).
      rewrite Hleb in *. cbn [hd lval_nodes] in *.
      split_and!.
      * apply chain_cons. split_and!; try done.
      * by destruct pp.
      * apply Forall_forall. intros n Hnp.
        rewrite Hf.
        -- rewrite Forall_forall in Hn1. by apply Hn1.
        -- intros Hin. apply (Hdisj n Hnp). clear -Hin. set_solver.
      * intros z Hz. rewrite Hf, Hf1; [done|..].
        -- intros Hzp. apply Hz, elem_of_app. by left.
        -- intros Hin. apply Hz, elem_of_app. right. clear -Hin. set_solver.
      * by apply (same_payloads_trans m m1 m').
Qed.

(** ** Merge sort of a chain *)

Lemma merge_two_lists_spec m a b l1 l2 fuel :
  chain (heads m) l1 a -> chain (heads m) l2 b ->
  NoDup (a ++ b) -> Forall (element m) (a ++ b) ->
  (length a + length b < fuel)%nat ->
  wp (merge_two_lists fuel l1 l2) m (fun ret m' =>
    chain (heads m') ret (merged (payload_leb m) a b) /\
    heads_frame (a ++ b) m m' /\ same_payloads m m').
Proof.
  intros Ha Hb Hnd Hel Hfuel. unfold merge_two_lists.
  eapply wp_mono; [by apply (merge_loop_spec fuel m a b l1 l2 NULL Lhead)|].
  intros ret m' (Hc & -> & _ & Hf & Hs). done.
Qed.

Lemma chain_nth lk p ps i :
  chain lk p ps -> (i < length ps)%nat ->
  exists h, lk !! nth i ps NULL = Some h /\ next h = nth (S i) ps NULL.
Proof.
  revert p i. induction ps as [|x ps IH]; intros p i Hc Hi; simpl in Hi; [lia|].
  destruct i as [|i].
  - destruct (chain_lookup _ _ _ _ Hc) as (h & Hh & Hn).
    exists h. split; [done|]. rewrite Hn. by destruct ps.
  - apply chain_cons in Hc as (_ & _ & _ & Hc).
    apply (IH _ i Hc). lia.
Qed.

Lemma chain_nth_null lk p ps i :
  chain lk p ps -> (nth i ps NULL =? NULL)%N = bool_decide (length ps <= i)%nat.
Proof.
  intros (_ & Hn & _).
  destruct (decide (length ps <= i)%nat) as [Hle|Hlt].
  - rewrite nth_overflow by done. by rewrite bool_decide_eq_true_2.
  - rewrite bool_decide_eq_false_2 by done. apply N.eqb_neq. intros Heq.
    apply Hn. rewrite <- Heq. apply list_elem_of_In, nth_In. lia.
Qed.

Lemma split_loop_spec m p ps fuel j :
  chain (heads m) p ps ->
  (2 * j + 1 <= length ps)%nat -> ((length ps - 1) / 2 - j < fuel)%nat ->
  split_loop fuel (nth (2 * j + 1) ps NULL) (nth j ps NULL) m
  = Ok (nth ((length ps - 1) / 2) ps NULL) m.
Proof.
  intros Hc. revert j. induction fuel as [|fuel IH]; intros j Hj Hfuel; [lia|].
  remember (2 * j + 1)%nat as i eqn:Hi.
  cbn [split_loop]. rewrite (chain_nth_null _ _ _ _ Hc).
  destruct (decide (length ps <= i)%nat) as [Hle|Hlt].
  { rewrite bool_decide_eq_true_2 by done.
    assert (j = (length ps - 1) / 2)%nat as ->; [|done].
    replace (length ps - 1)%nat with (j * 2)%nat by lia.
    by rewrite Nat.div_mul. }
  rewrite bool_decide_eq_false_2 by done.
  destruct (chain_nth _ _ _ i Hc) as (h & Hh & Hn); [lia|].
  unfold bind at 1, load_next at 1. rewrite Hh, Hn.
  rewrite (chain_nth_null _ _ _ _ Hc).
  destruct (decide (length ps <= S i)%nat) as [Hle|Hlt'].
  { rewrite bool_decide_eq_true_2 by done.
    assert (j = (length ps - 1) / 2)%nat as ->; [|done].
    replace (length ps - 1)%nat with (1 + j * 2)%nat by lia.
    rewrite Nat.div_add by done. done. }
  rewrite bool_decide_eq_false_2 by done.
  destruct (chain_nth _ _ _ (S i) Hc) as (h' & Hh' & Hn'); [lia|].
  unfold bind at 1, load_next at 1. rewrite Hh', Hn'.
  destruct (chain_nth _ _ _ j Hc) as (h'' & Hh'' & Hn''); [lia|].
  unfold bind at 1, load_next at 1. rewrite Hh'', Hn''.
  replace (S (S i)) with (2 * S j + 1)%nat by lia.
  assert (S j <= (length ps - 1) / 2)%nat
    by (apply Nat.div_le_lower_bound; lia).
  apply IH; lia.
Qed.

(** Cutting a chain after its node of index [k]. *)
Lemma chain_cut m ps k h :
  chain (heads m) (hd NULL ps) ps -> NoDup ps -> (S k < length ps)%nat ->
  heads m !! nth k ps NULL = Some h ->
  let m1 := set_heads m (<[nth k ps NULL := LH NULL (prev h)]> (heads m)) in
  chain (heads m1) (hd NULL ps) (take (S k) ps) /\
  chain (heads m1) (nth (S k) ps NULL) (drop (S k) ps).
Proof.
  intros (_ & Hnull & Hp) Hnd Hk Hh m1.
  assert (Hps : ps = take k ps ++ nth k ps NULL :: drop (S k) ps)
    by (apply nth_middle_split; lia).
  assert (Htake : take (S k) ps = take k ps ++ [nth k ps NULL]).
  { rewrite Hps at 1. rewrite take_app_ge by (rewrite length_take; lia).
    rewrite length_take. replace (S k - k `min` length ps)%nat with 1%nat by lia.
    done. }
  set (x := nth k ps NULL) in *.
  set (A0 := take k ps) in *. set (B := drop (S k) ps) in *.
  assert (HB : nth (S k) ps NULL = hd NULL B).
  { unfold B. clear. revert k. induction ps as [|y ps IH]; intros k; [by destruct k|].
    destruct k as [|k]; simpl; [by destruct ps|]. apply IH. }
  rewrite Hps in Hnd, Hnull, Hp.
  apply NoDup_app in Hnd as (HndA & Hdisj & [HxB HndB]%NoDup_cons).
  rewrite next_path_app in Hp. destruct Hp as [HpA [_ HpB]].
  rewrite Htake, HB. split.
  - split_and!.
    + rewrite Hps at 1. by rewrite !hd_app.
    + intros Hin. apply Hnull.
      apply elem_of_app in Hin as [Hin|Hin]; apply elem_of_app; [by left|right].
      apply list_elem_of_singleton in Hin. rewrite <- Hin. elem_here.
    + apply next_path_app. simpl. split; [|split; [|done]].
      * eapply next_path_ext; [|exact HpA]. intros z Hz. simpl.
        apply next_insert_ne. intros <-. by apply (Hdisj x Hz), list_elem_of_here.
      * by rewrite lookup_insert_eq.
  - split_and!; [done| |].
    + intros Hin. apply Hnull. apply elem_of_app. right.
      by apply list_elem_of_further.
    + eapply next_path_ext; [|exact HpB]. intros z Hz. simpl.
      apply next_insert_ne. by intros <-.
Qed.

Lemma chain_frame m m' c p ps :
  heads_frame c m m' -> (forall z, z ∈ ps -> z ∉ c) ->
  chain (heads m) p ps -> chain (heads m') p ps.
Proof.
  intros Hf Hdisj. apply chain_ext. intros z Hz. rewrite Hf; [done|].
  by apply Hdisj.
Qed.

(** Sorting two disjoint chains one after the other. *)
Lemma sort_pair {A} bound (c : ptr -> M ptr) m px py X Y (k : ptr -> ptr -> M A) Q :
  sorts_chains bound c ->
  chain (heads m) px X -> chain (heads m) py Y ->
  NoDup (X ++ Y) -> Forall (element m) (X ++ Y) ->
  (length X < bound)%nat -> (length Y < bound)%nat ->
  (forall m' x y X' Y',
     chain (heads m') x X' -> chain (heads m') y Y' ->
     sorted_of m X X' -> sorted_of m Y Y' ->
     heads_frame (X ++ Y) m m' -> same_payloads m m' ->
     wp (k x y) m' Q) ->
  wp (let* x := c px in let* y := c py in k x y) m Q.
Proof.
  intros Hsort HX HY Hnd Hel HlX HlY Hk.
  apply NoDup_app in Hnd as (HndX & Hdisj & HndY).
  apply Forall_app in Hel as [HelX HelY].
  eapply wp_seq; [by apply (Hsort m px X)|].
  intros x m1 (X' & HX' & HsX & Hf1 & Hs1). simpl.
  eapply wp_seq.
  { apply (Hsort m1 py Y); try done.
    - eapply chain_frame; [exact Hf1| |exact HY].
      intros z Hz Hz'. by apply (Hdisj z).
    - eapply Forall_impl; [exact HelY|]. intros z. by apply element_same. }
  intros y m2 (Y' & HY' & HsY & Hf2 & Hs2). simpl.
  apply (Hk m2 x y X' Y'); try done.
  - eapply chain_frame; [exact Hf2| |exact HX'].
    intros z Hz Hz'. destruct HsX as [HpX _]. rewrite HpX in Hz.
    by apply (Hdisj z).
  - by apply (sorted_of_same m m1).
  - intros z Hz. rewrite Hf2, Hf1; [done|..]; intros Hin; apply Hz, elem_of_app;
      [by left|by right].
  - by apply (same_payloads_trans m m1 m2).
Qed.

Lemma merge_sorted_pair m m' a b X Y X' Y' fuel :
  chain (heads m') a X' -> chain (heads m') b Y' ->
  sorted_of m X X' -> sorted_of m Y Y' ->
  NoDup (X ++ Y) -> Forall (element m) (X ++ Y) ->
  heads_frame (X ++ Y) m m' -> same_payloads m m' ->
  (length X + length Y < fuel)%nat ->
  wp (merge_two_lists fuel a b) m' (sorted_chain m (X ++ Y)).
Proof.
  intros Ha Hb HsX HsY Hnd Hel Hf Hs Hfuel.
  pose proof HsX as [HpX _]. pose proof HsY as [HpY _].
  eapply wp_mono.
  { apply (merge_two_lists_spec m' X' Y' a b fuel); try done.
    - by rewrite HpX, HpY.
    - rewrite HpX, HpY. eapply Forall_impl; [exact Hel|].
      intros z. by apply element_same.
    - by rewrite HpX, HpY. }
  intros ret m2 (Hc & Hf2 & Hs2).
  exists (merged (payload_leb m) X' Y'). split_and!.
  - by rewrite (merged_payloads m m').
  - by apply sorted_of_merge.
  - intros z Hz. rewrite Hf2, Hf; [done|done|]. by rewrite HpX, HpY.
  - by apply (same_payloads_trans m m' m2).
Qed.

Lemma merge_sort_spec rtl fuel : sorts_chains (fuel - 1) (merge_sort rtl fuel).
Proof.
  induction fuel as [|fuel IH]; intros m p ps Hc Hnd Hel Hfuel; [simpl in Hfuel; lia|].
  replace (S fuel - 1)%nat with fuel in Hfuel by lia.
  cbn [merge_sort]. rewrite (chain_null _ _ _ Hc).
  destruct ps as [|x ps].
  { rewrite bool_decide_eq_true_2 by done. apply wp_ret.
    exists []. split_and!; try done. apply sorted_of_short. simpl. lia. }
  rewrite bool_decide_eq_false_2 by done.
  pose proof Hc as (-> & Hxn & Hxnext & Hc')%chain_cons.
  destruct (chain_lookup _ _ _ _ Hc) as (hx & Hhx & Hnx).
  wp_step Hhx. rewrite Hnx, (chain_null _ _ _ Hc').
  destruct ps as [|y ps].
  { rewrite bool_decide_eq_true_2 by done. apply wp_ret.
    exists [x]. split_and!; try done. apply sorted_of_short. simpl. lia. }
  rewrite bool_decide_eq_false_2 by done. cbn [hd].
  set (l := x :: y :: ps) in *.
  set (k := ((length l - 1) / 2)%nat).
  assert (Hlen : (2 <= length l)%nat) by (unfold l; simpl; lia).
  assert (Hk : (S k < length l)%nat).
  { unfold k. assert ((length l - 1) / 2 <= (length l - 1) / 1)%nat
      by (apply Nat.div_le_compat_l; lia).
    rewrite Nat.div_1_r in *.
    destruct (decide (length l = 2)%nat) as [->|]; [simpl; lia|].
    assert ((length l - 1) / 2 < length l - 1)%nat by (apply Nat.div_lt; lia).
    lia. }
  apply wp_bind. eapply wp_exec.
  { apply (split_loop_spec m x l fuel 0 Hc); [simpl; lia|].
    fold k. lia. }
  fold k.
  destruct (chain_nth _ _ _ k Hc) as (hs & Hhs & Hns); [lia|].
  wp_step Hhs. rewrite Hns. wp_step Hhs.
  destruct (chain_cut m l k hs Hc Hnd Hk Hhs) as [HcA HcB].
  set (m1 := set_heads m _) in *.
  set (X := take (S k) l) in *. set (Y := drop (S k) l) in *.
  assert (Hl : l = X ++ Y) by (symmetry; apply take_drop).
  assert (HlX : length X = S k) by (unfold X; rewrite length_take; lia).
  assert (HlY : length Y = (length l - S k)%nat) by (unfold Y; by rewrite length_drop).
  assert (Hf1 : heads_frame l m m1).
  { intros z Hz.
    change (<[nth k l NULL := LH NULL (prev hs)]> (heads m) !! z = heads m !! z).
    apply lookup_insert_ne. intros Heq. apply Hz.
    rewrite <- Heq. apply list_elem_of_In, nth_In. lia. }
  assert (Hel1 : Forall (element m1) (X ++ Y)) by by rewrite <- Hl.
  assert (Hfinal : forall p' m', sorted_chain m1 (X ++ Y) p' m' ->
            sorted_chain m l p' m').
  { intros p' m' (ps' & Hps' & Hso & Hf & Hs). exists ps'.
    rewrite <- Hl in *. split_and!; try done.
    by apply (heads_frame_trans l m m1 m'). }
  assert (IH' : sorts_chains (fuel - 1) (merge_sort rtl fuel)) by exact IH.
  destruct rtl.
  - eapply wp_mono; [|exact Hfinal].
    apply (sort_pair (fuel - 1) (merge_sort true fuel) m1 _ x Y X); try done.
    + rewrite Hl in Hnd. apply NoDup_app in Hnd as (H1 & H2 & H3).
      apply NoDup_app. split; [done|]. split; [|done].
      intros z Hz Hz'. by apply (H2 z).
    + apply Forall_app in Hel1 as [? ?]. by apply Forall_app.
    + lia.
    + lia.
    + intros m' b a Y' X' Hb Ha HsY HsX Hf Hs.
      apply (merge_sorted_pair m1 m' a b X Y X' Y' fuel); try done.
      * by rewrite <- Hl.
      * intros z Hz. apply Hf. intros Hin. apply Hz.
        apply elem_of_app in Hin as [Hin|Hin]; apply elem_of_app; [by right|by left].
      * rewrite <- length_app, <- Hl. lia.
  - eapply wp_mono; [|exact Hfinal].
    apply (sort_pair (fuel - 1) (merge_sort false fuel) m1 x _ X Y); try done.
    + by rewrite <- Hl.
    + lia.
    + lia.
    + intros m' a b X' Y' Ha Hb HsX HsY Hf Hs.
      apply (merge_sorted_pair m1 m' a b X Y X' Y' fuel); try done.
      * by rewrite <- Hl.
      * rewrite <- length_app, <- Hl. lia.
Qed.

(** ** Sorting a queue *)

Lemma prev_path_ext lk lk' p c :
  (forall x, x ∈ c -> prev <$> lk' !! x = prev <$> lk !! x) ->
  prev_path lk p c -> prev_path lk' p c.
Proof.
  revert p. induction c as [|x c IH]; intros p Hext; simpl; [done|].
  intros [Hx Hc]. split.
  - rewrite Hext; [done|elem_here].
  - apply IH; [|done]. intros y Hy. apply Hext. by apply list_elem_of_further.
Qed.

(** Stores, by what they change. *)
Lemma wp_store_prev_at p v m Q :
  is_Some (heads m !! p) ->
  (forall m',
     (forall z, next <$> heads m' !! z = next <$> heads m !! z) ->
     prev <$> heads m' !! p = Some v ->
     (forall z, z <> p -> heads m' !! z = heads m !! z) ->
     same_payloads m m' -> Q tt m') ->
  wp (store_prev p v) m Q.
Proof.
  intros [h Hh] HQ. wp_step Hh. apply HQ; simpl; try done.
  - intros z. destruct (decide (z = p)) as [->|Hne].
    + by rewrite lookup_insert_eq, Hh.
    + by rewrite lookup_insert_ne.
  - by rewrite lookup_insert_eq.
  - intros z Hne. by rewrite lookup_insert_ne.
Qed.

Lemma wp_store_next_at p v m Q :
  is_Some (heads m !! p) ->
  (forall m',
     (forall z, prev <$> heads m' !! z = prev <$> heads m !! z) ->
     next <$> heads m' !! p = Some v ->
     (forall z, z <> p -> heads m' !! z = heads m !! z) ->
     same_payloads m m' -> Q tt m') ->
  wp (store_next p v) m Q.
Proof.
  intros [h Hh] HQ. wp_step Hh. apply HQ; simpl; try done.
  - intros z. destruct (decide (z = p)) as [->|Hne].
    + by rewrite lookup_insert_eq, Hh.
    + by rewrite lookup_insert_ne.
  - by rewrite lookup_insert_eq.
  - intros z Hne. by rewrite lookup_insert_ne.
Qed.

Lemma wp_load_next_at p v m Q :
  next <$> heads m !! p = Some v -> Q v m -> wp (load_next p) m Q.
Proof.
  intros Hp HQ. destruct (heads m !! p) as [h|] eqn:Hh; [|done].
  injection Hp as <-. by apply (wp_load_next p h).
Qed.

Lemma next_path_lookup lk c1 x c2 q :
  next_path lk (c1 ++ x :: c2) q -> next <$> lk !! x = Some (hd q c2).
Proof. rewrite next_path_app. simpl. tauto. Qed.

(** The loop that restores the [prev] links along a chain from the
    sentinel: [d] is behind the cursor [n], [t] ahead. *)
Lemma relink_loop_spec fuel : forall m d n t pv,
  NoDup (d ++ n :: t) -> NULL ∉ d ++ n :: t ->
  next_path (heads m) (d ++ n :: t) NULL ->
  prev_path (heads m) pv (d ++ [n]) ->
  (length t < fuel)%nat ->
  wp (relink_loop fuel n) m (fun r m' =>
    r = List.last (n :: t) NULL /\
    next_path (heads m') (d ++ n :: t) NULL /\
    prev_path (heads m') pv (d ++ n :: t) /\
    heads_frame (d ++ n :: t) m m' /\ same_payloads m m').
Proof.
  induction fuel as [|fuel IH]; intros m d n t pv Hnd Hnull Hnp Hpp Hfuel; [lia|].
  cbn [relink_loop].
  pose proof (next_path_lookup _ _ _ _ _ Hnp) as Hn.
  apply wp_bind, (wp_load_next_at _ _ _ _ Hn).
  destruct t as [|y t]; cbn [hd].
  { rewrite N.eqb_refl. apply wp_ret. split_and!; try done. }
  assert (Hy : y <> NULL).
  { intros ->. apply Hnull. apply elem_of_app. right.
    apply list_elem_of_further. elem_here. }
  rewrite (proj2 (N.eqb_neq y NULL) Hy).
  replace (d ++ n :: y :: t) with ((d ++ [n]) ++ y :: t) in *
    by by rewrite <- app_assoc.
  pose proof (next_path_lookup _ _ _ _ _ Hnp) as Hynext.
  apply wp_bind, wp_store_prev_at.
  { destruct (heads m !! y); [eauto|done]. }
  intros m1 Hnext1 Hprev1 Hother1 Hs1.
  assert (Hyd : y ∉ d ++ [n]).
  { apply NoDup_app in Hnd as (_ & Hdisj & _). intros Hin.
    apply (Hdisj y Hin). elem_here. }
  assert (Hn1 : next <$> heads m1 !! n = Some y).
  { rewrite Hnext1. rewrite <- app_assoc in Hnp.
    apply (next_path_lookup _ _ _ _ _ Hnp). }
  apply wp_bind, (wp_load_next_at _ _ _ _ Hn1).
  eapply wp_mono.
  { apply (IH m1 (d ++ [n]) y t pv); try done.
    - eapply next_path_ext; [|exact Hnp]. intros z _. apply Hnext1.
    - apply prev_path_app. split.
      + eapply prev_path_ext; [|exact Hpp]. intros z Hz.
        rewrite Hother1; [done|]. by intros ->.
      + simpl. by rewrite dlast_snoc.
    - simpl in Hfuel. lia. }
  intros r m' (-> & Hnp' & Hpp' & Hf' & Hs'). split_and!; try done.
  - intros z Hz. rewrite Hf' by done. apply Hother1. intros ->. apply Hz.
    apply elem_of_app. right. elem_here.
  - by apply (same_payloads_trans m m1 m').
Qed.

Lemma next_path_snoc lk c x q :
  next_path lk (c ++ [x]) q <->
  next_path lk c x /\ next <$> lk !! x = Some q.
Proof. rewrite next_path_app. simpl. tauto. Qed.

Lemma ring_halves lk head ps :
  ring lk head ps <->
  NoDup (head :: ps) /\ next_path lk (head :: ps) head /\
  prev_path lk (List.last ps head) (head :: ps).
Proof. by rewrite ring_path, path_halves. Qed.

Lemma q_sort_spec rtl m head ps fuel :
  queue m head ps -> (Z.of_nat (length ps) <= INT_MAX)%Z ->
  (S (length ps) < fuel)%nat ->
  wp (q_sort rtl fuel head) m (fun _ m' =>
    exists ps', queue m' head ps' /\ sorted_of m ps ps' /\
                same_payloads m m' /\ heads_frame (head :: ps) m m' /\
                ((length ps <= 1)%nat -> m' = m)).
Proof.
  intros Hq Hmax Hfuel. pose proof (queue_ring _ _ _ Hq) as Hr.
  unfold q_sort. apply wp_bind. eapply wp_exec.
  { apply (q_size_spec m head ps fuel Hq Hmax). lia. }
  destruct (Z.leb_spec (Z.of_nat (length ps)) 1) as [Hle|Hgt].
  { apply wp_ret. exists ps. split_and!; try done.
    apply sorted_of_short. lia. }
  assert (Hlen : (2 <= length ps)%nat) by lia.
  destruct (snoc_inv ps) as (ps0 & tl & Hps); [by destruct ps|].
  pose proof Hr as (Hnd & Hnp & Hpp)%ring_halves.
  pose proof (queue_nonnull _ _ _ Hq) as Hnull.
  assert (Hhd : hd head ps = hd NULL ps) by by destruct ps.
  assert (Htl : List.last ps head = tl) by (rewrite Hps; apply dlast_snoc).
  wp_step (ring_head _ _ _ Hr). wp_step (ring_head _ _ _ Hr).
  rewrite Hhd, Htl.
  (* the ring is opened after its last element *)
  assert (Htl_in : tl ∈ ps) by (rewrite Hps; apply elem_of_app; right; elem_here).
  assert (Hhead_ps : head ∉ ps) by by apply NoDup_cons in Hnd as [? _].
  assert (Htl_head : tl <> head) by (by intros ->).
  apply wp_bind, wp_store_next_at.
  { apply (ring_lookup _ _ _ _ Hr). by apply list_elem_of_further. }
  intros m1 Hprev1 Hnext1 Hother1 Hs1.
  assert (Hc1 : chain (heads m1) (hd NULL ps) ps).
  { split_and!; [done| |].
    - intros Hin. apply Hnull. by apply list_elem_of_further.
    - destruct Hnp as [_ Hnp]. rewrite Hps in Hnp |- *.
      apply next_path_snoc in Hnp as [Hnp _]. apply next_path_snoc.
      split; [|done]. eapply next_path_ext; [|exact Hnp].
      intros z Hz. rewrite Hother1; [done|]. intros ->.
      apply NoDup_cons in Hnd as [_ Hnd]. rewrite Hps in Hnd.
      apply NoDup_app in Hnd as (_ & Hdisj & _). apply (Hdisj tl Hz). elem_here. }
  pose proof (NoDup_cons_1_2 _ _ Hnd) as Hndps.
  eapply wp_seq.
  { apply (merge_sort_spec rtl fuel m1 (hd NULL ps) ps Hc1 Hndps).
    - eapply Forall_impl; [apply (queue_elements _ _ _ Hq)|].
      intros z. by apply element_same.
    - lia. }
  intros p' m2 (ps' & Hc2 & Hso & Hf2 & Hs2). simpl.
  pose proof Hso as (Hperm & _ & _).
  destruct Hc2 as (-> & Hnull2 & Hnp2).
  assert (Hhead_ps' : head ∉ ps') by by rewrite Hperm.
  assert (Hhead2 : heads m2 !! head = heads m !! head).
  { rewrite Hf2 by done. by apply Hother1. }
  apply wp_bind, wp_store_next_at.
  { rewrite Hhead2. apply (ring_lookup _ _ _ _ Hr). elem_here. }
  intros m3 Hprev3 Hnext3 Hother3 Hs3.
  assert (Hnd' : NoDup (head :: ps')) by by rewrite Hperm.
  assert (Hnull' : NULL ∉ head :: ps') by by rewrite Hperm.
  (* the [prev] links are restored along the sorted chain *)
  eapply wp_seq.
  { apply (relink_loop_spec fuel m3 [] head ps'
             (List.last ps head)); try done.
    - simpl. split; [done|]. eapply next_path_ext; [|exact Hnp2].
      intros z Hz. rewrite Hother3; [done|]. by intros ->.
    - simpl. split; [|done]. rewrite Hprev3, Hhead2.
      by rewrite (ring_head _ _ _ Hr).
    - rewrite Hperm. lia. }
  intros n m4 (-> & Hnp4 & Hpp4 & Hf4 & Hs4). cbn [app] in Hnp4, Hpp4, Hf4.
  rewrite dlast_cons.
  destruct (snoc_inv ps') as (ps0' & tl' & Hps').
  { intros ->. apply Permutation_length in Hperm. simpl in Hperm. lia. }
  assert (Hlast' : List.last ps' head = tl') by (rewrite Hps'; apply dlast_snoc).
  rewrite Hlast'.
  assert (Htl' : tl' ∈ ps') by (rewrite Hps'; apply elem_of_app; right; elem_here).
  assert (Hsome4 : forall z, z ∈ head :: ps' -> is_Some (heads m4 !! z)).
  { intros z Hz. apply list_elem_of_split in Hz as (c1 & c2 & Hc).
    rewrite Hc in Hnp4. apply next_path_lookup in Hnp4.
    destruct (heads m4 !! z); [eauto|done]. }
  apply wp_bind, wp_store_prev_at; [apply Hsome4; elem_here|].
  intros m5 Hnext5 Hprev5 Hother5 Hs5.
  apply wp_store_next_at.
  { rewrite Hother5 by (intros ->; done).
    apply Hsome4. by apply list_elem_of_further. }
  intros m6 Hprev6 Hnext6 Hother6 Hs6.
  assert (Hsame : same_payloads m m6).
  { repeat (eapply same_payloads_trans; [|eassumption]). done. }
  exists ps'. split_and!.
  - eapply queue_relink; [exact Hq| |done|done].
    apply ring_halves. split; [done|]. split.
    + change (head :: ps') with ([head] ++ ps'). rewrite Hps', app_assoc.
      apply next_path_snoc. split; [|done].
      change (head :: ps') with ([head] ++ ps') in Hnp4.
      rewrite Hps', app_assoc in Hnp4. apply next_path_snoc in Hnp4 as [Hnp4 _].
      eapply next_path_ext; [|exact Hnp4]. intros z Hz.
      rewrite Hother6; [apply Hnext5|]. intros ->.
      rewrite Hps' in Hnd'. change (head :: ps0' ++ [tl']) with
        ([head] ++ ps0' ++ [tl']) in Hnd'. rewrite app_assoc in Hnd'.
      apply NoDup_app in Hnd' as (_ & Hdisj & _). apply (Hdisj tl' Hz). elem_here.
    + rewrite Hlast'. simpl. split.
      * by rewrite Hprev6.
      * destruct Hpp4 as [_ Hpp4]. eapply prev_path_ext; [|exact Hpp4].
        intros z Hz. rewrite Hprev6. rewrite Hother5; [done|]. by intros ->.
  - by apply (sorted_of_same m m1).
  - done.
  - intros z Hz.
    assert (Hzh : z <> head) by (intros ->; apply Hz; elem_here).
    assert (Hzps : z ∉ ps) by (intros Hin; by apply Hz, list_elem_of_further).
    assert (Hzps' : z ∉ ps') by by rewrite Hperm.
    rewrite Hother6 by (intros ->; done).
    rewrite Hother5 by done.
    rewrite Hf4 by (intros [->|Hin]%elem_of_cons; done).
    rewrite Hother3 by done. rewrite Hf2 by done.
    apply Hother1. by intros ->.
  - lia.
Qed.

Lemma q_sort_null rtl fuel m : q_sort rtl fuel NULL m = Ok tt m.
Proof. done. Qed.

(** ** Stability *)

Lemma precedes_sublist {A} (l k : list A) x y :
  l `sublist_of` k -> precedes l x y -> precedes k x y.
Proof.
  intros Hsub (l1 & l2 & l3 & ->).
  apply sublist_app_l in Hsub as (k1 & k2 & -> & _ & Hsub).
  apply sublist_cons_l in Hsub as (k3 & k4 & -> & Hsub).
  apply sublist_app_l in Hsub as (k5 & k6 & -> & _ & Hsub).
  apply sublist_cons_l in Hsub as (k7 & k8 & -> & _).
  exists (k1 ++ k3), (k5 ++ k7), k8. by rewrite <- !app_assoc.
Qed.

Lemma precedes_filter {A} (P : A -> Prop) `{!forall x, Decision (P x)} l x y :
  P x -> P y -> precedes l x y -> precedes (filter P l) x y.
Proof.
  intros Hx Hy (l1 & l2 & l3 & ->).
  exists (filter P l1), (filter P l2), (filter P l3).
  rewrite filter_app, filter_cons, decide_True by done.
  by rewrite filter_app, filter_cons, decide_True by done.
Qed.

(** A stable rearrangement keeps equal elements in their order. *)
Lemma stable_precedes {A} (eqb : A -> A -> bool) l l' x y :
  stable eqb l l' -> eqb x x = true -> eqb x y = true ->
  precedes l x y -> precedes l' x y.
Proof.
  intros Hst Hxx Hxy Hp.
  apply (precedes_sublist (filter (fun z => eqb x z = true) l')).
  - apply sublist_filter.
  - rewrite Hst. by apply precedes_filter.
Qed.

Lemma merged_tie {A} (leb : A -> A -> bool) x a y b :
  leb x y = true -> merged leb (x :: a) (y :: b) = x :: merged leb a (y :: b).
Proof. intros H. by rewrite merged_cons, H. Qed.

Lemma sorted_of_ascending m m' ps ps' :
  sorted_of m ps ps' -> same_payloads m m' -> ascending (contents m' ps').
Proof.
  intros (_ & Hs & _) Hsame. rewrite (contents_same _ _ _ Hsame).
  apply sorted_ascending. by apply StronglySorted_Sorted.
Qed.

Lemma sorted_of_contents m m' ps ps' :
  sorted_of m ps ps' -> same_payloads m m' ->
  contents m' ps' ≡ₚ contents m ps.
Proof.
  intros (Hperm & _ & _) Hsame. rewrite (contents_same _ _ _ Hsame).
  unfold contents. by rewrite Hperm.
Qed.

(** ** Creating and destroying a queue *)

Lemma q_new_run m a :
  a <> NULL ->
  q_new (Some a) m = Ok a (set_heads m (<[a := LH a a]> (heads m))).
Proof.
  intros Ha. unfold q_new, bind. simpl.
  destruct (N.eqb_spec a NULL) as [|_]; [done|].
  unfold INIT_LIST_HEAD, bind, store_next, store_prev. simpl.
  rewrite lookup_insert_eq. simpl. rewrite lookup_insert_eq. simpl.
  by rewrite !insert_insert_eq.
Qed.

Lemma ring_empty lk a : lk !! a = Some (LH a a) -> ring lk a [].
Proof.
  intros Ha. split; [apply NoDup_singleton|]. simpl. by rewrite Ha.
Qed.

(** Storage that is not live belongs to no queue. *)
Lemma queue_not_live m head ps a :
  queue m head ps -> heads m !! a = None -> a ∉ head :: ps.
Proof.
  intros Hq Ha [h Hh]%(ring_lookup _ _ _ _ (queue_ring _ _ _ Hq)). congruence.
Qed.

Lemma queue_frame m m' head ps :
  queue m head ps -> same_payloads m m' ->
  (forall x, x ∈ head :: ps -> heads m' !! x = heads m !! x) ->
  queue m' head ps.
Proof.
  intros Hq Hs Hf. eapply queue_relink; try done.
  eapply ring_ext; [exact Hf|]. apply Hq.
Qed.

Lemma q_size_empty fuel m head :
  queue m head [] -> q_size fuel head m = Ok 0%Z m.
Proof.
  intros Hq. unfold q_size. rewrite (queue_head_nonnull _ _ _ Hq).
  pose proof (ring_head _ _ _ (queue_ring _ _ _ Hq)) as Hh. simpl in Hh.
  unfold bind, list_empty, bind, load_next. rewrite Hh. simpl.
  by rewrite N.eqb_refl.
Qed.

(** The walk of [q_free] releases the elements [todo] that are left; [n] is
    one node ahead of the cursor. *)
Lemma q_free_loop_spec fuel : forall m l todo n,
  next_path (heads m) todo l -> is_Some (heads m !! l) ->
  NoDup (l :: todo) -> Forall (element m) todo ->
  NoDup (value_of m <$> todo) ->
  (todo <> [] -> n = hd l (tail todo)) ->
  (length todo < fuel)%nat ->
  wp (q_free_loop fuel l (hd l todo) n) m (fun _ m' =>
    (forall y, heads m' !! y
               = if decide (y ∈ todo) then None else heads m !! y) /\
    (forall y, values m' !! y
               = if decide (y ∈ todo) then None else values m !! y) /\
    (forall v, chars m' !! v
               = if decide (v ∈ value_of m <$> todo) then None
                 else chars m !! v)).
Proof.
  induction fuel as [|fuel IH]; intros m l todo n Hp Hl Hnd He Ho Hn Hfuel; [lia|].
  cbn [q_free_loop]. destruct todo as [|x t].
  { cbn [hd]. rewrite N.eqb_refl. apply wp_ret.
    split_and!; intros y; case_decide as Hin; try done;
      by apply elem_of_nil in Hin. }
  cbn [hd]. specialize (Hn ltac:(done)). cbn [tail] in Hn. subst n.
  apply NoDup_cons in Hnd as [Hlx Hnd].
  pose proof Hnd as [Hxt Hndt]%NoDup_cons.
  assert (Hxl : x <> l). { intros ->. apply Hlx. elem_here. }
  destruct (N.eqb_spec x l) as [|_]; [done|].
  apply Forall_cons in He as [Hex He].
  rewrite fmap_cons in Ho. apply NoDup_cons in Ho as [Hvx Ho].
  destruct Hp as [Hx Hp].
  assert (Hxlive : is_Some (heads m !! x)).
  { destruct (heads m !! x); [eauto|done]. }
  eapply wp_seq; [by apply q_release_element_spec|].
  intros _ m1 ->. set (m1 := Mem _ _ _).
  assert (Hval : forall p, p ∈ t -> values m1 !! p = values m !! p).
  { intros p Hp'. simpl. apply lookup_delete_ne. by intros ->. }
  assert (Hvo : forall p, p ∈ t -> value_of m1 p = value_of m p).
  { intros p Hp'. unfold value_of. by rewrite Hval. }
  assert (Hvos : value_of m1 <$> t = value_of m <$> t).
  { apply list_fmap_ext. intros _ p Hp'%list_elem_of_lookup_2. by apply Hvo. }
  assert (Hp1 : next_path (heads m1) t l).
  { clear -Hp Hxt. revert Hp Hxt. induction t as [|y t IHt]; [done|].
    intros [Hy Hp] Hxt. split.
    - simpl. rewrite lookup_delete_ne; [done|]. intros ->. apply Hxt. elem_here.
    - apply IHt; [done|]. intros Hin. apply Hxt. by apply list_elem_of_further. }
  assert (Hl1 : is_Some (heads m1 !! l)).
  { simpl. by rewrite lookup_delete_ne. }
  assert (Hnext : exists h, heads m1 !! hd l t = Some h /\
                            (t <> [] -> next h = hd l (tail t))).
  { destruct t as [|y t']; simpl.
    - destruct Hl1 as [h Hh]. exists h. by split.
    - destruct Hp1 as [Hy _]. simpl in Hy.
      destruct (delete x (heads m) !! y) as [h|] eqn:Hh; [|done].
      exists h. split; [done|]. intros _. simpl in Hy. congruence. }
  destruct Hnext as (h & Hh & Hhn).
  wp_step Hh. unfold list_entry.
  eapply wp_mono.
  - apply (IH m1 l t (next h)); try done.
    + apply NoDup_cons. split; [|done].
      intros Hin. apply Hlx. by apply list_elem_of_further.
    + apply Forall_forall. intros p Hp'.
      rewrite Forall_forall in He. specialize (He p Hp').
      destruct (element_value _ _ He) as (v & s & Hv & Hvn & Hs & Hvp & _).
      unfold element. rewrite Hval, Hv by done. split; [done|].
      simpl. rewrite lookup_delete_ne; [by rewrite Hs|].
      intros Heq. apply Hvx. rewrite Heq, <- Hvp.
      apply list_elem_of_fmap. eauto.
    + by rewrite Hvos.
    + simpl in Hfuel. lia.
  - intros _ m' (Hh' & Hv' & Hc'). rewrite Hvos in Hc'. split_and!.
    + intros y. rewrite Hh'. simpl.
      destruct (decide (y = x)) as [->|Hyx].
      * rewrite lookup_delete_eq. rewrite (decide_True (P := x ∈ x :: t)) by elem_here.
        by destruct (decide (x ∈ t)).
      * rewrite lookup_delete_ne by done.
        destruct (decide (y ∈ t)) as [Hin|Hin].
        -- by rewrite decide_True by by apply list_elem_of_further.
        -- rewrite decide_False; [done|].
           by intros [?|?]%elem_of_cons.
    + intros y. rewrite Hv'. simpl.
      destruct (decide (y = x)) as [->|Hyx].
      * rewrite lookup_delete_eq. rewrite (decide_True (P := x ∈ x :: t)) by elem_here.
        by destruct (decide (x ∈ t)).
      * rewrite lookup_delete_ne by done.
        destruct (decide (y ∈ t)) as [Hin|Hin].
        -- by rewrite decide_True by by apply list_elem_of_further.
        -- rewrite decide_False; [done|].
           by intros [?|?]%elem_of_cons.
    + intros v. rewrite Hc'. unfold m1. cbn [chars].
      change (list_fmap ptr ptr (value_of m) t) with (value_of m <$> t).
      destruct (decide (v = value_of m x)) as [->|Hvx'].
      * rewrite lookup_delete_eq.
        rewrite (decide_True (P := value_of m x ∈ value_of m x :: _)) by elem_here.
        by destruct (decide (value_of m x ∈ value_of m <$> t)).
      * rewrite lookup_delete_ne by done.
        destruct (decide (v ∈ value_of m <$> t)) as [Hin|Hin].
        -- by rewrite decide_True by by apply list_elem_of_further.
        -- rewrite decide_False; [done|].
           by intros [?|?]%elem_of_cons.
Qed.

(** [q_free] leaves nothing of the queue and touches nothing else. *)
Lemma q_free_spec m head ps fuel :
  queue m head ps -> (length ps < fuel)%nat ->
  wp (q_free fuel head) m (fun _ m' => without_queue m head ps m').
Proof.
  intros Hq Hfuel. pose proof Hq as [Hr Hnn He Ho].
  pose proof (proj1 (ring_halves _ _ _) Hr) as (Hnd & Hnp & _).
  destruct Hnp as [Hhn Hnp].
  pose proof (ring_head _ _ _ Hr) as Hh.
  unfold q_free. rewrite (queue_head_nonnull _ _ _ Hq).
  wp_step Hh. unfold list_entry.
  assert (Hpn : exists h, heads m !! hd head ps = Some h /\
                          (ps <> [] -> next h = hd head (tail ps))).
  { destruct ps as [|x t]; simpl.
    - eexists. split; [exact Hh|done].
    - destruct Hnp as [Hx _]. destruct (heads m !! x) as [h|] eqn:Hx'; [|done].
      exists h. split; [done|]. intros _. simpl in Hx. congruence. }
  destruct Hpn as (h & Hh' & Hhn').
  wp_step Hh'.
  eapply wp_seq.
  { by apply (q_free_loop_spec fuel m head ps (next h)). }
  intros _ m1 (Hh1 & Hv1 & Hc1). simpl.
  apply NoDup_cons in Hnd as [Hhps _].
  assert (Hlive : heads m1 !! head = Some (LH (hd head ps) (List.last ps head))).
  { by rewrite Hh1, decide_False. }
  eexists tt, _. unfold free_head. rewrite Hlive. split; [done|].
  unfold without_queue. split_and!; simpl; try done.
  intros y. destruct (decide (y = head)) as [->|Hy].
  - rewrite lookup_delete_eq. by rewrite decide_True by elem_here.
  - rewrite lookup_delete_ne, Hh1 by done.
    destruct (decide (y ∈ ps)) as [Hin|Hin].
    + by rewrite decide_True by by apply list_elem_of_further.
    + rewrite decide_False; [done|]. by intros [?|?]%elem_of_cons.
Qed.

Lemma q_free_null fuel m : q_free fuel NULL m = Ok tt m.
Proof. done. Qed.

Lemma without_queue_unique m head ps m1 m2 :
  without_queue m head ps m1 -> without_queue m head ps m2 -> m1 = m2.
Proof.
  intros (Hh1 & Hv1 & Hc1) (Hh2 & Hv2 & Hc2).
  destruct m1 as [h1 v1 c1], m2 as [h2 v2 c2]. simpl in *. f_equal.
  - apply map_eq. intros y. by rewrite Hh1, Hh2.
  - apply map_eq. intros y. by rewrite Hv1, Hv2.
  - apply map_eq. intros y. by rewrite Hc1, Hc2.
Qed.

(** ** The sorted order is unique *)

(** A stable sort has one possible result. *)
Lemma stable_sort_unique {A} (le : relation A) (eqb : A -> A -> bool) l l' :
  (forall x, eqb x x = true) ->
  (forall x y, le x y -> le y x -> eqb x y = true) ->
  l' ≡ₚ l -> StronglySorted le l -> StronglySorted le l' ->
  stable eqb l l' -> l' = l.
Proof.
  intros Hrefl Hanti. revert l'.
  induction l as [|x r IH]; intros l' Hp Hs Hs' Hst.
  { by apply Permutation_nil_r in Hp. }
  destruct l' as [|y r'].
  { symmetry in Hp. by apply Permutation_nil_r in Hp. }
  apply StronglySorted_inv in Hs as [Hs Hx].
  apply StronglySorted_inv in Hs' as [Hs' Hy].
  rewrite Forall_forall in Hx, Hy.
  assert (Hxy : eqb x y = true).
  { assert (Hyin : y ∈ x :: r) by (rewrite <- Hp; elem_here).
    assert (Hxin : x ∈ y :: r') by (rewrite Hp; elem_here).
    apply elem_of_cons in Hyin as [->|Hyin]; [done|].
    apply elem_of_cons in Hxin as [->|Hxin]; [done|].
    apply Hanti; auto. }
  assert (y = x) as ->.
  { pose proof (Hst x) as Hf. rewrite !filter_cons in Hf.
    rewrite (decide_True (P := eqb x y = true)) in Hf by done.
    rewrite (decide_True (P := eqb x x = true)) in Hf by done.
    by injection Hf. }
  f_equal. apply IH; try done.
  - by apply Permutation_cons_inv in Hp.
  - intros k. specialize (Hst k). rewrite !filter_cons in Hst.
    destruct (decide (eqb k x = true)); [by injection Hst|done].
Qed.

Lemma sorted_of_unique m ps ps1 ps2 :
  sorted_of m ps ps1 -> sorted_of m ps ps2 -> ps1 = ps2.
Proof.
  intros (Hp1 & Hs1 & Hst1) (Hp2 & Hs2 & Hst2).
  apply (stable_sort_unique (payload_le m) (same_payload m)); try done.
  - apply same_payload_refl.
  - intros x y Hxy Hyx. by apply same_payload_le.
  - by rewrite Hp1, Hp2.
  - intros k. by rewrite Hst1, Hst2.
Qed.

Lemma sorted_of_sorted m ps ps' :
  StronglySorted (payload_le m) ps -> sorted_of m ps ps' -> ps' = ps.
Proof.
  intros Hs Hso. apply (sorted_of_unique m ps); [done|].
  split; [done|]. split; [done|]. by intros k.
Qed.

Lemma mem_eq m m' : heads m' = heads m -> same_payloads m m' -> m' = m.
Proof. destruct m, m'. simpl. intros -> [Hv Hc]. simpl in *. by subst. Qed.

(** ** Sorting what is sorted, sorting twice, and the order of evaluation *)

Lemma q_sort_sorted rtl m head ps fuel :
  queue m head ps -> (Z.of_nat (length ps) <= INT_MAX)%Z ->
  (S (length ps) < fuel)%nat ->
  StronglySorted (payload_le m) ps ->
  q_sort rtl fuel head m = Ok tt m.
Proof.
  intros Hq Hmax Hfuel Hs.
  destruct (q_sort_spec rtl m head ps fuel Hq Hmax Hfuel)
    as ([] & m' & Hrun & ps' & Hq' & Hso & Hsame & Hf & _).
  rewrite (sorted_of_sorted _ _ _ Hs Hso) in Hq'.
  rewrite Hrun. f_equal. apply mem_eq; [|done].
  apply (ring_heads_eq m m' head ps); [apply Hq|apply Hq'|done].
Qed.

Lemma sorted_of_sorted_after m m' ps ps' :
  sorted_of m ps ps' -> same_payloads m m' ->
  StronglySorted (payload_le m') ps'.
Proof.
  intros (_ & Hs & _) Hsame.
  eapply (StronglySorted_fmap id) in Hs; [by rewrite list_fmap_id in Hs|].
  intros x y. unfold payload_le. by rewrite !(payload_same _ _ _ Hsame).
Qed.

Lemma q_sort_either rtl1 rtl2 m head ps fuel :
  queue m head ps -> (Z.of_nat (length ps) <= INT_MAX)%Z ->
  (S (length ps) < fuel)%nat ->
  q_sort rtl1 fuel head m = q_sort rtl2 fuel head m.
Proof.
  intros Hq Hmax Hfuel.
  destruct (q_sort_spec rtl1 m head ps fuel Hq Hmax Hfuel)
    as ([] & m1 & Hrun1 & ps1 & Hq1 & Hso1 & Hsame1 & Hf1 & _).
  destruct (q_sort_spec rtl2 m head ps fuel Hq Hmax Hfuel)
    as ([] & m2 & Hrun2 & ps2 & Hq2 & Hso2 & Hsame2 & Hf2 & _).
  rewrite Hrun1, Hrun2. f_equal.
  rewrite <- (sorted_of_unique _ _ _ _ Hso1 Hso2) in Hq2.
  apply mem_eq.
  - apply (ring_heads_eq m2 m1 head ps1); [apply Hq2|apply Hq1|].
    intros y Hy.
    assert (Hy' : y ∉ head :: ps).
    { intros [->|Hin]%elem_of_cons; apply Hy; [elem_here|].
      apply list_elem_of_further. destruct Hso1 as [Hp _]. by rewrite Hp. }
    by rewrite Hf1, Hf2.
  - destruct Hsame1 as [Hv1 Hc1], Hsame2 as [Hv2 Hc2].
    split; congruence.
Qed.

(** ** More on the deletion of duplicates *)

(** Which elements survive: those that differ from the element before and
    from the element after. *)
Lemma isolated_lookup {A} (eqb : A -> A -> bool) pv l i x :
  NoDup l -> l !! i = Some x ->
  x ∈ isolated eqb pv l <->
  (forall q, match i with O => pv | S j => l !! j end = Some q ->
             eqb q x = false) /\
  (forall q, l !! S i = Some q -> eqb x q = false).
Proof.
  revert pv i. induction l as [|y r IH]; intros pv i Hnd Hi; [done|].
  apply NoDup_cons in Hnd as [Hy Hnd].
  destruct i as [|i]; simpl in Hi.
  - injection Hi as ->.
    assert (Hx : x ∉ isolated eqb (Some x) r).
    { intros Hin. apply Hy. eapply elem_of_sublist; [done|].
      apply isolated_sublist. }
    cbn [isolated].
    set (sp := match pv with Some p => eqb p x | None => false end).
    set (sn := match r with z :: _ => eqb x z | [] => false end).
    assert (Hsp : sp = false <-> forall q, pv = Some q -> eqb q x = false).
    { unfold sp. destruct pv as [p|]; [|done]. split.
      - by intros Hp q [= <-].
      - intros H. by apply H. }
    assert (Hsn : sn = false <->
                  forall q, (x :: r) !! 1%nat = Some q -> eqb x q = false).
    { unfold sn. destruct r as [|z r']; [done|]. simpl. split.
      - by intros Hp q [= <-].
      - intros H. by apply H. }
    rewrite <- Hsp, <- Hsn.
    destruct sp, sn; simpl; split; try done; try (by intros [? ?]);
      intros _; elem_here.
  - assert (Hxy : x <> y).
    { intros ->. apply Hy. by eapply list_elem_of_lookup_2. }
    assert (Hin : x ∈ isolated eqb pv (y :: r) <-> x ∈ isolated eqb (Some y) r).
    { cbn [isolated]. destruct (_ || _); [done|].
      rewrite (elem_of_cons _ x y). naive_solver. }
    rewrite Hin, (IH (Some y) i Hnd Hi).
    destruct i as [|i]; simpl; done.
Qed.

Lemma adjacent_distinct_tail a l :
  adjacent_distinct (a :: l) -> adjacent_distinct l.
Proof. intros H i x y Hx Hy. by apply (H (S i)). Qed.

(** Where no two neighbours hold equal payloads there is nothing to
    delete. *)
Lemma isolated_distinct m pv ps :
  match pv, ps with
  | Some p, x :: _ => same_payload m p x = false
  | _, _ => True
  end ->
  adjacent_distinct (contents m ps) ->
  isolated (same_payload m) pv ps = ps.
Proof.
  revert pv. induction ps as [|x r IH]; intros pv Hpv Had; [done|].
  cbn [isolated].
  assert (Hp : match pv with Some p => same_payload m p x | None => false end
               = false).
  { by destruct pv. }
  assert (Hn : match r with y :: _ => same_payload m x y | [] => false end
               = false).
  { destruct r as [|y r']; [done|]. by apply (Had 0%nat). }
  rewrite Hp, Hn. simpl. f_equal. apply IH.
  - destruct r as [|y r']; [done|]. by apply (Had 0%nat).
  - by eapply adjacent_distinct_tail.
Qed.

Lemma dup_inner_stop fuel m head l1 start rest prv :
  queue m head (l1 ++ start :: rest) ->
  starts_off (same_payload m) start rest ->
  dup_inner (S fuel) head start start (hd head rest) (hd head rest) prv m
  = Ok (hd head rest, prv) m.
Proof.
  intros Hq Hoff. cbn [dup_inner].
  replace (l1 ++ start :: rest) with ((l1 ++ [start]) ++ rest) in Hq
    by by rewrite <- app_assoc.
  rewrite (queue_hd_empty _ _ _ _ Hq).
  destruct rest as [|y r].
  { by rewrite bool_decide_eq_true_2. }
  rewrite bool_decide_eq_false_2 by done. cbn [hd].
  assert (Hes : element m start).
  { apply (queue_element _ _ _ _ Hq). apply elem_of_app. left.
    apply elem_of_app. right. elem_here. }
  assert (Hey : element m y).
  { apply (queue_element _ _ _ _ Hq). apply elem_of_app. right. elem_here. }
  destruct (element_value _ _ Hes) as (v1 & s1 & Hv1 & _ & Hs1 & _ & Hp1).
  destruct (element_value _ _ Hey) as (v2 & s2 & Hv2 & _ & Hs2 & _ & Hp2).
  unfold list_entry, bind, load_value, load_chars.
  rewrite Hv1, Hs1, Hv2, Hs2.
  simpl in Hoff. unfold same_payload, str_eqb in Hoff.
  rewrite Hp1, Hp2 in Hoff. by rewrite Hoff.
Qed.

Lemma dup_outer_distinct fuel : forall m head l1 rest end_,
  queue m head (l1 ++ rest) ->
  (end_ =? head)%N = bool_decide (rest = []) ->
  (length rest < fuel)%nat ->
  adjacent_distinct (contents m rest) ->
  dup_outer fuel head (hd head rest) end_ NULL m = Ok tt m.
Proof.
  induction fuel as [|fuel IH]; intros m head l1 rest end_ Hq Hend Hfuel Had; [lia|].
  cbn [dup_outer]. rewrite Hend.
  destruct rest as [|x r].
  { by rewrite bool_decide_eq_true_2. }
  rewrite bool_decide_eq_false_2 by done. cbn [hd].
  pose proof (ring_elem _ _ _ _ _ (queue_ring _ _ _ Hq)) as Hx.
  unfold bind at 1, load_next. rewrite Hx. cbn [next]. unfold list_entry.
  destruct fuel as [|fuel]; [simpl in Hfuel; lia|].
  unfold bind at 1. rewrite (dup_inner_stop fuel m head l1 x r NULL Hq).
  2:{ destruct r as [|y r']; [done|]. by apply (Had 0%nat). }
  unfold bind at 1. rewrite N.eqb_refl. unfold ret at 1.
  replace (l1 ++ x :: r) with ((l1 ++ [x]) ++ r) in Hq by by rewrite <- app_assoc.
  apply (IH m head (l1 ++ [x]) r); try done.
  - by apply (queue_hd_empty m head (l1 ++ [x]) r).
  - simpl in Hfuel. lia.
  - by eapply adjacent_distinct_tail.
Qed.

Lemma q_delete_dup_distinct m head ps fuel :
  queue m head ps -> (length ps < fuel)%nat ->
  adjacent_distinct (contents m ps) ->
  q_delete_dup fuel head m = Ok true m.
Proof.
  intros Hq Hfuel Had. pose proof (queue_ring _ _ _ Hq) as Hr.
  unfold q_delete_dup. rewrite (queue_head_nonnull _ _ _ Hq).
  pose proof (ring_head _ _ _ Hr) as Hh.
  unfold bind at 1, list_empty, bind at 1, load_next. rewrite Hh. cbn [next].
  unfold ret at 1.
  rewrite (queue_hd_empty m head [] ps Hq).
  destruct ps as [|x ps].
  { by rewrite bool_decide_eq_true_2. }
  rewrite bool_decide_eq_false_2 by done.
  unfold bind at 1, load_next. rewrite Hh. cbn [next hd].
  unfold bind.
  pose proof (dup_outer_distinct fuel m head [] (x :: ps) NULL Hq) as Hrun.
  cbn [hd] in Hrun. rewrite Hrun; try done.
  transitivity false; [|symmetry; by apply bool_decide_eq_false_2].
  apply N.eqb_neq. intros Heq. apply (queue_nonnull _ _ _ Hq).
  rewrite Heq. elem_here.
Qed.

(** ** Payloads that occur once *)

Lemma occurrences_perm {A} (eqb : A -> A -> bool) x l l' :
  l ≡ₚ l' -> occurrences eqb x l = occurrences eqb x l'.
Proof. intros Hp. unfold occurrences. by rewrite Hp. Qed.

Lemma lookup_precedes {A} (l : list A) i j x y :
  (i < j)%nat -> l !! i = Some x -> l !! j = Some y -> precedes l x y.
Proof.
  intros Hij Hi Hj.
  rewrite <- (take_drop_middle l i x Hi) in Hj.
  rewrite lookup_app_r in Hj by (rewrite length_take; lia).
  assert (Hlen : (i < length l)%nat) by by eapply lookup_lt_Some.
  rewrite length_take in Hj.
  replace (j - i `min` length l)%nat with (S (j - S i)) in Hj by lia.
  simpl in Hj.
  exists (take i l), (take (j - S i) (drop (S i) l)),
         (drop (S (j - S i)) (drop (S i) l)).
  rewrite (take_drop_middle _ _ _ Hj). by rewrite take_drop_middle.
Qed.

Lemma once_strict m ps :
  StronglySorted (payload_le m) ps ->
  strictly_ascending
    (payload m <$> filter (fun p =>
       occurrences str_eqb (payload m p) (contents m ps) = 1%nat) ps).
Proof.
  intros Hs i j a b Hij Ha Hb.
  apply list_lookup_fmap_Some in Ha as (x & -> & Hx).
  apply list_lookup_fmap_Some in Hb as (y & -> & Hy).
  pose proof (lookup_precedes _ _ _ _ _ Hij Hx Hy) as Hp.
  apply (precedes_sublist _ ps) in Hp; [|apply sublist_filter].
  destruct Hp as (l1 & l2 & l3 & Hps).
  apply list_elem_of_lookup_2, list_elem_of_filter in Hx as [Hone _].
  assert (Hle : payload_le m x y).
  { rewrite Hps in Hs. apply StronglySorted_app_1_r in Hs.
    apply StronglySorted_inv in Hs as [_ Hall]. rewrite Forall_forall in Hall.
    apply Hall. apply elem_of_app. right. elem_here. }
  assert (Hne : str_eqb (payload m x) (payload m y) = false).
  { destruct (str_eqb (payload m x) (payload m y)) eqn:He; [|done].
    exfalso. rewrite Hps in Hone. unfold contents in Hone.
    rewrite fmap_app, fmap_cons, fmap_app, fmap_cons in Hone.
    rewrite occurrences_app, occurrences_cons, occurrences_app,
      occurrences_cons in Hone.
    rewrite str_eqb_refl, He in Hone. lia. }
  unfold payload_le, str_le in Hle. unfold str_eqb in Hne.
  apply Z.eqb_neq in Hne. lia.
Qed.

Lemma strictly_adjacent l : strictly_ascending l -> adjacent_distinct l.
Proof.
  intros Hs i a b Ha Hb. unfold str_eqb. apply Z.eqb_neq.
  specialize (Hs i (S i) a b ltac:(lia) Ha Hb). lia.
Qed.

(** ** Insertion followed by removal *)

Section InsertRemove.
Variable link : ptr -> ptr -> M unit.
Variable place : ptr -> list ptr -> list ptr.
Hypothesis place_perm : forall e ps, place e ps ≡ₚ e :: ps.
Hypothesis link_spec : forall m head ps n hn,
  ring (heads m) head ps -> n ∉ head :: ps -> heads m !! n = Some hn ->
  wp (link n head) m (fun _ m' =>
    ring (heads m') head (place n ps) /\
    heads_frame (n :: head :: ps) m m' /\ same_payloads m m').

(** A successful insertion, with what it leaves outside the ring. *)
Lemma q_insert_linked m head ps s e v :
  queue m head ps ->
  e <> NULL -> heads m !! e = None -> values m !! e = None ->
  v <> NULL -> chars m !! v = None ->
  exists m', q_insert_with link head s (Some e) (Some v) m = Ok true m' /\
    queue m' head (place e ps) /\
    heads_frame (e :: head :: ps) m m' /\
    values m' = <[e := v]> (values m) /\
    chars m' = <[v := cstr s]> (chars m) /\
    (e ∉ head :: ps) /\ is_Some (heads m' !! e).
Proof.
  intros Hq Hen Heh Hev Hvn Hvc.
  unfold q_insert_with. rewrite (queue_head_nonnull _ _ _ Hq).
  unfold bind at 1. simpl.
  destruct (N.eqb_spec e NULL) as [|_]; [done|].
  unfold bind at 1. simpl. unfold bind at 1.
  unfold store_value at 1. simpl. rewrite lookup_insert_eq.
  unfold bind at 1. unfold load_value at 1. simpl.
  rewrite lookup_insert_eq.
  destruct (N.eqb_spec v NULL) as [|_]; [done|].
  destruct (queue_new_element m head ps e v (cstr s) Hq)
    as (Hr & Hne & Hnn & Hel & Hnd & Hpe & Hpo); try done.
  destruct (link_spec _ head ps e (LH NULL NULL) Hr Hne)
    as ([] & m' & Hrun & Hr' & Hf & Hs).
  { simpl. apply lookup_insert_eq. }
  exists m'. pose proof Hs as [Hsv Hsc]. split_and!.
  - unfold bind. by rewrite Hrun.
  - split; [done|..].
    + by rewrite place_perm.
    + rewrite place_perm. eapply Forall_impl; [exact Hel|].
      intros p. by apply element_same.
    + rewrite place_perm. erewrite list_fmap_ext; [exact Hnd|].
      intros _ p _. by apply value_of_same.
  - intros y Hy. rewrite Hf by done. simpl.
    apply lookup_insert_ne. intros ->. apply Hy. elem_here.
  - rewrite Hsv. simpl. by rewrite insert_insert_eq.
  - by rewrite Hsc.
  - done.
  - apply (ring_lookup _ head (place e ps)); [done|].
    apply list_elem_of_further. rewrite place_perm. elem_here.
Qed.

(** Unlinking and releasing the element just inserted gives back the
    memory from before the insertion. *)
Lemma insert_del_release m head ps s e v l1 l2 :
  queue m head ps ->
  e <> NULL -> heads m !! e = None -> values m !! e = None ->
  v <> NULL -> chars m !! v = None ->
  place e ps = l1 ++ e :: l2 -> l1 ++ l2 = ps ->
  exists m1 m2,
    q_insert_with link head s (Some e) (Some v) m = Ok true m1 /\
    queue m1 head (place e ps) /\
    list_del e m1 = Ok tt m2 /\
    q_release_element e m2 = Ok tt m.
Proof.
  intros Hq Hen Heh Hev Hvn Hvc Hpl Hps.
  destruct (q_insert_linked m head ps s e v Hq)
    as (m1 & Hrun & Hq1 & Hf1 & Hv1 & Hc1 & Hne & Hlive); try done.
  exists m1.
  pose proof (queue_ring _ _ _ Hq1) as Hr1. rewrite Hpl in Hr1.
  destruct (ring_del m1 head l1 e l2 Hr1) as ([] & m2 & Hdel & Hr2 & Hf2 & Hs2).
  rewrite Hps in Hr2, Hf2.
  exists m2. split_and!; try done.
  assert (He1 : element m1 e).
  { apply (queue_element _ _ _ _ Hq1). rewrite place_perm. elem_here. }
  assert (He2 : element m2 e) by by eapply element_same.
  assert (Hlive2 : is_Some (heads m2 !! e)) by by rewrite Hf2.
  destruct (q_release_element_spec m2 e He2 Hlive2) as ([] & m3 & Hrel & ->).
  rewrite Hrel. f_equal.
  set (m3 := Mem _ _ _).
  destruct Hs2 as [Hv2 Hc2].
  assert (Hvo : value_of m2 e = v).
  { unfold value_of. by rewrite Hv2, Hv1, lookup_insert_eq. }
  apply mem_eq.
  - apply (ring_heads_eq m m3 head ps); [apply Hq| |].
    + eapply ring_ext; [|exact Hr2]. intros x Hx. simpl.
      apply lookup_delete_ne. by intros ->.
    + intros y Hy. simpl. destruct (decide (y = e)) as [->|Hye].
      * by rewrite lookup_delete_eq.
      * rewrite lookup_delete_ne by done. rewrite Hf2 by done.
        apply Hf1. by intros [?|?]%elem_of_cons.
  - split; simpl.
    + rewrite Hv2, Hv1, delete_insert_eq. by apply delete_id.
    + rewrite Hvo, Hc2, Hc1, delete_insert_eq. by apply delete_id.
Qed.
End InsertRemove.

(** ** What the output buffer reads as *)

Lemma cstr_no_zero s :
  Forall (fun c => c <> Ascii.zero) (String.list_ascii_of_string (cstr s)).
Proof.
  induction s as [|c r IH]; simpl; [done|].
  destruct (decide (c = Ascii.zero)); simpl; [done|]. by apply Forall_cons.
Qed.

Lemma c_string_terminated l rest :
  Forall (fun c => c <> Ascii.zero) l ->
  c_string (l ++ Ascii.zero :: rest) = String.string_of_list_ascii l.
Proof.
  unfold c_string.
  induction 1 as [|c l Hc _ IH]; cbn [app String.string_of_list_ascii cstr].
  - by destruct (decide (Ascii.zero = Ascii.zero)).
  - destruct (decide (c = Ascii.zero)); [done|]. by rewrite IH.
Qed.

(** The buffer reads as the first [n - 1] bytes of the payload. *)
Lemma c_string_copied buf s n :
  c_string (copied buf s n)
  = String.string_of_list_ascii
      (take (n - 1) (String.list_ascii_of_string (cstr s))).
Proof.
  unfold copied.
  set (bytes := String.list_ascii_of_string (cstr s)).
  rewrite take_app, <- app_assoc.
  assert (Hnz : Forall (fun c => c <> Ascii.zero) (take (n - 1) bytes)).
  { apply Forall_take, cstr_no_zero. }
  destruct (take (n - 1 - length bytes)
              (replicate (n - 1 - length bytes) Ascii.zero)) as [|c pad] eqn:Hpad.
  - by apply c_string_terminated.
  - assert (c = Ascii.zero) as ->.
    { assert (Hin : c ∈ take (n - 1 - length bytes)
                      (replicate (n - 1 - length bytes) Ascii.zero))
        by (rewrite Hpad; elem_here).
      apply elem_of_take in Hin as (i & Hi & _).
      by apply lookup_replicate in Hi as [-> _]. }
    simpl. by apply c_string_terminated.
Qed.

Lemma length_bytes s :
  length (String.list_ascii_of_string s) = String.length s.
Proof. induction s as [|c r IH]; simpl; [done|]. by rewrite IH. Qed.

Lemma c_string_fits buf s n :
  (String.length (cstr s) < n)%nat -> c_string (copied buf s n) = cstr s.
Proof.
  intros Hlen. rewrite c_string_copied.
  rewrite take_ge; [apply String.string_of_list_ascii_of_string|].
  rewrite length_bytes. lia.
Qed.

(** ** Swapping twice *)

Lemma swap_pairs_perm {A} (l : list A) : swap_pairs l ≡ₚ l.
Proof.
  induction l as [|a|a b r IH] using pairs_ind; simpl; try done.
  rewrite IH. apply perm_swap.
Qed.

Lemma swap_pairs_involutive {A} (l : list A) : swap_pairs (swap_pairs l) = l.
Proof.
  induction l as [|a|a b r IH] using pairs_ind; simpl; try done.
  by rewrite IH.
Qed.

(** The loop of [q_swap] touches the links of the ring only. *)
Lemma swap_loop_framed fuel : forall m head l1 rest,
  ring (heads m) head (l1 ++ rest) -> (length rest / 2 < fuel)%nat ->
  wp (swap_loop fuel head (hd head rest)) m (fun _ m' =>
    ring (heads m') head (l1 ++ swap_pairs rest) /\
    same_payloads m m' /\
    heads_frame (head :: l1 ++ rest) m m').
Proof.
  induction fuel as [|fuel IH]; intros m head l1 rest Hr Hfuel; [lia|].
  cbn [swap_loop].
  destruct rest as [|a [|b r]].
  - simpl. rewrite N.eqb_refl. by apply wp_ret.
  - simpl. rewrite (ring_hd_not_head _ _ _ _ _ Hr).
    wp_step (ring_elem _ _ _ _ _ Hr). rewrite N.eqb_refl. by apply wp_ret.
  - cbn [hd swap_pairs]. rewrite (ring_hd_not_head _ _ _ _ _ Hr).
    pose proof (ring_elem _ _ _ _ _ Hr) as Ha. simpl in Ha.
    wp_step Ha.
    assert (Hr2 : ring (heads m) head ((l1 ++ [a]) ++ b :: r))
      by by rewrite <- app_assoc.
    rewrite (ring_hd_not_head _ _ _ _ _ Hr2).
    wp_step Ha.
    eapply wp_seq; [by apply ring_del|].
    intros _ m1 (Hr1 & Hf1 & Hs1). simpl.
    assert (Hna : a ∉ head :: l1 ++ b :: r).
    { apply ring_NoDup in Hr. rewrite app_comm_cons in Hr.
      apply NoDup_app in Hr as (_ & Hd & [Hx _]%NoDup_cons).
      intros [Hin|Hin]%(elem_of_app (head :: l1)); [|done].
      apply (Hd a Hin). elem_here. }
    assert (Ha1 : heads m1 !! a = Some (LH b (List.last l1 head))).
    { rewrite Hf1; done. }
    eapply wp_seq; [by eapply ring_add|].
    intros _ m2 (Hr2' & Hf2 & Hs2). simpl.
    replace (l1 ++ b :: a :: r) with ((l1 ++ [b]) ++ a :: r) in Hr2'
      by by rewrite <- app_assoc.
    wp_step (ring_elem _ _ _ _ _ Hr2').
    replace ((l1 ++ [b]) ++ a :: r) with ((l1 ++ [b; a]) ++ r) in Hr2'
      by by rewrite <- !app_assoc.
    eapply wp_mono; [apply (IH _ _ _ _ Hr2')|].
    + cbn [length] in Hfuel.
      replace (S (S (length r))) with (length r + 1 * 2)%nat in Hfuel by lia.
      rewrite Nat.div_add in Hfuel by done. lia.
    + intros _ m' (Hr' & Hs' & Hf'). split_and!.
      * by rewrite <- app_assoc in Hr'.
      * eauto using same_payloads_trans.
      * apply (heads_frame_trans _ m m1 m').
        { eapply heads_frame_mono; [|exact Hf1]. clear. set_solver. }
        apply (heads_frame_trans _ m1 m2 m').
        { eapply heads_frame_mono; [|exact Hf2]. clear. set_solver. }
        eapply heads_frame_mono; [|exact Hf']. clear. set_solver.
Qed.

Lemma q_swap_framed m head ps fuel :
  queue m head ps -> (length ps / 2 < fuel)%nat ->
  wp (q_swap fuel head) m (fun _ m' =>
    queue m' head (swap_pairs ps) /\ same_payloads m m' /\
    heads_frame (head :: ps) m m').
Proof.
  intros Hq Hfuel. pose proof (queue_ring _ _ _ Hq) as Hr.
  unfold q_swap. rewrite (queue_head_nonnull _ _ _ Hq).
  wp_step (ring_head _ _ _ Hr).
  eapply wp_mono; [by apply (swap_loop_framed fuel m head [] ps)|].
  intros _ m' (Hr' & Hs & Hf). split_and!; try done.
  eapply queue_relink; try done. apply swap_pairs_perm.
Qed.

Lemma q_swap_twice m head ps fuel :
  queue m head ps -> (length ps / 2 < fuel)%nat ->
  wp (q_swap fuel head ;;; q_swap fuel head) m (fun _ m' => m' = m).
Proof.
  intros Hq Hfuel.
  eapply wp_seq; [by apply q_swap_framed|].
  intros _ m1 (Hq1 & Hs1 & Hf1). simpl.
  eapply wp_mono.
  { apply (q_swap_framed m1 head (swap_pairs ps) fuel Hq1).
    by rewrite swap_pairs_length. }
  intros _ m2 (Hq2 & Hs2 & Hf2). simpl.
  rewrite swap_pairs_involutive in Hq2.
  apply mem_eq; [|by eapply same_payloads_trans].
  apply (ring_heads_eq m m2 head ps); [apply Hq|apply Hq2|].
  intros y Hy. rewrite Hf2, Hf1; try done.
  intros [->|Hin]%elem_of_cons; apply Hy; [elem_here|].
  apply list_elem_of_further. by rewrite <- (swap_pairs_perm ps).
Qed.

(** ** Storage accounting *)

(** The storage outside the queue is the same before and after a
    successful insertion. *)
Lemma without_queue_insert m m1 head ps ps1 e v s m0 :
  queue m head ps -> ps1 ≡ₚ e :: ps ->
  heads m !! e = None -> values m !! e = None -> chars m !! v = None ->
  e ∉ head :: ps ->
  heads_frame (e :: head :: ps) m m1 ->
  values m1 = <[e := v]> (values m) ->
  chars m1 = <[v := s]> (chars m) ->
  without_queue m1 head ps1 m0 -> without_queue m head ps m0.
Proof.
  intros Hq Hperm Heh Hev Hvc Hne Hf Hv Hc (Hh0 & Hv0 & Hc0).
  assert (Hvo : forall p, p ∈ ps -> value_of m1 p = value_of m p).
  { intros p Hp. unfold value_of. rewrite Hv, lookup_insert_ne; [done|].
    intros ->. apply Hne. by apply list_elem_of_further. }
  assert (Hve : value_of m1 e = v).
  { unfold value_of. by rewrite Hv, lookup_insert_eq. }
  assert (Hvals : forall u, u ∈ value_of m1 <$> ps1 <->
                            u = v \/ u ∈ value_of m <$> ps).
  { intros u. rewrite Hperm, fmap_cons, elem_of_cons, Hve.
    rewrite !list_elem_of_fmap. split.
    - intros [->|(p & -> & Hp)]; [by left|right]. exists p. by rewrite Hvo.
    - intros [->|(p & -> & Hp)]; [by left|right]. exists p. by rewrite Hvo. }
  split_and!.
  - intros y. rewrite Hh0.
    destruct (decide (y ∈ head :: ps)) as [Hin|Hin].
    + rewrite decide_True; [done|].
      apply elem_of_cons in Hin as [->|Hin]; [elem_here|].
      apply list_elem_of_further. rewrite Hperm. by apply list_elem_of_further.
    + destruct (decide (y = e)) as [->|Hye].
      * rewrite decide_True; [done|].
        apply list_elem_of_further. rewrite Hperm. elem_here.
      * rewrite decide_False.
        -- apply Hf. by intros [?|?]%elem_of_cons.
        -- intros [->|Hy]%elem_of_cons; [apply Hin; elem_here|].
           rewrite Hperm in Hy. apply elem_of_cons in Hy as [?|Hy]; [done|].
           apply Hin. by apply list_elem_of_further.
  - intros y. rewrite Hv0.
    destruct (decide (y ∈ ps)) as [Hin|Hin].
    + rewrite decide_True; [done|]. rewrite Hperm.
      by apply list_elem_of_further.
    + destruct (decide (y = e)) as [->|Hye].
      * rewrite decide_True; [done|]. rewrite Hperm. elem_here.
      * rewrite decide_False.
        -- by rewrite Hv, lookup_insert_ne.
        -- rewrite Hperm. by intros [?|?]%elem_of_cons.
  - intros u. rewrite Hc0.
    destruct (decide (u ∈ value_of m <$> ps)) as [Hin|Hin].
    + rewrite decide_True; [done|]. apply Hvals. by right.
    + destruct (decide (u = v)) as [->|Huv].
      * rewrite decide_True; [done|]. apply Hvals. by left.
      * rewrite decide_False.
        -- by rewrite Hc, lookup_insert_ne.
        -- intros [?|?]%Hvals; done.
Qed.

Section InsertFree.
Variable link : ptr -> ptr -> M unit.
Variable place : ptr -> list ptr -> list ptr.
Hypothesis place_perm : forall e ps, place e ps ≡ₚ e :: ps.
Hypothesis link_spec : forall m head ps n hn,
  ring (heads m) head ps -> n ∉ head :: ps -> heads m !! n = Some hn ->
  wp (link n head) m (fun _ m' =>
    ring (heads m') head (place n ps) /\
    heads_frame (n :: head :: ps) m m' /\ same_payloads m m').

(** Destroying the queue after an insertion, successful or not, leaves
    what destroying it before would have left. *)
Lemma insert_free m head ps s a b fuel :
  queue m head ps -> fresh_element m a -> fresh_chars m b ->
  (S (length ps) < fuel)%nat ->
  (q_insert_with link head s a b ;;; q_free fuel head) m = q_free fuel head m.
Proof.
  intros Hq Ha Hb Hfuel.
  destruct (q_insert_spec link place place_perm link_spec m head ps s a b Hq Ha Hb)
    as (r & m1 & Hrun & Hr & Hfalse & _).
  destruct r.
  2:{ unfold bind. rewrite Hrun. by rewrite (Hfalse eq_refl). }
  destruct a as [e|]; [|by destruct Hr as [_ Hr]; discriminate Hr; left].
  destruct b as [v|]; [|by destruct Hr as [_ Hr]; discriminate Hr; right].
  destruct (Ha e eq_refl) as (Hen & Heh & Hev).
  destruct (Hb v eq_refl) as (Hvn & Hvc).
  destruct (q_insert_linked link place place_perm link_spec m head ps s e v Hq)
    as (m1' & Hrun' & Hq1 & Hf1 & Hv1 & Hc1 & Hne & _); try done.
  unfold bind. rewrite Hrun'.
  destruct (q_free_spec m1' head (place e ps) fuel Hq1) as ([] & m2 & Hfree1 & Hw1).
  { rewrite place_perm. simpl. lia. }
  destruct (q_free_spec m head ps fuel Hq) as ([] & m3 & Hfree & Hw); [lia|].
  rewrite Hfree1, Hfree. f_equal.
  apply (without_queue_unique m head ps); [|done].
  by eapply (without_queue_insert m m1' head ps (place e ps) e v (cstr s)).
Qed.
End InsertFree.

(** ** Removal, in full *)

Lemma copy_out_usable m e sp bufsize :
  element m e -> buffer_ok sp bufsize ->
  exists sp', copy_out e sp bufsize m = Ok sp' m /\
    (sp = None -> sp' = None) /\
    (forall buf, sp = Some buf ->
       sp' = Some (copied buf (payload m e) (N.to_nat bufsize))).
Proof.
  intros He Hsp. destruct sp as [buf|].
  - destruct Hsp as [[H1 H2] H3]. unfold SIZE_MAX in H3.
    eexists. split; [apply copy_out_some; [done|lia|lia]|].
    split; [done|]. by intros ? [= <-].
  - exists None. by split.
Qed.

Lemma q_remove_at m head l1 x l2 sp bufsize
    (remove : ptr -> option (list ascii) -> N -> M (ptr * option (list ascii))) :
  queue m head (l1 ++ x :: l2) -> buffer_ok sp bufsize ->
  (forall m', list_del x m = Ok tt m' ->
     remove head sp bufsize m
     = (let* sp' := copy_out x sp bufsize in ret (x, sp')) m') ->
  exists m' sp',
    remove head sp bufsize m = Ok (x, sp') m' /\
    list_del x m = Ok tt m' /\
    queue m' head (l1 ++ l2) /\ same_payloads m m' /\
    element m' x /\ is_Some (heads m' !! x) /\
    (sp = None -> sp' = None) /\
    (forall buf, sp = Some buf ->
       sp' = Some (copied buf (payload m x) (N.to_nat bufsize))).
Proof.
  intros Hq Hsp Hrun.
  destruct (queue_unlink m head l1 x l2 Hq) as ([] & m' & Hdel & Hq' & Hs & He & Hl).
  destruct (copy_out_usable m' x sp bufsize He Hsp) as (sp' & Hcopy & Hnone & Hsome).
  exists m', sp'. split_and!; try done.
  - rewrite (Hrun m' Hdel). unfold bind. by rewrite Hcopy.
  - rewrite Hl. apply (ring_lookup _ head (l1 ++ x :: l2)); [apply Hq|].
    apply list_elem_of_further, elem_of_app. right. elem_here.
  - intros buf Hbuf. rewrite (Hsome buf Hbuf). by rewrite (payload_same _ _ _ Hs).
Qed.

Lemma q_remove_head_at m head x ps sp bufsize :
  queue m head (x :: ps) -> buffer_ok sp bufsize ->
  exists m' sp',
    q_remove_head head sp bufsize m = Ok (x, sp') m' /\
    list_del x m = Ok tt m' /\
    queue m' head ps /\ same_payloads m m' /\
    element m' x /\ is_Some (heads m' !! x) /\
    (sp = None -> sp' = None) /\
    (forall buf, sp = Some buf ->
       sp' = Some (copied buf (payload m x) (N.to_nat bufsize))).
Proof.
  intros Hq Hsp.
  apply (q_remove_at m head [] x ps sp bufsize q_remove_head Hq Hsp).
  intros m' Hdel.
  destruct (q_remove_head_run m head x ps Hq) as (m'' & Hdel' & _ & _ & _ & Hrun).
  rewrite Hdel in Hdel'. injection Hdel' as <-. apply Hrun.
Qed.

Lemma q_remove_tail_at m head x ps sp bufsize :
  queue m head (ps ++ [x]) -> buffer_ok sp bufsize ->
  exists m' sp',
    q_remove_tail head sp bufsize m = Ok (x, sp') m' /\
    list_del x m = Ok tt m' /\
    queue m' head ps /\ same_payloads m m' /\
    element m' x /\ is_Some (heads m' !! x) /\
    (sp = None -> sp' = None) /\
    (forall buf, sp = Some buf ->
       sp' = Some (copied buf (payload m x) (N.to_nat bufsize))).
Proof.
  intros Hq Hsp.
  destruct (q_remove_at m head ps x [] sp bufsize q_remove_tail Hq Hsp)
    as (m' & sp' & H).
  { intros m' Hdel.
    destruct (q_remove_tail_run m head x ps Hq) as (m'' & Hdel' & _ & _ & _ & Hrun).
    rewrite Hdel in Hdel'. injection Hdel' as <-. apply Hrun. }
  rewrite app_nil_r in H. by exists m', sp'.
Qed.

(** Unlinking an element and releasing it. *)
Lemma unlink_release m head l1 x l2 :
  queue m head (l1 ++ x :: l2) ->
  exists m1 m2,
    list_del x m = Ok tt m1 /\ q_release_element x m1 = Ok tt m2 /\
    queue m2 head (l1 ++ l2) /\
    contents m2 (l1 ++ l2) = contents m (l1 ++ l2) /\
    heads m2 !! x = None /\ values m2 !! x = None /\
    chars m2 !! value_of m x = None.
Proof.
  intros Hq.
  destruct (queue_delete m head l1 x l2 (ret tt)
              (fun _ m2 => queue m2 head (l1 ++ l2) /\
                 contents m2 (l1 ++ l2) = contents m (l1 ++ l2) /\
                 heads m2 !! x = None /\ values m2 !! x = None /\
                 chars m2 !! value_of m x = None) Hq)
    as ([] & m2 & Hrun & H).
  { intros m' Hq' Hpay Hh Hv Hc. apply wp_ret. split_and!; try done.
    by apply contents_ext. }
  unfold bind in Hrun.
  destruct (list_del x m) as [[] m1| |] eqn:Hdel; try done.
  destruct (q_release_element x m1) as [[] m2'| |] eqn:Hrel; try done.
  injection Hrun as <-. by exists m1, m2'.
Qed.

Lemma cstr_idemp s : cstr (cstr s) = cstr s.
Proof.
  induction s as [|c r IH]; simpl; [done|].
  destruct (decide (c = Ascii.zero)); simpl; [done|].
  rewrite decide_False by done. by rewrite IH.
Qed.

(** ** The merge and the sort of chains, on their own *)

Lemma sorted_same m m' l :
  same_payloads m m' ->
  StronglySorted (payload_le m) l -> StronglySorted (payload_le m') l.
Proof.
  intros Hsame Hs.
  eapply (StronglySorted_fmap id) in Hs; [by rewrite list_fmap_id in Hs|].
  intros x y. unfold payload_le. by rewrite !(payload_same _ _ _ Hsame).
Qed.

(** With an empty chain on one side the bitwise or of the two pointers is
    the other chain. *)
Lemma merge_two_lists_null fuel l m :
  merge_two_lists (S fuel) NULL l m = Ok l m /\
  merge_two_lists (S fuel) l NULL m = Ok l m.
Proof.
  unfold merge_two_lists. cbn [merge_loop]. split.
  - simpl. unfold ret. by rewrite N.lor_0_l.
  - rewrite N.eqb_refl, andb_false_r. simpl. unfold ret. by rewrite N.lor_0_r.
Qed.

Lemma merge_sort_null rtl fuel m : merge_sort rtl (S fuel) NULL m = Ok NULL m.
Proof. done. Qed.

Lemma merge_sort_single rtl fuel m x :
  chain (heads m) x [x] -> merge_sort rtl (S fuel) x m = Ok x m.
Proof.
  intros (_ & Hnn & Hx & _). cbn [merge_sort].
  destruct (N.eqb_spec x NULL) as [->|_].
  { exfalso. apply Hnn. elem_here. }
  simpl in Hx. unfold bind, load_next.
  destruct (heads m !! x) as [h|]; [|done]. simpl in Hx.
  injection Hx as ->. by rewrite N.eqb_refl.
Qed.

(** ** Storage accounting for the operations that relink or delete *)

(** Every queue has a memory without it: the one [q_free] leaves. *)
Lemma without_queue_exists m head ps :
  queue m head ps -> exists m0, without_queue m head ps m0.
Proof.
  intros Hq.
  destruct (q_free_spec m head ps (S (length ps)) Hq) as ([] & m0 & _ & Hw); [lia|].
  by exists m0.
Qed.

(** When an operation leaves the storage outside the queue as it was,
    destroying the queue after it or before it leaves the same memory. *)
Lemma free_after m m' head ps ps' fuel :
  queue m head ps -> queue m' head ps' ->
  (forall m0, without_queue m head ps m0 -> without_queue m' head ps' m0) ->
  (length ps < fuel)%nat -> (length ps' < fuel)%nat ->
  q_free fuel head m' = q_free fuel head m.
Proof.
  intros Hq Hq' Hacc Hfuel Hfuel'.
  destruct (q_free_spec m head ps fuel Hq Hfuel) as ([] & m0 & Hrun & Hw).
  destruct (q_free_spec m' head ps' fuel Hq' Hfuel') as ([] & m0' & Hrun' & Hw').
  rewrite Hrun, Hrun'. f_equal.
  apply (without_queue_unique m' head ps'); [done|]. by apply Hacc.
Qed.

(** Relinking the elements of a queue. *)
Lemma without_queue_relink m m' head ps ps' m0 :
  ps' ≡ₚ ps -> same_payloads m m' -> heads_frame (head :: ps) m m' ->
  without_queue m head ps m0 -> without_queue m' head ps' m0.
Proof.
  intros Hperm Hs Hf (Hh & Hv & Hc). pose proof Hs as [Hsv Hsc].
  assert (Hvo : value_of m' <$> ps' ≡ₚ value_of m <$> ps).
  { rewrite Hperm. erewrite list_fmap_ext; [reflexivity|].
    intros _ p _. by apply value_of_same. }
  split_and!.
  - intros y. rewrite Hh.
    destruct (decide (y ∈ head :: ps)) as [Hin|Hin].
    + rewrite decide_True; [done|]. by rewrite Hperm.
    + rewrite decide_False; [by rewrite Hf|]. by rewrite Hperm.
  - intros y. rewrite Hv, Hsv.
    destruct (decide (y ∈ ps)) as [Hin|Hin].
    + rewrite decide_True; [done|]. by rewrite Hperm.
    + rewrite decide_False; [done|]. by rewrite Hperm.
  - intros u. rewrite Hc, Hsc.
    destruct (decide (u ∈ value_of m <$> ps)) as [Hin|Hin].
    + rewrite decide_True; [done|]. by rewrite Hvo.
    + rewrite decide_False; [done|]. by rewrite Hvo.
Qed.

(** Unlinking an element and releasing it takes its storage, and nothing
    else, out of the memory. *)
Lemma unlink_release_acc m head l1 x l2 :
  queue m head (l1 ++ x :: l2) ->
  exists m1 m2,
    list_del x m = Ok tt m1 /\ q_release_element x m1 = Ok tt m2 /\
    queue m2 head (l1 ++ l2) /\
    (forall p, p ∈ l1 ++ l2 -> payload m2 p = payload m p) /\
    (forall m0, without_queue m head (l1 ++ x :: l2) m0 ->
                without_queue m2 head (l1 ++ l2) m0).
Proof.
  intros Hq. pose proof Hq as [Hr Hnn He Ho].
  destruct (ring_del m head l1 x l2 Hr) as ([] & m1 & Hdel & Hr1 & Hf1 & Hs1).
  destruct (queue_delete m head l1 x l2 (ret tt)
              (fun _ m2 => queue m2 head (l1 ++ l2) /\
                 forall p, p ∈ l1 ++ l2 -> payload m2 p = payload m p) Hq)
    as ([] & m2 & Hrun & Hq2 & Hpay).
  { intros m' Hq' Hpay _ _ _. by apply wp_ret. }
  unfold bind in Hrun. rewrite Hdel in Hrun.
  destruct (q_release_element x m1) as [[] m2'| |] eqn:Hrel; try done.
  injection Hrun as <-.
  exists m1, m2'. split_and!; try done.
  assert (Hnd : NoDup (head :: l1 ++ x :: l2)) by by apply ring_NoDup in Hr.
  assert (Hx : x ∉ head :: l1 ++ l2).
  { apply NoDup_cons in Hnd as [Hh Hnd].
    apply NoDup_app in Hnd as (H1 & H2 & [H3 H4]%NoDup_cons).
    intros [->|[Hin|Hin]%elem_of_app]%elem_of_cons.
    - apply Hh, elem_of_app. right. elem_here.
    - apply (H2 _ Hin). elem_here.
    - done. }
  assert (Hex : element m1 x).
  { eapply element_same; [done|]. rewrite Forall_forall in He. apply He.
    apply elem_of_app. right. elem_here. }
  assert (Hlive : is_Some (heads m1 !! x)).
  { rewrite Hf1 by done. apply (ring_lookup _ _ _ _ Hr).
    apply list_elem_of_further, elem_of_app. right. elem_here. }
  destruct (q_release_element_spec m1 x Hex Hlive) as ([] & m2 & Hrel' & ->).
  rewrite Hrel in Hrel'. injection Hrel' as ->.
  pose proof Hs1 as [Hsv Hsc].
  assert (Hvx : value_of m1 x = value_of m x) by by apply value_of_same.
  assert (Hbig : forall y, y ∈ head :: l1 ++ x :: l2 <->
                           y = x \/ y ∈ head :: l1 ++ l2).
  { intros y. rewrite !elem_of_cons, !elem_of_app, elem_of_cons. tauto. }
  assert (Hbig' : forall y, y ∈ l1 ++ x :: l2 <-> y = x \/ y ∈ l1 ++ l2).
  { intros y. rewrite !elem_of_app, elem_of_cons. tauto. }
  assert (Hxin : x ∉ l1 ++ l2).
  { intros Hin. apply Hx. by apply list_elem_of_further. }
  set (m2 := Mem _ _ _) in *.
  assert (Hvo : forall p, p ∈ l1 ++ l2 -> value_of m2 p = value_of m p).
  { intros p Hp. unfold value_of, m2. simpl.
    rewrite lookup_delete_ne, Hsv; [done|]. by intros ->. }
  assert (Hvals : forall u, u ∈ value_of m <$> l1 ++ x :: l2 <->
                            u = value_of m x \/ u ∈ value_of m2 <$> l1 ++ l2).
  { intros u. rewrite !list_elem_of_fmap. split.
    - intros (p & -> & [->|Hp]%Hbig'); [by left|right].
      exists p. by rewrite Hvo.
    - intros [->|(p & -> & Hp)].
      + exists x. split; [done|]. apply Hbig'. by left.
      + exists p. rewrite Hvo by done. split; [done|]. apply Hbig'. by right. }
  intros m0 (Hh & Hv & Hc). split_and!.
  - intros y. rewrite Hh.
    destruct (decide (y ∈ head :: l1 ++ l2)) as [Hin|Hin].
    + rewrite decide_True; [done|]. apply Hbig. by right.
    + destruct (decide (y = x)) as [->|Hyx].
      * rewrite decide_True by (apply Hbig; by left).
        unfold m2. simpl. by rewrite lookup_delete_eq.
      * rewrite decide_False by (intros [?|?]%Hbig; done).
        unfold m2. simpl. rewrite lookup_delete_ne by done. by rewrite Hf1.
  - intros y. rewrite Hv.
    destruct (decide (y ∈ l1 ++ l2)) as [Hin|Hin].
    + rewrite decide_True; [done|]. apply Hbig'. by right.
    + destruct (decide (y = x)) as [->|Hyx].
      * rewrite decide_True by (apply Hbig'; by left).
        unfold m2. simpl. by rewrite lookup_delete_eq.
      * rewrite decide_False by (intros [?|?]%Hbig'; done).
        unfold m2. simpl. rewrite lookup_delete_ne by done. by rewrite Hsv.
  - intros u. rewrite Hc.
    destruct (decide (u ∈ value_of m2 <$> l1 ++ l2)) as [Hin|Hin].
    + rewrite decide_True; [done|]. apply Hvals. by right.
    + destruct (decide (u = value_of m x)) as [->|Hux].
      * rewrite decide_True by (apply Hvals; by left).
        unfold m2. simpl. by rewrite Hvx, lookup_delete_eq.
      * rewrite decide_False by (intros [?|?]%Hvals; done).
        unfold m2. simpl. rewrite Hvx, lookup_delete_ne by done.
        by rewrite Hsc.
Qed.

Lemma queue_delete_acc {A} m head l1 x l2 (k : M A) Q :
  queue m head (l1 ++ x :: l2) ->
  (forall m', queue m' head (l1 ++ l2) ->
     (forall p, p ∈ l1 ++ l2 -> payload m' p = payload m p) ->
     (forall m0, without_queue m head (l1 ++ x :: l2) m0 ->
                 without_queue m' head (l1 ++ l2) m0) ->
     wp k m' Q) ->
  wp (list_del x ;;; q_release_element x ;;; k) m Q.
Proof.
  intros Hq Hk.
  destruct (unlink_release_acc m head l1 x l2 Hq)
    as (m1 & m2 & Hdel & Hrel & Hq2 & Hpay & Hacc).
  destruct (Hk m2 Hq2 Hpay Hacc) as (r & m3 & Hrun & HQ).
  exists r, m3. split; [|done]. unfold bind. by rewrite Hdel, Hrel.
Qed.

Lemma q_delete_mid_acc m head ps fuel :
  queue m head ps -> ps <> [] -> (length ps / 2 < fuel)%nat ->
  wp (q_delete_mid fuel head) m (fun r m' =>
    r = true /\
    queue m' head (delete (length ps / 2) ps) /\
    (forall m0, without_queue m head ps m0 ->
                without_queue m' head (delete (length ps / 2) ps) m0)).
Proof.
  intros Hq Hne Hfuel. pose proof (queue_ring _ _ _ Hq) as Hr.
  unfold q_delete_mid. rewrite (queue_head_nonnull _ _ _ Hq).
  apply wp_bind, (list_empty_ring _ _ ps _ Hr).
  rewrite bool_decide_eq_false_2 by done.
  assert (Hlen : (0 < length ps)%nat) by (destruct ps; [done|simpl; lia]).
  assert (Hhd : hd head ps = nth 0 ps head) by by destruct ps.
  wp_step (ring_head _ _ _ Hr). wp_step (ring_head _ _ _ Hr). rewrite Hhd.
  apply wp_bind.
  eapply wp_exec.
  { apply (mid_loop_spec m head ps fuel 0 Hr); lia. }
  set (i := (length ps / 2)%nat).
  assert (Hi : (i < length ps)%nat) by (apply Nat.div_lt; lia).
  unfold list_entry. rewrite delete_take_drop.
  pose proof (nth_middle_split ps head i Hi) as Hsplit.
  rewrite Hsplit in Hq.
  eapply queue_delete_acc; [exact Hq|].
  intros m' Hq' Hpay Hacc. apply wp_ret. split_and!; try done.
  intros m0 Hw. apply Hacc. by rewrite <- Hsplit.
Qed.

(** The loops of [q_delete_dup] again, with the account of the storage. *)
Lemma dup_inner_acc fuel : forall m head l1 start rest prv,
  queue m head (l1 ++ start :: rest) -> (length rest < fuel)%nat ->
  wp (dup_inner fuel head start start (hd head rest) (hd head rest) prv) m
    (fun r m' => exists run rest',
       rest = run ++ rest' /\
       Forall (fun y => same_payload m start y = true) run /\
       starts_off (same_payload m) start rest' /\
       r = (hd head rest', match run with [] => prv | _ :: _ => start end) /\
       queue m' head (l1 ++ start :: rest') /\
       (forall p, p ∈ l1 ++ start :: rest' -> payload m' p = payload m p) /\
       (forall m0, without_queue m head (l1 ++ start :: rest) m0 ->
                   without_queue m' head (l1 ++ start :: rest') m0)).
Proof.
  induction fuel as [|fuel IH]; intros m head l1 start rest prv Hq Hfuel; [lia|].
  cbn [dup_inner].
  replace (l1 ++ start :: rest) with ((l1 ++ [start]) ++ rest) in Hq
    by by rewrite <- app_assoc.
  rewrite (queue_hd_empty _ _ _ _ Hq).
  destruct rest as [|y r].
  { rewrite bool_decide_eq_true_2 by done. apply wp_ret.
    exists [], []. rewrite <- app_assoc in Hq. split_and!; try done. }
  rewrite bool_decide_eq_false_2 by done. cbn [hd].
  assert (Hes : element m start).
  { apply (queue_element _ _ _ _ Hq). apply elem_of_app. left.
    apply elem_of_app. right. elem_here. }
  assert (Hey : element m y).
  { apply (queue_element _ _ _ _ Hq). apply elem_of_app. right. elem_here. }
  apply (wp_element_payload m start); [done|].
  apply (wp_element_payload m y); [done|].
  fold (str_eqb (payload m start) (payload m y)).
  fold (same_payload m start y).
  destruct (same_payload m start y) eqn:Hsy.
  - wp_step (ring_elem _ _ _ _ _ (queue_ring _ _ _ Hq)).
    unfold list_entry.
    eapply queue_delete_acc; [exact Hq|].
    intros m1 Hq1 Hpay Hacc1.
    rewrite <- !app_assoc in Hacc1. simpl in Hacc1.
    rewrite <- app_assoc in Hq1. simpl in Hq1.
    eapply wp_mono; [apply (IH m1 head l1 start r start Hq1); simpl in Hfuel; lia|].
    intros [e p] m' (run & rest' & -> & Hrun & Hoff & Hr & Hq' & Hpay' & Hacc').
    assert (Hin : forall p, p ∈ start :: run ++ rest' ->
              p ∈ (l1 ++ [start]) ++ run ++ rest').
    { intros q Hq0. rewrite <- app_assoc. apply elem_of_app. by right. }
    assert (Hp1 : forall p, p ∈ start :: run ++ rest' ->
              payload m1 p = payload m p).
    { intros q Hq0. by apply Hpay, Hin. }
    exists (y :: run), rest'. split_and!.
    + done.
    + apply Forall_cons. split; [done|].
      apply Forall_forall. intros z Hz. rewrite Forall_forall in Hrun.
      rewrite <- (Hrun z Hz). symmetry.
      apply same_payload_ext; apply Hp1.
      * elem_here.
      * apply list_elem_of_further, elem_of_app. by left.
    + destruct rest' as [|z rest']; [done|]. simpl in *.
      rewrite <- Hoff. symmetry.
      apply same_payload_ext; apply Hp1.
      * elem_here.
      * apply list_elem_of_further, elem_of_app. right. elem_here.
    + injection Hr as -> ->. f_equal. by destruct run.
    + done.
    + intros q Hq0. rewrite Hpay' by done. apply Hpay.
      rewrite <- app_assoc. simpl.
      apply elem_of_app in Hq0 as [Hq0|Hq0]; apply elem_of_app; [by left|right].
      apply elem_of_cons in Hq0 as [->|Hq0]; [elem_here|].
      apply list_elem_of_further, elem_of_app. by right.
    + intros m0 Hw. by apply Hacc', Hacc1.
  - apply wp_ret. exists [], (y :: r).
    rewrite <- app_assoc in Hq. split_and!; try done.
Qed.

Lemma dup_outer_acc fuel : forall m head l1 rest end_,
  queue m head (l1 ++ rest) ->
  (end_ =? head)%N = bool_decide (rest = []) ->
  (length rest < fuel)%nat ->
  wp (dup_outer fuel head (hd head rest) end_ NULL) m (fun _ m' =>
    queue m' head (l1 ++ isolated (same_payload m) None rest) /\
    (forall p, p ∈ l1 ++ isolated (same_payload m) None rest ->
       payload m' p = payload m p) /\
    (forall m0, without_queue m head (l1 ++ rest) m0 ->
       without_queue m' head (l1 ++ isolated (same_payload m) None rest) m0)).
Proof.
  induction fuel as [|fuel IH]; intros m head l1 rest end_ Hq Hend Hfuel; [lia|].
  match goal with |- wp _ _ ?Q => set (post := Q) end.
  cbn [dup_outer]. rewrite Hend.
  destruct rest as [|x r].
  { rewrite bool_decide_eq_true_2 by done. by apply wp_ret. }
  rewrite bool_decide_eq_false_2 by done. cbn [hd].
  wp_step (ring_elem _ _ _ _ _ (queue_ring _ _ _ Hq)).
  unfold list_entry.
  eapply wp_seq; [apply (dup_inner_acc fuel m head l1 x r NULL Hq); simpl in Hfuel; lia|].
  intros [e p] m1 (run & rest' & -> & Hrun & Hoff & [= -> ->] & Hq1 & Hpay1 & Hacc1).
  cbn beta iota.
  assert (Hround : isolated (same_payload m) None (x :: run ++ rest')
                   = match run with
                     | [] => x :: isolated (same_payload m) None rest'
                     | _ :: _ => isolated (same_payload m) None rest'
                     end).
  { apply isolated_round; try done.
    - apply same_payload_sym.
    - apply same_payload_trans. }
  assert (Hlen : (length rest' < fuel)%nat).
  { simpl in Hfuel. rewrite length_app in Hfuel. lia. }
  assert (Hsub : forall q, q ∈ isolated (same_payload m) None rest' -> q ∈ rest').
  { intros q Hq0. eapply elem_of_sublist; [done|apply isolated_sublist]. }
  destruct run as [|y run].
  - (* no duplicate of [x]: it stays *)
    rewrite N.eqb_refl. apply wp_bind, wp_ret.
    replace (l1 ++ x :: rest') with ((l1 ++ [x]) ++ rest') in Hq1, Hpay1, Hacc1
      by by rewrite <- app_assoc.
    eapply wp_mono.
    { apply (IH m1 head (l1 ++ [x]) rest' (hd head rest') Hq1); [|done].
      exact (queue_hd_empty m1 head (l1 ++ [x]) rest' Hq1). }
    intros [] m' (Hq' & Hpay' & Hacc').
    assert (Hiso : isolated (same_payload m1) None rest'
                   = isolated (same_payload m) None rest').
    { apply isolated_ext; [|done]. intros a b Ha Hb.
      apply same_payload_ext; apply Hpay1; apply elem_of_app; by right. }
    rewrite Hiso in Hq', Hpay', Hacc'. rewrite <- app_assoc in Hq', Hpay'.
    unfold post. cbn [app] in Hround |- *. rewrite Hround.
    split; [done|]. split.
    { intros q Hq0. rewrite Hpay' by done. apply Hpay1.
      rewrite <- app_assoc.
      apply elem_of_app in Hq0 as [Hq0|Hq0]; apply elem_of_app; [by left|right].
      apply elem_of_cons in Hq0 as [->|Hq0]; [elem_here|].
      apply list_elem_of_further. by apply Hsub. }
    intros m0 Hw.
    replace (l1 ++ x :: isolated (same_payload m) None rest')
      with ((l1 ++ [x]) ++ isolated (same_payload m) None rest')
      by by rewrite <- app_assoc.
    by apply Hacc', Hacc1.
  - (* [x] had duplicates: it goes too *)
    assert (Hx : (x =? NULL)%N = false).
    { apply N.eqb_neq. intros ->. apply (queue_nonnull _ _ _ Hq1).
      apply list_elem_of_further, elem_of_app. right. elem_here. }
    rewrite Hx. apply wp_bind.
    eapply wp_mono.
    { apply (queue_delete_acc m1 head l1 x rest' (ret NULL)
               (fun r m2 => r = NULL /\ queue m2 head (l1 ++ rest') /\
                  (forall p, p ∈ l1 ++ rest' -> payload m2 p = payload m1 p) /\
                  (forall m0, without_queue m1 head (l1 ++ x :: rest') m0 ->
                              without_queue m2 head (l1 ++ rest') m0)) Hq1).
      intros m2 Hq2 Hpay2 Hacc2. by apply wp_ret. }
    intros ? m2 (-> & Hq2 & Hpay2 & Hacc2).
    assert (Hp2 : forall p, p ∈ l1 ++ rest' -> payload m2 p = payload m p).
    { intros q Hq0. rewrite Hpay2 by done. apply Hpay1.
      apply elem_of_app in Hq0 as [Hq0|Hq0]; apply elem_of_app; [by left|right].
      by apply list_elem_of_further. }
    eapply wp_mono.
    { apply (IH m2 head l1 rest' (hd head rest') Hq2); [|done].
      exact (queue_hd_empty m2 head l1 rest' Hq2). }
    intros [] m' (Hq' & Hpay' & Hacc').
    assert (Hiso : isolated (same_payload m2) None rest'
                   = isolated (same_payload m) None rest').
    { apply isolated_ext; [|done]. intros a b Ha Hb.
      apply same_payload_ext; apply Hp2; apply elem_of_app; by right. }
    rewrite Hiso in Hq', Hpay', Hacc'.
    unfold post. cbn [app] in Hround |- *. rewrite Hround.
    split; [done|]. split.
    { intros q Hq0. rewrite Hpay' by done. apply Hp2.
      apply elem_of_app in Hq0 as [Hq0|Hq0]; apply elem_of_app; [by left|right].
      by apply Hsub. }
    intros m0 Hw. by apply Hacc', Hacc2, Hacc1.
Qed.

Lemma q_delete_dup_acc m head ps fuel :
  queue m head ps -> (length ps < fuel)%nat ->
  wp (q_delete_dup fuel head) m (fun r m' =>
    r = true /\
    queue m' head (isolated (same_payload m) None ps) /\
    (forall m0, without_queue m head ps m0 ->
       without_queue m' head (isolated (same_payload m) None ps) m0)).
Proof.
  intros Hq Hfuel. pose proof (queue_ring _ _ _ Hq) as Hr.
  unfold q_delete_dup. rewrite (queue_head_nonnull _ _ _ Hq).
  apply wp_bind, (list_empty_ring _ _ ps _ Hr).
  destruct ps as [|x ps].
  { rewrite bool_decide_eq_true_2 by done. by apply wp_ret. }
  rewrite bool_decide_eq_false_2 by done.
  wp_step (ring_head _ _ _ Hr).
  apply wp_bind. eapply wp_mono.
  { apply (dup_outer_acc fuel m head [] (x :: ps) NULL Hq); [|done].
    transitivity false; [|symmetry; by apply bool_decide_eq_false_2].
    apply N.eqb_neq. intros Heq. apply (queue_nonnull _ _ _ Hq).
    rewrite Heq. elem_here. }
  intros _ m' (Hq' & Hpay' & Hacc'). apply wp_ret. done.
Qed.

(** ** The middle element is released *)

Lemma q_delete_mid_released m head ps fuel :
  queue m head ps -> ps <> [] -> (length ps / 2 < fuel)%nat ->
  wp (q_delete_mid fuel head) m (fun r m' =>
    r = true /\
    queue m' head (delete (length ps / 2) ps) /\
    (forall p, p ∈ delete (length ps / 2) ps -> payload m' p = payload m p) /\
    heads m' !! nth (length ps / 2) ps head = None /\
    values m' !! nth (length ps / 2) ps head = None /\
    chars m' !! value_of m (nth (length ps / 2) ps head) = None).
Proof.
  intros Hq Hne Hfuel. pose proof (queue_ring _ _ _ Hq) as Hr.
  unfold q_delete_mid. rewrite (queue_head_nonnull _ _ _ Hq).
  apply wp_bind, (list_empty_ring _ _ ps _ Hr).
  rewrite bool_decide_eq_false_2 by done.
  assert (Hlen : (0 < length ps)%nat) by (destruct ps; [done|simpl; lia]).
  assert (Hhd : hd head ps = nth 0 ps head) by by destruct ps.
  wp_step (ring_head _ _ _ Hr). wp_step (ring_head _ _ _ Hr). rewrite Hhd.
  apply wp_bind.
  eapply wp_exec.
  { apply (mid_loop_spec m head ps fuel 0 Hr); lia. }
  set (i := (length ps / 2)%nat).
  assert (Hi : (i < length ps)%nat) by (apply Nat.div_lt; lia).
  unfold list_entry. rewrite delete_take_drop.
  rewrite (nth_middle_split ps head i Hi) in Hq.
  eapply queue_delete; [exact Hq|].
  intros m' Hq' Hpay Hh Hv Hc. apply wp_ret. done.
Qed.

(** ** The merge and the sort write no [prev] link *)

Lemma bind_ok {A B} (c : M A) (k : A -> M B) m b m' :
  bind c k m = Ok b m' -> exists a m1, c m = Ok a m1 /\ k a m1 = Ok b m'.
Proof.
  unfold bind. destruct (c m) as [a m1| |]; [|done..]. intros H. by exists a, m1.
Qed.

Lemma load_next_ok p m a m' : load_next p m = Ok a m' -> m' = m.
Proof.
  unfold load_next. destruct (heads m !! p); [|done]. by intros [= _ ->].
Qed.

Lemma load_value_ok e m a m' : load_value e m = Ok a m' -> m' = m.
Proof.
  unfold load_value. destruct (values m !! e); [|done]. by intros [= _ ->].
Qed.

Lemma load_chars_ok v m a m' : load_chars v m = Ok a m' -> m' = m.
Proof.
  unfold load_chars. destruct (chars m !! v); [|done]. by intros [= _ ->].
Qed.

Lemma prevs_kept_refl m : prevs_kept m m.
Proof. done. Qed.

Lemma prevs_kept_trans m1 m2 m3 :
  prevs_kept m1 m2 -> prevs_kept m2 m3 -> prevs_kept m1 m3.
Proof. intros H1 H2 y. by rewrite H2, H1. Qed.

Lemma store_next_prevs p v m u m' :
  store_next p v m = Ok u m' -> prevs_kept m m'.
Proof.
  unfold store_next. destruct (heads m !! p) as [h|] eqn:Hp; [|done].
  intros [= _ <-] y. simpl. destruct (decide (y = p)) as [->|Hy].
  - by rewrite lookup_insert_eq, Hp.
  - by rewrite lookup_insert_ne.
Qed.

Lemma store_lval_prevs pp v head m r m' :
  store_lval pp v head m = Ok r m' -> prevs_kept m m'.
Proof.
  destruct pp as [|n]; simpl.
  - by intros [= _ <-].
  - intros (u & m1 & Hst & [= _ <-])%bind_ok. by eapply store_next_prevs.
Qed.

Lemma merge_loop_prevs fuel : forall l1 l2 head pp m r m',
  merge_loop fuel l1 l2 head pp m = Ok r m' -> prevs_kept m m'.
Proof.
  induction fuel as [|fuel IH]; intros l1 l2 head pp m r m'; [done|].
  cbn [merge_loop].
  destruct (negb (l1 =? NULL)%N && negb (l2 =? NULL)%N);
    [|by apply store_lval_prevs].
  intros (v1 & ? & ->%load_value_ok & H)%bind_ok.
  apply bind_ok in H as (s1 & ? & ->%load_chars_ok & H).
  apply bind_ok in H as (v2 & ? & ->%load_value_ok & H).
  apply bind_ok in H as (s2 & ? & ->%load_chars_ok & H).
  apply bind_ok in H as (hd' & m1 & Hst%store_lval_prevs & H).
  apply bind_ok in H as (nxt & ? & ->%load_next_ok & H).
  apply (prevs_kept_trans m m1 m'); [done|].
  destruct (strcmp s1 s2 <=? 0)%Z; by eapply IH.
Qed.

Lemma merge_two_lists_prevs fuel l1 l2 m r m' :
  merge_two_lists fuel l1 l2 m = Ok r m' -> prevs_kept m m'.
Proof. apply merge_loop_prevs. Qed.

Lemma split_loop_ok fuel : forall fast slow m r m',
  split_loop fuel fast slow m = Ok r m' -> m' = m.
Proof.
  induction fuel as [|fuel IH]; intros fast slow m r m'; [done|].
  cbn [split_loop].
  destruct (fast =? NULL)%N; [by intros [= _ <-]|].
  intros (fn & ? & ->%load_next_ok & H)%bind_ok.
  destruct (fn =? NULL)%N; [by injection H as _ <-|].
  apply bind_ok in H as (fnn & ? & ->%load_next_ok & H).
  apply bind_ok in H as (sn & ? & ->%load_next_ok & H).
  by eapply IH.
Qed.

Lemma merge_sort_prevs rtl fuel : forall head m r m',
  merge_sort rtl fuel head m = Ok r m' -> prevs_kept m m'.
Proof.
  induction fuel as [|fuel IH]; intros head m r m'; [done|].
  cbn [merge_sort].
  destruct (head =? NULL)%N; [by intros [= _ <-]|].
  intros (hn & ? & ->%load_next_ok & H)%bind_ok.
  destruct (hn =? NULL)%N; [by injection H as _ <-|].
  apply bind_ok in H as (slow & ? & ->%split_loop_ok & H).
  apply bind_ok in H as (fast & ? & ->%load_next_ok & H).
  apply bind_ok in H as (u & m1 & Hst%store_next_prevs & H).
  apply (prevs_kept_trans m m1 m'); [done|].
  destruct rtl.
  - apply bind_ok in H as (b & m2 & Hb%IH & H).
    apply bind_ok in H as (a & m3 & Ha%IH & H).
    apply merge_two_lists_prevs in H.
    eauto using prevs_kept_trans.
  - apply bind_ok in H as (a & m2 & Ha%IH & H).
    apply bind_ok in H as (b & m3 & Hb%IH & H).
    apply merge_two_lists_prevs in H.
    eauto using prevs_kept_trans.
Qed.

(** ** The claims *)

(** Evaluating a decidable invariant of a given memory. *)
Ltac by_evaluation := apply (bool_decide_unpack _); vm_compute; exact I.

(** C9: [q_insert_head] and [q_insert_tail] return [false] on a null
    handle, leaving the memory as it was.  On a queue they return [false]
    exactly when the allocation of the element or of the copy of the string
    fails, and then the memory is what it was before the call (an element
    already allocated has been released).  When they return [true], exactly
    one new element is linked, as the successor of the sentinel for
    [q_insert_head] and as its predecessor for [q_insert_tail], and it owns
    a fresh string holding the bytes of the argument. *)
Theorem q_insert_contract m head ps s a b :
  queue m head ps -> fresh_element m a -> fresh_chars m b ->
  (forall m0, q_insert_head NULL s a b m0 = Ok false m0 /\
              q_insert_tail NULL s a b m0 = Ok false m0) /\
  (exists r m', q_insert_head head s a b m = Ok r m' /\
     (r = false <-> a = None \/ b = None) /\
     (r = false -> m' = m) /\
     (r = true -> exists e v, a = Some e /\ b = Some v /\
        queue m' head (e :: ps) /\
        next <$> heads m' !! head = Some e /\
        values m' !! e = Some v /\ chars m' !! v = Some (cstr s) /\
        contents m' (e :: ps) = cstr s :: contents m ps)) /\
  (exists r m', q_insert_tail head s a b m = Ok r m' /\
     (r = false <-> a = None \/ b = None) /\
     (r = false -> m' = m) /\
     (r = true -> exists e v, a = Some e /\ b = Some v /\
        queue m' head (ps ++ [e]) /\
        prev <$> heads m' !! head = Some e /\
        values m' !! e = Some v /\ chars m' !! v = Some (cstr s) /\
        contents m' (ps ++ [e]) = contents m ps ++ [cstr s])).
Proof.
  intros Hq Ha Hb. split; [done|]. split.
  - rewrite q_insert_head_with.
    destruct (q_insert_spec list_add (fun e ps => e :: ps)
                ltac:(done) ring_add_head m head ps s a b Hq Ha Hb)
      as (r & m' & Hrun & Hr & Hf & Ht).
    exists r, m'. split_and!; try done.
    intros Hrt. destruct (Ht Hrt) as (e & v & -> & -> & Hq' & Hv & Hc & Hpe & Hpo).
    exists e, v. split_and!; try done.
    + destruct Hq' as [Hring _ _ _]. apply Hring.
    + unfold contents. rewrite fmap_cons, Hpe. f_equal. by apply contents_ext.
  - rewrite q_insert_tail_with.
    destruct (q_insert_spec list_add_tail (fun e ps => ps ++ [e])
                ltac:(intros; by rewrite (comm (++))) ring_add_tail
                m head ps s a b Hq Ha Hb)
      as (r & m' & Hrun & Hr & Hf & Ht).
    exists r, m'. split_and!; try done.
    intros Hrt. destruct (Ht Hrt) as (e & v & -> & -> & Hq' & Hv & Hc & Hpe & Hpo).
    exists e, v. split_and!; try done.
    + destruct Hq' as [(_ & _ & Hw) _ _ _]. rewrite reverse_snoc in Hw. apply Hw.
    + unfold contents. rewrite fmap_app. simpl. rewrite Hpe. f_equal.
      by apply contents_ext.
Qed.

Lemma q_insert_contract_witness :
  queue (build ["b"; "c"]) 1%N [2%N; 4%N] /\
  exists m', q_insert_head 1%N "a" (Some 20%N) (Some 21%N) (build ["b"; "c"])
             = Ok true m' /\
             queue m' 1%N [20%N; 2%N; 4%N] /\
             contents m' [20%N; 2%N; 4%N] = ["a"; "b"; "c"].
Proof.
  assert (Hq : queue (build ["b"; "c"]) 1%N [2%N; 4%N]) by by_evaluation.
  split; [exact Hq|].
  destruct (q_insert_contract (build ["b"; "c"]) 1%N [2%N; 4%N] "a"
              (Some 20%N) (Some 21%N) Hq) as (_ & (r & m' & Hrun & Hr & _ & Ht) & _).
  - intros e [= <-]. by vm_compute.
  - intros v [= <-]. by vm_compute.
  - destruct r.
    + destruct (Ht eq_refl) as (e & v & [= <-] & [= <-] & Hq' & _ & _ & _ & Hc).
      exists m'. split; [exact Hrun|]. split; [exact Hq'|]. exact Hc.
    + exfalso. destruct Hr as [Hr _]. by destruct (Hr eq_refl).
Defined.

(** C10: when [q_remove_head] or [q_remove_tail] removes an element and
    [sp] is not null, [strncpy] writes [bufsize - 1] bytes and the
    terminator goes to index [bufsize - 1].  With [1 <= bufsize], in a
    buffer of at least [bufsize] bytes, the call returns, the bytes past
    the first [bufsize] are untouched, and [sp] holds the first
    [min (payload length) (bufsize - 1)] bytes of the payload followed by
    a NUL.  With [bufsize == 0] the subtraction wraps to [SIZE_MAX] and the
    writes are out of the bounds of the buffer: the call faults. *)
Theorem q_remove_copy m head first ps rest last buf bufsize :
  queue m head (first :: ps) -> first :: ps = rest ++ [last] ->
  (N.of_nat (length buf) <= SIZE_MAX)%N ->
  ((1 <= bufsize)%N -> (bufsize <= N.of_nat (length buf))%N ->
   let n := N.to_nat bufsize in
   let fits (e : ptr) (out : list ascii) :=
     let bytes := String.list_ascii_of_string (cstr (payload m e)) in
     let k := (length bytes `min` (n - 1))%nat in
     length out = length buf /\ drop n out = drop n buf /\
     take k out = take k bytes /\ out !! k = Some Ascii.zero in
   (exists m' out, q_remove_head head (Some buf) bufsize m
                   = Ok (first, Some out) m' /\ fits first out) /\
   (exists m' out, q_remove_tail head (Some buf) bufsize m
                   = Ok (last, Some out) m' /\ fits last out)) /\
  (size_sub 0 1 = SIZE_MAX /\
   q_remove_head head (Some buf) 0 m = Fault /\
   q_remove_tail head (Some buf) 0 m = Fault).
Proof.
  intros Hq Hsplit Hcap.
  destruct (q_remove_head_run _ _ _ _ Hq) as (m1 & _ & _ & Hs1 & He1 & Hrun1).
  rewrite Hsplit in Hq.
  destruct (q_remove_tail_run _ _ _ _ Hq) as (m2 & _ & _ & Hs2 & He2 & Hrun2).
  split.
  - intros Hpos Hle n fits.
    assert (Hn : (1 <= n <= length buf)%nat) by (unfold n; lia).
    assert (Hfits : forall e, fits e (copied buf (payload m e) n)).
    { intros e. unfold fits. split_and!.
      - by apply copied_length.
      - by apply copied_beyond.
      - apply copied_prefix. lia.
      - apply copied_prefix. lia. }
    unfold SIZE_MAX in Hcap. split.
    + exists m1. eexists. rewrite Hrun1. unfold bind.
      rewrite copy_out_some; [|done|lia|lia].
      rewrite (payload_same _ _ _ Hs1). split; [done|]. apply Hfits.
    + exists m2. eexists. rewrite Hrun2. unfold bind.
      rewrite copy_out_some; [|done|lia|lia].
      rewrite (payload_same _ _ _ Hs2). split; [done|]. apply Hfits.
  - split; [done|]. rewrite Hrun1, Hrun2. unfold bind.
    by rewrite !copy_out_zero.
Qed.

Local Open Scope string_scope.
Local Open Scope char_scope.

Lemma q_remove_copy_witness :
  queue (build ["hello"; "x"]%string) 1%N [2%N; 4%N] /\
  (exists m' out,
     q_remove_head 1%N (Some ["?"; "?"; "?"; "?"]) 4%N (build ["hello"; "x"]%string)
     = Ok (2%N, Some out) m' /\
     take 3 out = ["h"; "e"; "l"] /\ out !! 3%nat = Some Ascii.zero) /\
  q_remove_tail 1%N (Some ["?"; "?"; "?"; "?"]) 0%N (build ["hello"; "x"]%string)
  = Fault.
Proof.
  assert (Hq : queue (build ["hello"; "x"]%string) 1%N [2%N; 4%N]) by by_evaluation.
  split; [exact Hq|].
  destruct (q_remove_copy (build ["hello"; "x"]%string) 1%N 2%N [4%N] [2%N] 4%N
              ["?"; "?"; "?"; "?"] 4%N Hq eq_refl) as [Hcopy (_ & _ & Hfault)].
  { by vm_compute. }
  split; [|exact Hfault].
  destruct Hcopy as [(m' & out & Hrun & _ & _ & Htake & Hnul) _].
  { by vm_compute. }
  { by vm_compute. }
  exists m', out. split; [exact Hrun|]. split; [exact Htake|exact Hnul].
Defined.

Local Close Scope char_scope.

(** C4: on a queue of [n >= 1] elements [q_delete_mid] returns [true] and
    deletes exactly the element at index [n / 2] from the head: the ring
    holds the other elements in their order, with their payloads, and the
    storage of the deleted one is released, that is, its node, its [value]
    field and its payload string are no longer allocated.  Nothing else is
    released or touched: the memory without the queue is what it was.  On
    a null handle or an empty queue it returns [false] and the memory is
    unchanged. *)
Theorem q_delete_mid_contract m head ps fuel :
  queue m head ps -> (length ps / 2 < fuel)%nat ->
  (forall m0, q_delete_mid fuel NULL m0 = Ok false m0) /\
  (ps = [] -> q_delete_mid fuel head m = Ok false m) /\
  (ps <> [] -> exists m',
     q_delete_mid fuel head m = Ok true m' /\
     queue m' head (delete (length ps / 2) ps) /\
     contents m' (delete (length ps / 2) ps)
     = delete (length ps / 2) (contents m ps) /\
     length (delete (length ps / 2) ps) = (length ps - 1)%nat /\
     (forall x, ps !! (length ps / 2)%nat = Some x ->
        heads m' !! x = None /\ values m' !! x = None /\
        chars m' !! value_of m x = None /\
        x ∉ delete (length ps / 2) ps) /\
     (forall m0, without_queue m head ps m0 ->
        without_queue m' head (delete (length ps / 2) ps) m0)).
Proof.
  intros Hq Hfuel. split; [done|]. split.
  - intros ->. by apply q_delete_mid_empty.
  - intros Hne.
    destruct (q_delete_mid_released m head ps fuel Hq Hne Hfuel)
      as (r & m' & Hrun & -> & Hq' & Hpay & Hfree & Hfv & Hfc).
    destruct (q_delete_mid_acc m head ps fuel Hq Hne Hfuel)
      as (r2 & m2 & Hrun2 & _ & _ & Hacc).
    rewrite Hrun in Hrun2. injection Hrun2 as _ <-.
    assert (Hlen : (0 < length ps)%nat) by (destruct ps; [done|simpl; lia]).
    assert (Hi : (length ps / 2 < length ps)%nat) by (apply Nat.div_lt; lia).
    exists m'. split_and!; try done.
    + by apply contents_delete.
    + rewrite length_delete; [done|]. by apply lookup_lt_is_Some_2.
    + intros x Hx. rewrite (nth_lookup_Some _ _ head _ Hx) in Hfree, Hfv, Hfc.
      split_and!; try done. intros Hin.
      pose proof (ring_lookup _ _ _ _ (queue_ring _ _ _ Hq') (list_elem_of_further _ _ _ Hin))
        as [h Hh].
      congruence.
Qed.

Local Open Scope string_scope.

Lemma q_delete_mid_contract_witness :
  queue (build ["a"; "b"; "c"]) 1%N [2%N; 4%N; 6%N] /\
  exists m', q_delete_mid 2 1%N (build ["a"; "b"; "c"]) = Ok true m' /\
             queue m' 1%N [2%N; 6%N] /\
             contents m' [2%N; 6%N] = ["a"; "c"] /\
             heads m' !! 4%N = None /\ values m' !! 4%N = None /\
             chars m' !! 5%N = None.
Proof.
  assert (Hq : queue (build ["a"; "b"; "c"]) 1%N [2%N; 4%N; 6%N]) by by_evaluation.
  split; [exact Hq|].
  destruct (q_delete_mid_contract (build ["a"; "b"; "c"]) 1%N [2%N; 4%N; 6%N] 2 Hq)
    as (_ & _ & Hdel).
  { vm_compute. lia. }
  destruct Hdel as (m' & Hrun & Hq' & Hc & _ & Hgone & _); [done|].
  destruct (Hgone 4%N eq_refl) as (Hh & Hv & Hs & _).
  exists m'. split; [exact Hrun|]. split; [exact Hq'|]. split; [exact Hc|].
  split; [exact Hh|]. split; [exact Hv|exact Hs].
Defined.

(** C5, as the code behaves: on a queue of six elements holding a, b, c,
    d, e, f, [q_delete_mid] deletes the element at index [6 / 2 = 3], the
    fourth one, d, and leaves a, b, c, e, f. *)
Theorem q_delete_mid_six m head ps fuel :
  queue m head ps -> contents m ps = ["a"; "b"; "c"; "d"; "e"; "f"] ->
  (3 < fuel)%nat ->
  exists m' ps',
    q_delete_mid fuel head m = Ok true m' /\
    queue m' head ps' /\ ps' = delete 3 ps /\
    contents m' ps' = ["a"; "b"; "c"; "e"; "f"].
Proof.
  intros Hq Hc Hfuel.
  assert (Hlen : length ps = 6%nat).
  { apply (f_equal length) in Hc. unfold contents in Hc.
    by rewrite length_fmap in Hc. }
  destruct (q_delete_mid_spec m head ps fuel Hq) as (r & m' & Hrun & -> & Hq' & Hpay & _).
  { by destruct ps. }
  { by rewrite Hlen. }
  rewrite Hlen in Hq', Hpay. change (6 / 2)%nat with 3%nat in Hq', Hpay.
  exists m', (delete 3 ps). split_and!; try done.
  by rewrite (contents_delete m), Hc.
Qed.

Lemma q_delete_mid_six_witness :
  queue (build ["a"; "b"; "c"; "d"; "e"; "f"]) 1%N
        [2%N; 4%N; 6%N; 8%N; 10%N; 12%N] /\
  exists m',
    q_delete_mid 4 1%N (build ["a"; "b"; "c"; "d"; "e"; "f"]) = Ok true m' /\
    queue m' 1%N [2%N; 4%N; 6%N; 10%N; 12%N] /\
    contents m' [2%N; 4%N; 6%N; 10%N; 12%N] = ["a"; "b"; "c"; "e"; "f"].
Proof.
  assert (Hq : queue (build ["a"; "b"; "c"; "d"; "e"; "f"]) 1%N
                 [2%N; 4%N; 6%N; 8%N; 10%N; 12%N]) by by_evaluation.
  split; [exact Hq|].
  destruct (q_delete_mid_six (build ["a"; "b"; "c"; "d"; "e"; "f"]) 1%N
              [2%N; 4%N; 6%N; 8%N; 10%N; 12%N] 4 Hq)
    as (m' & ps' & Hrun & Hq' & -> & Hc).
  { by vm_compute. }
  { lia. }
  exists m'. split; [exact Hrun|]. split; [exact Hq'|exact Hc].
Defined.

(** C5 as stated fails: on the six-element queue a, b, c, d, e, f the call
    does not leave a, b, d, e, f, and c is still linked. *)
Lemma q_delete_mid_six_counterexample :
  ~ exists m' ps',
      q_delete_mid 6 1%N (build ["a"; "b"; "c"; "d"; "e"; "f"]) = Ok true m' /\
      queue m' 1%N ps' /\
      contents m' ps' = ["a"; "b"; "d"; "e"; "f"].
Proof.
  intros (m' & ps' & Hrun & Hq' & Hc).
  assert (Hq : queue (build ["a"; "b"; "c"; "d"; "e"; "f"]) 1%N
                 [2%N; 4%N; 6%N; 8%N; 10%N; 12%N]) by by_evaluation.
  destruct (q_delete_mid_spec _ _ _ 6 Hq) as (r & m1 & Hrun1 & -> & Hq1 & Hpay & _).
  { done. }
  { vm_compute. lia. }
  rewrite Hrun1 in Hrun. injection Hrun as <-.
  rewrite (queue_unique _ _ _ _ Hq' Hq1) in Hc.
  rewrite (contents_delete (build ["a"; "b"; "c"; "d"; "e"; "f"])) in Hc by done.
  vm_compute in Hc. discriminate Hc.
Qed.

(** C7: [q_swap] exchanges the elements of each consecutive pair counted
    from the head and leaves an unpaired last element in place; it does
    nothing on a null handle, an empty queue or a single element; the
    [value] fields and the strings are untouched.  Payloads 1, 2, 3, 4, 5
    become 2, 1, 4, 3, 5. *)
Theorem q_swap_contract m head ps fuel :
  queue m head ps -> (length ps / 2 < fuel)%nat ->
  (forall m0, q_swap fuel NULL m0 = Ok tt m0) /\
  exists m',
    q_swap fuel head m = Ok tt m' /\
    queue m' head (swap_pairs ps) /\
    same_payloads m m' /\
    contents m' (swap_pairs ps) = swap_pairs (contents m ps) /\
    (forall i, (2 * i + 1 < length ps)%nat ->
       swap_pairs ps !! (2 * i)%nat = ps !! (2 * i + 1)%nat /\
       swap_pairs ps !! (2 * i + 1)%nat = ps !! (2 * i)%nat) /\
    (Nat.Odd (length ps) ->
       swap_pairs ps !! (length ps - 1)%nat = ps !! (length ps - 1)%nat) /\
    ((length ps < 2)%nat -> m' = m) /\
    (contents m ps = ["1"; "2"; "3"; "4"; "5"] ->
       contents m' (swap_pairs ps) = ["2"; "1"; "4"; "3"; "5"]).
Proof.
  intros Hq Hfuel. split; [done|].
  destruct (q_swap_spec m head ps fuel Hq Hfuel) as ([] & m' & Hrun & Hq' & Hs & Hsame).
  assert (Hc : contents m' (swap_pairs ps) = swap_pairs (contents m ps)).
  { rewrite (contents_same _ _ _ Hs). apply swap_pairs_fmap. }
  exists m'. split_and!; try done.
  - intros i Hi. by apply swap_pairs_lookup_even.
  - apply swap_pairs_lookup_last.
  - intros Heq. by rewrite Hc, Heq.
Qed.

Lemma q_swap_contract_witness :
  queue (build ["1"; "2"; "3"; "4"; "5"]) 1%N [2%N; 4%N; 6%N; 8%N; 10%N] /\
  exists m',
    q_swap 3 1%N (build ["1"; "2"; "3"; "4"; "5"]) = Ok tt m' /\
    queue m' 1%N [4%N; 2%N; 8%N; 6%N; 10%N] /\
    contents m' [4%N; 2%N; 8%N; 6%N; 10%N] = ["2"; "1"; "4"; "3"; "5"].
Proof.
  assert (Hq : queue (build ["1"; "2"; "3"; "4"; "5"]) 1%N
                 [2%N; 4%N; 6%N; 8%N; 10%N]) by by_evaluation.
  split; [exact Hq|].
  destruct (q_swap_contract (build ["1"; "2"; "3"; "4"; "5"]) 1%N
              [2%N; 4%N; 6%N; 8%N; 10%N] 3 Hq)
    as (_ & m' & Hrun & Hq' & _ & _ & _ & _ & _ & Hc).
  { vm_compute. lia. }
  exists m'. split; [exact Hrun|]. split; [exact Hq'|]. by apply Hc.
Defined.

(** C8: [q_reverse] reverses the order of the elements by relinking them:
    no node, [value] field or string is allocated, released or modified.
    Payloads 1, 2, 3 become 3, 2, 1.  It does nothing on a null handle or
    an empty queue, and reversing twice gives back the very same memory. *)
Theorem q_reverse_contract m head ps fuel :
  queue m head ps -> (S (length ps) < fuel)%nat ->
  (forall m0, q_reverse fuel NULL m0 = Ok tt m0) /\
  (ps = [] -> q_reverse fuel head m = Ok tt m) /\
  exists m',
    q_reverse fuel head m = Ok tt m' /\
    queue m' head (reverse ps) /\
    contents m' (reverse ps) = reverse (contents m ps) /\
    same_payloads m m' /\ dom (heads m') = dom (heads m) /\
    (contents m ps = ["1"; "2"; "3"] ->
       contents m' (reverse ps) = ["3"; "2"; "1"]) /\
    q_reverse fuel head m' = Ok tt m.
Proof.
  intros Hq Hfuel. split; [done|]. split.
  { intros ->. by apply q_reverse_empty. }
  destruct (q_reverse_spec m head ps fuel Hq Hfuel) as ([] & m' & Hrun & Hq' & Hs & Hf).
  assert (Hc : contents m' (reverse ps) = reverse (contents m ps)).
  { rewrite (contents_same _ _ _ Hs). unfold contents. by rewrite fmap_reverse. }
  exists m'. split_and!; try done.
  - apply set_eq. intros x. rewrite !elem_of_dom.
    destruct (decide (x ∈ head :: ps)) as [Hx|Hx]; [|by rewrite Hf].
    split; intros _.
    + by apply (ring_lookup _ _ _ _ (queue_ring _ _ _ Hq)).
    + apply (ring_lookup _ _ _ _ (queue_ring _ _ _ Hq')).
      apply elem_of_cons in Hx as [->|Hx]; [elem_here|].
      by apply list_elem_of_further, elem_of_reverse.
  - intros Heq. by rewrite Hc, Heq.
  - destruct (q_reverse_twice m head ps fuel Hq Hfuel) as ([] & m2 & Hrun2 & ->).
    unfold bind in Hrun2. rewrite Hrun in Hrun2. done.
Qed.

Lemma q_reverse_contract_witness :
  queue (build ["1"; "2"; "3"]) 1%N [2%N; 4%N; 6%N] /\
  exists m',
    q_reverse 5 1%N (build ["1"; "2"; "3"]) = Ok tt m' /\
    queue m' 1%N [6%N; 4%N; 2%N] /\
    contents m' [6%N; 4%N; 2%N] = ["3"; "2"; "1"] /\
    q_reverse 5 1%N m' = Ok tt (build ["1"; "2"; "3"]).
Proof.
  assert (Hq : queue (build ["1"; "2"; "3"]) 1%N [2%N; 4%N; 6%N]) by by_evaluation.
  split; [exact Hq|].
  destruct (q_reverse_contract (build ["1"; "2"; "3"]) 1%N [2%N; 4%N; 6%N] 5 Hq)
    as (_ & _ & m' & Hrun & Hq' & _ & _ & _ & Hc & Hback).
  { vm_compute. lia. }
  exists m'. split; [exact Hrun|]. split; [exact Hq'|].
  split; [by apply Hc|exact Hback].
Defined.

(** C3: on a queue whose payloads are in ascending order, [q_delete_dup]
    returns [true] and removes every run of two or more adjacent elements
    with equal payloads, its first element included: the elements left are
    those that differ from both neighbours, which are the elements whose
    payload occurs once, in their order and with their payloads.  Payloads
    1, 1, 2, 3, 3, 3, 4 become 2, 4.  It returns [false] on a null handle,
    and on an empty queue it returns [true] and leaves the memory as it
    is. *)
Theorem q_delete_dup_contract m head ps fuel :
  queue m head ps -> ascending (contents m ps) -> (length ps < fuel)%nat ->
  (forall m0, q_delete_dup fuel NULL m0 = Ok false m0) /\
  (ps = [] -> q_delete_dup fuel head m = Ok true m) /\
  exists m' ps',
    q_delete_dup fuel head m = Ok true m' /\
    queue m' head ps' /\
    ps' = isolated (same_payload m) None ps /\
    ps' = filter (fun p =>
            occurrences str_eqb (payload m p) (contents m ps) = 1%nat) ps /\
    contents m' ps' = payload m <$> ps' /\
    (contents m ps = ["1"; "1"; "2"; "3"; "3"; "3"; "4"] ->
       contents m' ps' = ["2"; "4"]).
Proof.
  intros Hq Hasc Hfuel.
  destruct (q_delete_dup_spec m head ps fuel Hq Hfuel)
    as (r & m' & Hrun & -> & Hq' & Hpay & Hempty).
  split; [done|]. split.
  { intros Hps. by rewrite Hrun, (Hempty Hps). }
  assert (Hc : contents m' (isolated (same_payload m) None ps)
               = payload m <$> isolated (same_payload m) None ps).
  { by apply contents_ext. }
  exists m', (isolated (same_payload m) None ps). split_and!; try done.
  - by apply isolated_once.
  - intros Heq. rewrite Hc.
    pose proof (isolated_fmap (payload m) str_eqb None ps) as Hf.
    fold (same_payload m) (contents m ps) in Hf. by rewrite Hf, Heq.
Qed.

Lemma q_delete_dup_contract_witness :
  queue (build ["1"; "1"; "2"; "3"; "3"; "3"; "4"]) 1%N
        [2%N; 4%N; 6%N; 8%N; 10%N; 12%N; 14%N] /\
  exists m',
    q_delete_dup 8 1%N (build ["1"; "1"; "2"; "3"; "3"; "3"; "4"]) = Ok true m' /\
    queue m' 1%N [6%N; 14%N] /\
    contents m' [6%N; 14%N] = ["2"; "4"].
Proof.
  assert (Hq : queue (build ["1"; "1"; "2"; "3"; "3"; "3"; "4"]) 1%N
                 [2%N; 4%N; 6%N; 8%N; 10%N; 12%N; 14%N]) by by_evaluation.
  split; [exact Hq|].
  destruct (q_delete_dup_contract (build ["1"; "1"; "2"; "3"; "3"; "3"; "4"]) 1%N
              [2%N; 4%N; 6%N; 8%N; 10%N; 12%N; 14%N] 8 Hq)
    as (_ & _ & m' & ps' & Hrun & Hq' & -> & _ & _ & Hc).
  { apply (sorted_ascending _ _).
    repeat (constructor; [|first [constructor; by vm_compute | constructor]]).
    constructor. }
  { vm_compute. lia. }
  exists m'. split; [exact Hrun|]. split; [exact Hq'|]. by apply Hc.
Defined.

(** C1: [q_sort] returns, whichever argument of the merge the compiler
    evaluates first, with the same elements linked in an order in which
    every adjacent pair (A, B) has [strcmp(A, B) <= 0]; the payloads are a
    permutation of those before the call, no [value] field or string having
    been touched.  It does nothing on a null handle, an empty queue or a
    single element.  [q_size] counts in an [int], so the queue has at most
    [INT_MAX] elements. *)
Theorem q_sort_contract rtl m head ps fuel :
  queue m head ps -> (Z.of_nat (length ps) <= INT_MAX)%Z ->
  (S (length ps) < fuel)%nat ->
  (forall m0, q_sort rtl fuel NULL m0 = Ok tt m0) /\
  ((length ps <= 1)%nat -> q_sort rtl fuel head m = Ok tt m) /\
  exists m' ps',
    q_sort rtl fuel head m = Ok tt m' /\
    queue m' head ps' /\
    ascending (contents m' ps') /\
    contents m' ps' ≡ₚ contents m ps /\
    ps' ≡ₚ ps /\ same_payloads m m'.
Proof.
  intros Hq Hmax Hfuel.
  destruct (q_sort_spec rtl m head ps fuel Hq Hmax Hfuel)
    as ([] & m' & Hrun & ps' & Hq' & Hso & Hs & _ & Hshort).
  split; [done|]. split.
  { intros Hle. by rewrite Hrun, (Hshort Hle). }
  exists m', ps'. split_and!; try done.
  - by apply (sorted_of_ascending m _ ps).
  - by apply sorted_of_contents.
  - apply Hso.
Qed.

Lemma q_sort_contract_witness :
  queue (build ["d"; "a"; "c"; "b"; "a"]) 1%N [2%N; 4%N; 6%N; 8%N; 10%N] /\
  exists m' ps',
    q_sort true 7 1%N (build ["d"; "a"; "c"; "b"; "a"]) = Ok tt m' /\
    queue m' 1%N ps' /\ ascending (contents m' ps') /\
    contents m' ps' ≡ₚ ["d"; "a"; "c"; "b"; "a"].
Proof.
  assert (Hq : queue (build ["d"; "a"; "c"; "b"; "a"]) 1%N
                 [2%N; 4%N; 6%N; 8%N; 10%N]) by by_evaluation.
  split; [exact Hq|].
  destruct (q_sort_contract true (build ["d"; "a"; "c"; "b"; "a"]) 1%N
              [2%N; 4%N; 6%N; 8%N; 10%N] 7 Hq)
    as (_ & _ & m' & ps' & Hrun & Hq' & Hasc & Hperm & _).
  { by vm_compute. }
  { vm_compute. lia. }
  exists m', ps'. split; [exact Hrun|]. split; [exact Hq'|].
  split; [exact Hasc|exact Hperm].
Defined.

(** C2: [q_sort] is stable.  When X comes before Y in the queue and their
    payloads compare equal, X still comes before Y after the call; the
    merge takes the front of the first chain whenever the two fronts
    compare equal ([strcmp(...) <= 0] holds on a tie). *)
Theorem q_sort_stable rtl m head ps fuel x y :
  queue m head ps -> (Z.of_nat (length ps) <= INT_MAX)%Z ->
  (S (length ps) < fuel)%nat ->
  precedes ps x y -> strcmp (payload m x) (payload m y) = 0%Z ->
  (exists m' ps',
     q_sort rtl fuel head m = Ok tt m' /\ queue m' head ps' /\
     precedes ps' x y) /\
  (forall a b, merged (payload_leb m) (x :: a) (y :: b)
               = x :: merged (payload_leb m) a (y :: b)).
Proof.
  intros Hq Hmax Hfuel Hp Hxy.
  destruct (q_sort_spec rtl m head ps fuel Hq Hmax Hfuel)
    as ([] & m' & Hrun & ps' & Hq' & (_ & _ & Hst) & _).
  split.
  - exists m', ps'. split_and!; try done.
    apply (stable_precedes (same_payload m) ps ps' x y Hst); try done.
    + apply same_payload_refl.
    + unfold same_payload, str_eqb. by rewrite Hxy.
  - intros a b. apply merged_tie. unfold payload_leb. by rewrite Hxy.
Qed.

Lemma q_sort_stable_witness :
  queue (build ["b"; "a"; "b"; "a"]) 1%N [2%N; 4%N; 6%N; 8%N] /\
  exists m' ps',
    q_sort false 6 1%N (build ["b"; "a"; "b"; "a"]) = Ok tt m' /\
    queue m' 1%N ps' /\ precedes ps' 2%N 6%N.
Proof.
  assert (Hq : queue (build ["b"; "a"; "b"; "a"]) 1%N [2%N; 4%N; 6%N; 8%N])
    by by_evaluation.
  split; [exact Hq|].
  destruct (q_sort_stable false (build ["b"; "a"; "b"; "a"]) 1%N
              [2%N; 4%N; 6%N; 8%N] 6 2%N 6%N Hq) as [Hex _].
  { by vm_compute. }
  { vm_compute. lia. }
  { by exists [], [4%N], [8%N]. }
  { by vm_compute. }
  exact Hex.
Defined.

Lemma keeps_ring_intro {A} (c : M A) m head r m' ps' :
  c m = Ok r m' -> queue m' head ps' -> keeps_ring c m head.
Proof.
  intros Hrun Hq. exists r, m', ps'. split_and!; try done.
  - apply Hq.
  - apply ring_symmetric, Hq.
Qed.

Lemma copy_out_ok m e sp bufsize :
  element m e -> buffer_ok sp bufsize ->
  exists sp', copy_out e sp bufsize m = Ok sp' m.
Proof.
  intros He Hsp. destruct sp as [buf|]; [|by exists None].
  destruct Hsp as [[H1 H2] H3]. unfold SIZE_MAX in H3.
  eexists. apply copy_out_some; [done|lia|lia].
Qed.

(** C6: every public operation, run on a queue, returns and leaves a queue:
    [next] links from the sentinel visit every linked element once and come
    back to the sentinel, [prev] links do so in the reverse order, and
    [A.next == B] implies [B.prev == A] all around the ring.  The
    allocations return fresh storage, the output buffer is null or has at
    least [bufsize >= 1] bytes, and the size fits the [int] of [q_size]. *)
Theorem operations_keep_ring rtl m head ps fuel s a b sp bufsize :
  queue m head ps ->
  fresh_element m a -> fresh_chars m b -> buffer_ok sp bufsize ->
  (Z.of_nat (length ps) <= INT_MAX)%Z -> (S (length ps) < fuel)%nat ->
  keeps_ring (q_insert_head head s a b) m head /\
  keeps_ring (q_insert_tail head s a b) m head /\
  keeps_ring (q_remove_head head sp bufsize) m head /\
  keeps_ring (q_remove_tail head sp bufsize) m head /\
  keeps_ring (q_delete_mid fuel head) m head /\
  keeps_ring (q_delete_dup fuel head) m head /\
  keeps_ring (q_swap fuel head) m head /\
  keeps_ring (q_reverse fuel head) m head /\
  keeps_ring (q_sort rtl fuel head) m head.
Proof.
  intros Hq Ha Hb Hsp Hmax Hfuel.
  assert (Hhalf : (length ps / 2 < fuel)%nat).
  { assert (length ps / 2 <= length ps)%nat by (apply Nat.Div0.div_le_upper_bound; lia).
    lia. }
  split_and!.
  - rewrite q_insert_head_with.
    destruct (q_insert_spec list_add (fun e ps => e :: ps)
                ltac:(done) ring_add_head m head ps s a b Hq Ha Hb)
      as (r & m' & Hrun & _ & Hf & Ht).
    destruct r.
    + destruct (Ht eq_refl) as (e & v & _ & _ & Hq' & _).
      by apply (keeps_ring_intro _ _ _ _ _ _ Hrun Hq').
    + rewrite (Hf eq_refl) in Hrun. by apply (keeps_ring_intro _ _ _ _ _ _ Hrun Hq).
  - rewrite q_insert_tail_with.
    destruct (q_insert_spec list_add_tail (fun e ps => (ps ++ [e])%list)
                ltac:(intros; by rewrite (comm app)) ring_add_tail
                m head ps s a b Hq Ha Hb)
      as (r & m' & Hrun & _ & Hf & Ht).
    destruct r.
    + destruct (Ht eq_refl) as (e & v & _ & _ & Hq' & _).
      by apply (keeps_ring_intro _ _ _ _ _ _ Hrun Hq').
    + rewrite (Hf eq_refl) in Hrun. by apply (keeps_ring_intro _ _ _ _ _ _ Hrun Hq).
  - destruct ps as [|x ps'].
    + destruct (q_remove_empty m head sp bufsize Hq) as [Hrun _].
      by apply (keeps_ring_intro _ _ _ _ _ _ Hrun Hq).
    + destruct (q_remove_head_run _ _ _ _ Hq) as (m' & _ & Hq' & _ & He & Hrun).
      destruct (copy_out_ok m' x sp bufsize He Hsp) as [sp' Hcopy].
      eapply keeps_ring_intro; [|exact Hq'].
      rewrite Hrun. unfold bind. by rewrite Hcopy.
  - destruct ps as [|x ps' _] using rev_ind.
    + destruct (q_remove_empty m head sp bufsize Hq) as [_ Hrun].
      by apply (keeps_ring_intro _ _ _ _ _ _ Hrun Hq).
    + destruct (q_remove_tail_run _ _ _ _ Hq) as (m' & _ & Hq' & _ & He & Hrun).
      destruct (copy_out_ok m' x sp bufsize He Hsp) as [sp' Hcopy].
      eapply keeps_ring_intro; [|exact Hq'].
      rewrite Hrun. unfold bind. by rewrite Hcopy.
  - destruct ps as [|x ps'].
    + by apply (keeps_ring_intro _ _ _ _ _ _ (q_delete_mid_empty fuel m head Hq) Hq).
    + destruct (q_delete_mid_spec m head (x :: ps') fuel Hq ltac:(done) Hhalf)
        as (r & m' & Hrun & _ & Hq' & _).
      by apply (keeps_ring_intro _ _ _ _ _ _ Hrun Hq').
  - destruct (q_delete_dup_spec m head ps fuel Hq ltac:(lia))
      as (r & m' & Hrun & _ & Hq' & _).
    by apply (keeps_ring_intro _ _ _ _ _ _ Hrun Hq').
  - destruct (q_swap_spec m head ps fuel Hq Hhalf) as (r & m' & Hrun & Hq' & _).
    by apply (keeps_ring_intro _ _ _ _ _ _ Hrun Hq').
  - destruct (q_reverse_spec m head ps fuel Hq Hfuel) as (r & m' & Hrun & Hq' & _).
    by apply (keeps_ring_intro _ _ _ _ _ _ Hrun Hq').
  - destruct (q_sort_spec rtl m head ps fuel Hq Hmax Hfuel)
      as (r & m' & Hrun & ps' & Hq' & _).
    by apply (keeps_ring_intro _ _ _ _ _ _ Hrun Hq').
Qed.

Lemma operations_keep_ring_witness :
  queue (build ["b"; "a"; "c"]) 1%N [2%N; 4%N; 6%N] /\
  keeps_ring (q_sort true 5 1%N) (build ["b"; "a"; "c"]) 1%N /\
  keeps_ring (q_delete_dup 5 1%N) (build ["b"; "a"; "c"]) 1%N /\
  keeps_ring (q_remove_head 1%N (Some ["?"; "?"]%char) 2%N)
             (build ["b"; "a"; "c"]) 1%N.
Proof.
  assert (Hq : queue (build ["b"; "a"; "c"]) 1%N [2%N; 4%N; 6%N]) by by_evaluation.
  split; [exact Hq|].
  destruct (operations_keep_ring true (build ["b"; "a"; "c"]) 1%N [2%N; 4%N; 6%N]
              5 "z" (Some 20%N) (Some 21%N) (Some ["?"; "?"]%char) 2%N Hq)
    as (_ & _ & Hrm & _ & _ & Hdup & _ & _ & Hsort).
  - intros e [= <-]. by vm_compute.
  - intros v [= <-]. by vm_compute.
  - by vm_compute.
  - by vm_compute.
  - vm_compute. lia.
  - split; [exact Hsort|]. split; [exact Hdup|exact Hrm].
Defined.

Local Open Scope string_scope.

(** ** Further properties of the code *)

(** X1: [q_new] returns [NULL] and leaves the memory alone when the
    allocation fails.  When it succeeds it returns the fresh sentinel,
    which is an empty queue: its size is 0 and nothing can be removed from
    it.  Nothing else is touched, so every queue there was is still a
    queue. *)
Theorem q_new_empty_queue m a :
  a <> NULL -> heads m !! a = None ->
  q_new None m = Ok NULL m /\
  exists m', q_new (Some a) m = Ok a m' /\
    queue m' a [] /\ same_payloads m m' /\ heads_frame [a] m m' /\
    (forall head ps, queue m head ps -> queue m' head ps) /\
    (forall fuel, q_size fuel a m' = Ok 0%Z m') /\
    (forall sp bufsize,
       q_remove_head a sp bufsize m' = Ok (NULL, sp) m' /\
       q_remove_tail a sp bufsize m' = Ok (NULL, sp) m').
Proof.
  intros Ha Hfresh. split; [done|].
  eexists. split; [by apply q_new_run|].
  set (m' := set_heads m _).
  assert (Hq : queue m' a []).
  { split.
    - apply ring_empty. simpl. apply lookup_insert_eq.
    - intros Hin. apply list_elem_of_singleton in Hin. done.
    - constructor.
    - constructor. }
  split_and!; try done.
  - intros y Hy. simpl. apply lookup_insert_ne. intros ->. apply Hy. elem_here.
  - intros head ps Hq0. apply (queue_frame m); [done..|].
    intros x Hx. simpl. apply lookup_insert_ne. intros ->.
    by apply (queue_not_live _ _ _ _ Hq0 Hfresh).
  - intros fuel. by apply q_size_empty.
  - intros sp bufsize. by apply q_remove_empty.
Qed.

Lemma q_new_empty_queue_witness :
  exists m', q_new (Some 9%N) (build ["a"]) = Ok 9%N m' /\
             queue m' 9%N [] /\ queue m' 1%N [2%N] /\
             q_size 0 9%N m' = Ok 0%Z m'.
Proof.
  assert (Hq : queue (build ["a"]) 1%N [2%N]) by by_evaluation.
  destruct (q_new_empty_queue (build ["a"]) 9%N)
    as (_ & m' & Hrun & Hq' & _ & _ & Hothers & Hsize & _).
  - done.
  - by vm_compute.
  - exists m'. split; [exact Hrun|]. split; [exact Hq'|].
    split; [exact (Hothers _ _ Hq)|exact (Hsize 0%nat)].
Defined.

(** X2: [q_size] returns the number of elements of the queue and leaves
    the memory as it is; on a null handle it returns 0.  The count is an
    [int], so the queue has at most [INT_MAX] elements. *)
Theorem q_size_counts m head ps fuel :
  queue m head ps -> (Z.of_nat (length ps) <= INT_MAX)%Z ->
  (length ps < fuel)%nat ->
  q_size fuel head m = Ok (Z.of_nat (length ps)) m /\
  (forall m0, q_size fuel NULL m0 = Ok 0%Z m0).
Proof.
  intros Hq Hmax Hfuel. split; [by apply q_size_spec|done].
Qed.

Lemma q_size_counts_witness :
  queue (build ["x"; "y"; "z"]) 1%N [2%N; 4%N; 6%N] /\
  q_size 4 1%N (build ["x"; "y"; "z"]) = Ok 3%Z (build ["x"; "y"; "z"]).
Proof.
  assert (Hq : queue (build ["x"; "y"; "z"]) 1%N [2%N; 4%N; 6%N]) by by_evaluation.
  split; [exact Hq|].
  destruct (q_size_counts (build ["x"; "y"; "z"]) 1%N [2%N; 4%N; 6%N] 4 Hq)
    as [Hsize _].
  - by vm_compute.
  - vm_compute. lia.
  - exact Hsize.
Defined.

(** X3: [q_free] does nothing on a null handle.  On a queue it returns
    and has released the sentinel, every element and every payload
    string; whatever else the memory holds is untouched. *)
Theorem q_free_releases_all m head ps fuel :
  queue m head ps -> (length ps < fuel)%nat ->
  (forall m0, q_free fuel NULL m0 = Ok tt m0) /\
  exists m', q_free fuel head m = Ok tt m' /\
    without_queue m head ps m' /\
    (forall x, x ∈ head :: ps -> heads m' !! x = None) /\
    (forall x, x ∈ ps ->
       values m' !! x = None /\ chars m' !! value_of m x = None) /\
    (forall y, y ∉ head :: ps -> heads m' !! y = heads m !! y) /\
    (forall y, y ∉ ps -> values m' !! y = values m !! y) /\
    (forall v, v ∉ value_of m <$> ps -> chars m' !! v = chars m !! v).
Proof.
  intros Hq Hfuel. split; [done|].
  destruct (q_free_spec m head ps fuel Hq Hfuel) as ([] & m' & Hrun & Hw).
  exists m'. split; [done|]. split; [done|].
  destruct Hw as (Hh & Hv & Hc). split_and!.
  - intros x Hx. by rewrite Hh, decide_True.
  - intros x Hx. split.
    + by rewrite Hv, decide_True.
    + rewrite Hc, decide_True; [done|]. by apply list_elem_of_fmap_2.
  - intros y Hy. by rewrite Hh, decide_False.
  - intros y Hy. by rewrite Hv, decide_False.
  - intros v Hv'. by rewrite Hc, decide_False.
Qed.

Lemma q_free_releases_all_witness :
  queue (build ["a"; "b"]) 1%N [2%N; 4%N] /\
  q_free 3 1%N (build ["a"; "b"]) = Ok tt empty_mem /\
  without_queue (build ["a"; "b"]) 1%N [2%N; 4%N] empty_mem.
Proof.
  assert (Hq : queue (build ["a"; "b"]) 1%N [2%N; 4%N]) by by_evaluation.
  split; [exact Hq|].
  destruct (q_free_releases_all (build ["a"; "b"]) 1%N [2%N; 4%N] 3 Hq)
    as (_ & m' & Hrun & Hw & _).
  - vm_compute. lia.
  - assert (Hc : q_free 3 1%N (build ["a"; "b"]) = Ok tt empty_mem)
      by (vm_compute; reflexivity).
    rewrite Hc in Hrun. injection Hrun as <-. split; [exact Hc|exact Hw].
Defined.

(** X4: creating a queue and destroying it at once gives back the memory
    from before [q_new]; this holds as well when the allocation fails and
    [q_free] receives the null handle. *)
Theorem q_new_free_round_trip m a fuel :
  a <> NULL -> heads m !! a = None -> (0 < fuel)%nat ->
  (let* h := q_new (Some a) in q_free fuel h) m = Ok tt m /\
  (let* h := q_new None in q_free fuel h) m = Ok tt m.
Proof.
  intros Ha Hfresh Hfuel. split; [|done].
  unfold bind at 1. rewrite q_new_run by done.
  set (m' := set_heads m _).
  assert (Hq : queue m' a []).
  { split.
    - apply ring_empty. simpl. apply lookup_insert_eq.
    - intros Hin. apply list_elem_of_singleton in Hin. done.
    - constructor.
    - constructor. }
  destruct (q_free_spec m' a [] fuel Hq Hfuel) as ([] & m2 & Hrun & Hw).
  rewrite Hrun. f_equal.
  apply (without_queue_unique m' a []); [done|].
  split_and!; intros y; simpl; try done.
  case_decide as Hy.
  - apply list_elem_of_singleton in Hy as ->. done.
  - rewrite lookup_insert_ne; [done|]. intros ->. apply Hy. elem_here.
Qed.

Lemma q_new_free_round_trip_witness :
  (let* h := q_new (Some 9%N) in q_free 1 h) (build ["a"]) = Ok tt (build ["a"]).
Proof.
  destruct (q_new_free_round_trip (build ["a"]) 9%N 1) as [Hrun _].
  - done.
  - by vm_compute.
  - lia.
  - exact Hrun.
Defined.

(** X5: destroying the queue right after [q_insert_head] or
    [q_insert_tail], whether the insertion succeeded or not, leaves the
    memory that destroying it before the insertion leaves: the new element
    and its string are released with the rest. *)
Theorem q_insert_then_free m head ps s a b fuel :
  queue m head ps -> fresh_element m a -> fresh_chars m b ->
  (S (length ps) < fuel)%nat ->
  exists m',
    q_free fuel head m = Ok tt m' /\
    (q_insert_head head s a b ;;; q_free fuel head) m = Ok tt m' /\
    (q_insert_tail head s a b ;;; q_free fuel head) m = Ok tt m'.
Proof.
  intros Hq Ha Hb Hfuel.
  destruct (q_free_spec m head ps fuel Hq) as ([] & m' & Hrun & _); [lia|].
  exists m'. split; [done|]. split.
  - rewrite q_insert_head_with.
    rewrite (insert_free list_add (fun e ps => e :: ps)
               ltac:(done) ring_add_head m head ps s a b fuel); done.
  - rewrite q_insert_tail_with.
    rewrite (insert_free list_add_tail (fun e ps => (ps ++ [e])%list)
               ltac:(intros; by rewrite (comm app)) ring_add_tail
               m head ps s a b fuel); done.
Qed.

Lemma q_insert_then_free_witness :
  queue (build ["a"; "b"]) 1%N [2%N; 4%N] /\
  (q_insert_head 1%N "z" (Some 20%N) (Some 21%N) ;;; q_free 4 1%N)
    (build ["a"; "b"]) = Ok tt empty_mem.
Proof.
  assert (Hq : queue (build ["a"; "b"]) 1%N [2%N; 4%N]) by by_evaluation.
  split; [exact Hq|].
  destruct (q_insert_then_free (build ["a"; "b"]) 1%N [2%N; 4%N] "z"
              (Some 20%N) (Some 21%N) 4 Hq) as (m' & Hfree & Hhead & _).
  - intros e [= <-]. by vm_compute.
  - intros v [= <-]. by vm_compute.
  - vm_compute. lia.
  - assert (Hc : q_free 4 1%N (build ["a"; "b"]) = Ok tt empty_mem)
      by (vm_compute; reflexivity).
    rewrite Hc in Hfree. injection Hfree as <-. exact Hhead.
Defined.

(** X6: [q_remove_head] and [q_remove_tail] return [NULL] on a null
    handle and on an empty queue, and then neither the memory nor the
    buffer changes, whatever [bufsize] is.  On a queue that is not empty
    they return the first, respectively the last, element and only unlink
    it: the rest is a queue in the same order, no [value] field or string
    has changed, and the element returned is still allocated and still
    owns its payload. *)
Theorem q_remove_unlinks m head first ps rest last sp bufsize :
  queue m head (first :: ps) -> first :: ps = (rest ++ [last])%list ->
  buffer_ok sp bufsize ->
  (forall m0 sp0 n, q_remove_head NULL sp0 n m0 = Ok (NULL, sp0) m0 /\
                    q_remove_tail NULL sp0 n m0 = Ok (NULL, sp0) m0) /\
  (forall m0 h sp0 n, queue m0 h [] ->
     q_remove_head h sp0 n m0 = Ok (NULL, sp0) m0 /\
     q_remove_tail h sp0 n m0 = Ok (NULL, sp0) m0) /\
  (exists m' sp', q_remove_head head sp bufsize m = Ok (first, sp') m' /\
     queue m' head ps /\ same_payloads m m' /\
     element m' first /\ is_Some (heads m' !! first) /\
     payload m' first = payload m first) /\
  (exists m' sp', q_remove_tail head sp bufsize m = Ok (last, sp') m' /\
     queue m' head rest /\ same_payloads m m' /\
     element m' last /\ is_Some (heads m' !! last) /\
     payload m' last = payload m last).
Proof.
  intros Hq Hsplit Hsp. split; [done|]. split.
  { intros m0 h sp0 n Hq0. by apply q_remove_empty. }
  split.
  - destruct (q_remove_head_at m head first ps sp bufsize Hq Hsp)
      as (m' & sp' & Hrun & _ & Hq' & Hs & He & Hl & _).
    exists m', sp'. split_and!; try done. by apply payload_same.
  - rewrite Hsplit in Hq.
    destruct (q_remove_tail_at m head last rest sp bufsize Hq Hsp)
      as (m' & sp' & Hrun & _ & Hq' & Hs & He & Hl & _).
    exists m', sp'. split_and!; try done. by apply payload_same.
Qed.

Lemma q_remove_unlinks_witness :
  queue (build ["a"; "b"; "c"]) 1%N [2%N; 4%N; 6%N] /\
  (exists m', q_remove_head 1%N None 0%N (build ["a"; "b"; "c"])
              = Ok (2%N, None) m' /\
              queue m' 1%N [4%N; 6%N] /\ element m' 2%N) /\
  (exists m', q_remove_tail 1%N None 0%N (build ["a"; "b"; "c"])
              = Ok (6%N, None) m' /\
              queue m' 1%N [2%N; 4%N] /\ element m' 6%N).
Proof.
  assert (Hq : queue (build ["a"; "b"; "c"]) 1%N [2%N; 4%N; 6%N]) by by_evaluation.
  split; [exact Hq|].
  destruct (q_remove_unlinks (build ["a"; "b"; "c"]) 1%N 2%N [4%N; 6%N]
              [2%N; 4%N] 6%N None 0%N Hq eq_refl I)
    as (_ & _ & (m1 & sp1 & Hrun1 & Hq1 & _ & He1 & _)
              & (m2 & sp2 & Hrun2 & Hq2 & _ & He2 & _)).
  split.
  - exists m1. split; [|by split].
    rewrite Hrun1. vm_compute in Hrun1. by injection Hrun1 as <- _.
  - exists m2. split; [|by split].
    rewrite Hrun2. vm_compute in Hrun2. by injection Hrun2 as <- _.
Defined.

(** X7: releasing with [q_release_element] the element that
    [q_remove_head] or [q_remove_tail] has returned reclaims its storage:
    the element, its [value] field and its string are no longer allocated,
    and the rest is a queue with the payloads it had. *)
Theorem q_remove_release_reclaims m head first ps rest last :
  queue m head (first :: ps) -> first :: ps = (rest ++ [last])%list ->
  (exists m',
     (let* r := q_remove_head head None 0%N in q_release_element r.1) m
     = Ok tt m' /\
     queue m' head ps /\ contents m' ps = contents m ps /\
     heads m' !! first = None /\ values m' !! first = None /\
     chars m' !! value_of m first = None) /\
  (exists m',
     (let* r := q_remove_tail head None 0%N in q_release_element r.1) m
     = Ok tt m' /\
     queue m' head rest /\ contents m' rest = contents m rest /\
     heads m' !! last = None /\ values m' !! last = None /\
     chars m' !! value_of m last = None).
Proof.
  intros Hq Hsplit. split.
  - destruct (q_remove_head_at m head first ps None 0%N Hq I)
      as (m1 & sp' & Hrun & Hdel & _ & _ & _ & _ & Hnone & _).
    destruct (unlink_release m head [] first ps Hq)
      as (m1' & m2 & Hdel' & Hrel & Hq2 & Hc & Hgone).
    rewrite Hdel in Hdel'. injection Hdel' as <-.
    exists m2. split; [|done]. unfold bind. by rewrite Hrun.
  - rewrite Hsplit in Hq.
    destruct (q_remove_tail_at m head last rest None 0%N Hq I)
      as (m1 & sp' & Hrun & Hdel & _ & _ & _ & _ & Hnone & _).
    destruct (unlink_release m head rest last [] Hq)
      as (m1' & m2 & Hdel' & Hrel & Hq2 & Hc & Hgone).
    rewrite Hdel in Hdel'. injection Hdel' as <-.
    rewrite app_nil_r in Hq2, Hc.
    exists m2. split; [|done]. unfold bind. by rewrite Hrun.
Qed.

Lemma q_remove_release_reclaims_witness :
  queue (build ["a"; "b"; "c"]) 1%N [2%N; 4%N; 6%N] /\
  exists m',
    (let* r := q_remove_head 1%N None 0%N in q_release_element r.1)
      (build ["a"; "b"; "c"]) = Ok tt m' /\
    queue m' 1%N [4%N; 6%N] /\ contents m' [4%N; 6%N] = ["b"; "c"] /\
    heads m' !! 2%N = None.
Proof.
  assert (Hq : queue (build ["a"; "b"; "c"]) 1%N [2%N; 4%N; 6%N]) by by_evaluation.
  split; [exact Hq|].
  destruct (q_remove_release_reclaims (build ["a"; "b"; "c"]) 1%N 2%N [4%N; 6%N]
              [2%N; 4%N] 6%N Hq eq_refl)
    as ((m' & Hrun & Hq' & Hc & Hh & _) & _).
  exists m'. split; [exact Hrun|]. split; [exact Hq'|]. split; [|exact Hh].
  rewrite Hc. by vm_compute.
Defined.

(** X8: inserting a string with [q_insert_head], removing the head with
    [q_remove_head] and releasing the element removed gives back exactly
    the memory from before the insertion; so do [q_insert_tail] and
    [q_remove_tail]. *)
Theorem q_insert_remove_round_trip m head ps s e v :
  queue m head ps -> fresh_element m (Some e) -> fresh_chars m (Some v) ->
  (q_insert_head head s (Some e) (Some v) ;;;
   let* r := q_remove_head head None 0%N in q_release_element r.1) m
  = Ok tt m /\
  (q_insert_tail head s (Some e) (Some v) ;;;
   let* r := q_remove_tail head None 0%N in q_release_element r.1) m
  = Ok tt m.
Proof.
  intros Hq Ha Hb.
  destruct (Ha e eq_refl) as (Hen & Heh & Hev).
  destruct (Hb v eq_refl) as (Hvn & Hvc).
  split.
  - destruct (insert_del_release list_add (fun e ps => e :: ps)
                ltac:(done) ring_add_head m head ps s e v [] ps Hq)
      as (m1 & m2 & Hins & Hq1 & Hdel & Hrel); try done.
    destruct (q_remove_head_at m1 head e ps None 0%N Hq1 I)
      as (m2' & sp' & Hrun & Hdel' & _).
    rewrite Hdel in Hdel'. injection Hdel' as <-.
    rewrite q_insert_head_with. unfold bind. by rewrite Hins, Hrun.
  - destruct (insert_del_release list_add_tail (fun e ps => (ps ++ [e])%list)
                ltac:(intros; by rewrite (comm app)) ring_add_tail
                m head ps s e v ps [] Hq)
      as (m1 & m2 & Hins & Hq1 & Hdel & Hrel); try done.
    { apply app_nil_r. }
    destruct (q_remove_tail_at m1 head e ps None 0%N Hq1 I)
      as (m2' & sp' & Hrun & Hdel' & _).
    rewrite Hdel in Hdel'. injection Hdel' as <-.
    rewrite q_insert_tail_with. unfold bind. by rewrite Hins, Hrun.
Qed.

Lemma q_insert_remove_round_trip_witness :
  queue (build ["a"; "b"]) 1%N [2%N; 4%N] /\
  (q_insert_head 1%N "z" (Some 20%N) (Some 21%N) ;;;
   let* r := q_remove_head 1%N None 0%N in q_release_element r.1)
    (build ["a"; "b"]) = Ok tt (build ["a"; "b"]).
Proof.
  assert (Hq : queue (build ["a"; "b"]) 1%N [2%N; 4%N]) by by_evaluation.
  split; [exact Hq|].
  destruct (q_insert_remove_round_trip (build ["a"; "b"]) 1%N [2%N; 4%N] "z"
              20%N 21%N Hq) as [Hrun _].
  - intros e [= <-]. by vm_compute.
  - intros v [= <-]. by vm_compute.
  - exact Hrun.
Defined.

(** X9: a string inserted with [q_insert_head] is read back by
    [q_remove_head]: with [1 <= bufsize] and a buffer of at least
    [bufsize] bytes, the buffer read as a C string holds the first
    [bufsize - 1] bytes of the string, and the whole string when it is
    shorter than [bufsize].  The same holds for [q_insert_tail] and
    [q_remove_tail].  The queue is then as before the insertion. *)
Theorem q_insert_remove_reads_back m head ps s e v buf bufsize :
  queue m head ps -> fresh_element m (Some e) -> fresh_chars m (Some v) ->
  (1 <= bufsize)%N -> (bufsize <= N.of_nat (length buf))%N ->
  (N.of_nat (length buf) <= SIZE_MAX)%N ->
  let reads (out : list ascii) :=
    c_string out
    = String.string_of_list_ascii
        (take (N.to_nat bufsize - 1) (String.list_ascii_of_string (cstr s))) /\
    ((String.length (cstr s) < N.to_nat bufsize)%nat -> c_string out = cstr s) in
  (exists m1 m2 out,
     q_insert_head head s (Some e) (Some v) m = Ok true m1 /\
     q_remove_head head (Some buf) bufsize m1 = Ok (e, Some out) m2 /\
     reads out /\ queue m2 head ps) /\
  (exists m1 m2 out,
     q_insert_tail head s (Some e) (Some v) m = Ok true m1 /\
     q_remove_tail head (Some buf) bufsize m1 = Ok (e, Some out) m2 /\
     reads out /\ queue m2 head ps).
Proof.
  intros Hq Ha Hb Hpos Hle Hcap reads.
  destruct (Ha e eq_refl) as (Hen & Heh & Hev).
  destruct (Hb v eq_refl) as (Hvn & Hvc).
  assert (Hsp : buffer_ok (Some buf) bufsize) by done.
  assert (Hreads : forall m1, payload m1 e = cstr s ->
            reads (copied buf (payload m1 e) (N.to_nat bufsize))).
  { intros m1 ->. unfold reads. split.
    - by rewrite c_string_copied, cstr_idemp.
    - intros Hlen. rewrite <- (cstr_idemp s) at 2. apply c_string_fits.
      by rewrite cstr_idemp. }
  assert (Hpay : forall m1, values m1 = <[e := v]> (values m) ->
            chars m1 = <[v := cstr s]> (chars m) -> payload m1 e = cstr s).
  { intros m1 Hv1 Hc1. unfold payload.
    rewrite Hv1, lookup_insert_eq. simpl. by rewrite Hc1, lookup_insert_eq. }
  split.
  - destruct (q_insert_linked list_add (fun e ps => e :: ps)
                ltac:(done) ring_add_head m head ps s e v Hq)
      as (m1 & Hins & Hq1 & _ & Hv1 & Hc1 & _); try done.
    destruct (q_remove_head_at m1 head e ps (Some buf) bufsize Hq1 Hsp)
      as (m2 & sp' & Hrun & _ & Hq2 & _ & _ & _ & _ & Hout).
    rewrite (Hout buf eq_refl) in Hrun.
    exists m1, m2. eexists. split_and!; try done. apply Hreads. by apply Hpay.
  - destruct (q_insert_linked list_add_tail (fun e ps => (ps ++ [e])%list)
                ltac:(intros; by rewrite (comm app)) ring_add_tail
                m head ps s e v Hq)
      as (m1 & Hins & Hq1 & _ & Hv1 & Hc1 & _); try done.
    destruct (q_remove_tail_at m1 head e ps (Some buf) bufsize Hq1 Hsp)
      as (m2 & sp' & Hrun & _ & Hq2 & _ & _ & _ & _ & Hout).
    rewrite (Hout buf eq_refl) in Hrun.
    exists m1, m2. eexists. split_and!; try done. apply Hreads. by apply Hpay.
Qed.

Local Open Scope char_scope.

Lemma q_insert_remove_reads_back_witness :
  queue (build ["a"; "b"]%string) 1%N [2%N; 4%N] /\
  exists m1 m2 out,
    q_insert_tail 1%N "hello"%string (Some 20%N) (Some 21%N)
      (build ["a"; "b"]%string) = Ok true m1 /\
    q_remove_tail 1%N (Some ["?"; "?"; "?"; "?"; "?"; "?"; "?"; "?"]) 8%N m1
    = Ok (20%N, Some out) m2 /\
    c_string out = "hello"%string.
Proof.
  assert (Hq : queue (build ["a"; "b"]%string) 1%N [2%N; 4%N]) by by_evaluation.
  split; [exact Hq|].
  destruct (q_insert_remove_reads_back (build ["a"; "b"]%string) 1%N [2%N; 4%N]
              "hello"%string 20%N 21%N
              ["?"; "?"; "?"; "?"; "?"; "?"; "?"; "?"] 8%N Hq)
    as (_ & m1 & m2 & out & Hins & Hrun & (_ & Hback) & _).
  - intros e [= <-]. by vm_compute.
  - intros v [= <-]. by vm_compute.
  - by vm_compute.
  - by vm_compute.
  - by vm_compute.
  - exists m1, m2, out. split; [exact Hins|]. split; [exact Hrun|].
    apply Hback. vm_compute. lia.
Defined.

Local Close Scope char_scope.

(** X10: the queue is first in, first out between [q_insert_tail] and
    [q_remove_head]: after an insertion at the tail of a queue that is not
    empty, [q_remove_head] still returns the element that was first, and
    the new element is last.  Symmetrically, after [q_insert_head],
    [q_remove_tail] returns the element that was last. *)
Theorem q_first_in_first_out m head first ps rest last s e v :
  queue m head (first :: ps) -> first :: ps = (rest ++ [last])%list ->
  fresh_element m (Some e) -> fresh_chars m (Some v) ->
  (exists m1 m2,
     q_insert_tail head s (Some e) (Some v) m = Ok true m1 /\
     q_remove_head head None 0%N m1 = Ok (first, None) m2 /\
     queue m2 head (ps ++ [e])%list /\
     contents m2 (ps ++ [e])%list = (contents m ps ++ [cstr s])%list) /\
  (exists m1 m2,
     q_insert_head head s (Some e) (Some v) m = Ok true m1 /\
     q_remove_tail head None 0%N m1 = Ok (last, None) m2 /\
     queue m2 head (e :: rest) /\
     contents m2 (e :: rest) = cstr s :: contents m rest).
Proof.
  intros Hq Hsplit Ha Hb. split.
  - destruct (q_insert_spec list_add_tail (fun e ps => (ps ++ [e])%list)
                ltac:(intros; by rewrite (comm app)) ring_add_tail
                m head (first :: ps) s (Some e) (Some v) Hq Ha Hb)
      as (r & m1 & Hins & Hr & _ & Ht).
    destruct r; [|by destruct Hr as [[|] _]].
    destruct (Ht eq_refl) as (e' & v' & [= <-] & [= <-] & Hq1 & _ & _ & Hpe & Hpo).
    destruct (q_remove_head_at m1 head first (ps ++ [e]) None 0%N Hq1 I)
      as (m2 & sp' & Hrun & _ & Hq2 & Hs & _ & _ & Hnone & _).
    rewrite (Hnone eq_refl) in Hrun.
    exists m1, m2. split_and!; try done.
    rewrite (contents_same _ _ _ Hs). unfold contents.
    rewrite fmap_app. simpl. rewrite Hpe. f_equal.
    apply contents_ext. intros p Hp. apply Hpo. by apply list_elem_of_further.
  - destruct (q_insert_spec list_add (fun e ps => e :: ps)
                ltac:(done) ring_add_head
                m head (first :: ps) s (Some e) (Some v) Hq Ha Hb)
      as (r & m1 & Hins & Hr & _ & Ht).
    destruct r; [|by destruct Hr as [[|] _]].
    destruct (Ht eq_refl) as (e' & v' & [= <-] & [= <-] & Hq1 & _ & _ & Hpe & Hpo).
    rewrite Hsplit in Hq1, Hpo.
    change (e :: rest ++ [last])%list with ((e :: rest) ++ [last])%list in Hq1.
    destruct (q_remove_tail_at m1 head last (e :: rest) None 0%N Hq1 I)
      as (m2 & sp' & Hrun & _ & Hq2 & Hs & _ & _ & Hnone & _).
    rewrite (Hnone eq_refl) in Hrun.
    exists m1, m2. split_and!; try done.
    rewrite (contents_same _ _ _ Hs). unfold contents.
    rewrite fmap_cons, Hpe. f_equal.
    apply contents_ext. intros p Hp. apply Hpo, elem_of_app. by left.
Qed.

Lemma q_first_in_first_out_witness :
  queue (build ["a"; "b"]) 1%N [2%N; 4%N] /\
  exists m1 m2,
    q_insert_tail 1%N "z" (Some 20%N) (Some 21%N) (build ["a"; "b"]) = Ok true m1 /\
    q_remove_head 1%N None 0%N m1 = Ok (2%N, None) m2 /\
    queue m2 1%N [4%N; 20%N] /\ contents m2 [4%N; 20%N] = ["b"; "z"].
Proof.
  assert (Hq : queue (build ["a"; "b"]) 1%N [2%N; 4%N]) by by_evaluation.
  split; [exact Hq|].
  destruct (q_first_in_first_out (build ["a"; "b"]) 1%N 2%N [4%N] [2%N] 4%N "z"
              20%N 21%N Hq eq_refl)
    as ((m1 & m2 & Hins & Hrun & Hq2 & Hc) & _).
  - intros e [= <-]. by vm_compute.
  - intros v [= <-]. by vm_compute.
  - exists m1, m2. split; [exact Hins|]. split; [exact Hrun|].
    split; [exact Hq2|]. etransitivity; [exact Hc|by vm_compute].
Defined.

(** X11: [q_swap] is its own inverse: a second call gives back exactly
    the memory from before the first. *)
Theorem q_swap_involutive m head ps fuel :
  queue m head ps -> (length ps / 2 < fuel)%nat ->
  (q_swap fuel head ;;; q_swap fuel head) m = Ok tt m.
Proof.
  intros Hq Hfuel.
  by destruct (q_swap_twice m head ps fuel Hq Hfuel) as ([] & m' & Hrun & ->).
Qed.

Lemma q_swap_involutive_witness :
  queue (build ["1"; "2"; "3"; "4"; "5"]) 1%N [2%N; 4%N; 6%N; 8%N; 10%N] /\
  (q_swap 3 1%N ;;; q_swap 3 1%N) (build ["1"; "2"; "3"; "4"; "5"])
  = Ok tt (build ["1"; "2"; "3"; "4"; "5"]).
Proof.
  assert (Hq : queue (build ["1"; "2"; "3"; "4"; "5"]) 1%N
                 [2%N; 4%N; 6%N; 8%N; 10%N]) by by_evaluation.
  split; [exact Hq|].
  apply (q_swap_involutive _ _ _ 3 Hq). vm_compute. lia.
Defined.

(** X12: on a queue whose payloads are already in ascending order
    [q_sort] changes nothing: it returns with the memory it was given,
    every link included. *)
Theorem q_sort_keeps_sorted rtl m head ps fuel :
  queue m head ps -> (Z.of_nat (length ps) <= INT_MAX)%Z ->
  (S (length ps) < fuel)%nat ->
  ascending (contents m ps) ->
  q_sort rtl fuel head m = Ok tt m.
Proof.
  intros Hq Hmax Hfuel Hasc.
  apply (q_sort_sorted rtl m head ps fuel); try done.
  by apply ascending_sorted.
Qed.

Lemma q_sort_keeps_sorted_witness :
  queue (build ["a"; "b"; "b"; "c"]) 1%N [2%N; 4%N; 6%N; 8%N] /\
  q_sort true 6 1%N (build ["a"; "b"; "b"; "c"])
  = Ok tt (build ["a"; "b"; "b"; "c"]).
Proof.
  assert (Hq : queue (build ["a"; "b"; "b"; "c"]) 1%N [2%N; 4%N; 6%N; 8%N])
    by by_evaluation.
  split; [exact Hq|].
  apply (q_sort_keeps_sorted true _ _ _ 6 Hq).
  - by vm_compute.
  - vm_compute. lia.
  - apply (sorted_ascending _ _).
    repeat (constructor; [|first [constructor; by vm_compute | constructor]]).
    constructor.
Defined.

(** X13: [q_sort] is idempotent: sorting a second time returns the
    memory the first call left. *)
Theorem q_sort_idempotent rtl m head ps fuel :
  queue m head ps -> (Z.of_nat (length ps) <= INT_MAX)%Z ->
  (S (length ps) < fuel)%nat ->
  exists m',
    q_sort rtl fuel head m = Ok tt m' /\
    (q_sort rtl fuel head ;;; q_sort rtl fuel head) m = Ok tt m'.
Proof.
  intros Hq Hmax Hfuel.
  destruct (q_sort_spec rtl m head ps fuel Hq Hmax Hfuel)
    as ([] & m' & Hrun & ps' & Hq' & Hso & Hs & _).
  exists m'. split; [done|]. unfold bind. rewrite Hrun.
  assert (Hlen : length ps' = length ps).
  { destruct Hso as [Hp _]. by rewrite Hp. }
  apply (q_sort_sorted rtl m' head ps' fuel); try done.
  - by rewrite Hlen.
  - by rewrite Hlen.
  - by apply (sorted_of_sorted_after m m' ps).
Qed.

Lemma q_sort_idempotent_witness :
  queue (build ["d"; "a"; "c"; "b"; "a"]) 1%N [2%N; 4%N; 6%N; 8%N; 10%N] /\
  exists m',
    q_sort false 7 1%N (build ["d"; "a"; "c"; "b"; "a"]) = Ok tt m' /\
    q_sort false 7 1%N m' = Ok tt m'.
Proof.
  assert (Hq : queue (build ["d"; "a"; "c"; "b"; "a"]) 1%N
                 [2%N; 4%N; 6%N; 8%N; 10%N]) by by_evaluation.
  split; [exact Hq|].
  destruct (q_sort_idempotent false (build ["d"; "a"; "c"; "b"; "a"]) 1%N
              [2%N; 4%N; 6%N; 8%N; 10%N] 7 Hq) as (m' & Hrun & Htwice).
  - by vm_compute.
  - vm_compute. lia.
  - exists m'. split; [exact Hrun|]. unfold bind in Htwice.
    by rewrite Hrun in Htwice.
Defined.

(** X14: C does not fix the order in which the two arguments of
    [merge_two_lists(merge_sort(head), merge_sort(fast))] are evaluated;
    the result of [q_sort] does not depend on it: both orders return the
    same memory. *)
Theorem q_sort_order_of_evaluation m head ps fuel :
  queue m head ps -> (Z.of_nat (length ps) <= INT_MAX)%Z ->
  (S (length ps) < fuel)%nat ->
  exists m',
    q_sort true fuel head m = Ok tt m' /\
    q_sort false fuel head m = Ok tt m'.
Proof.
  intros Hq Hmax Hfuel.
  destruct (q_sort_spec true m head ps fuel Hq Hmax Hfuel)
    as ([] & m' & Hrun & _).
  exists m'. split; [done|].
  by rewrite <- (q_sort_either true false m head ps fuel).
Qed.

Lemma q_sort_order_of_evaluation_witness :
  queue (build ["b"; "a"; "b"; "a"]) 1%N [2%N; 4%N; 6%N; 8%N] /\
  q_sort true 6 1%N (build ["b"; "a"; "b"; "a"])
  = q_sort false 6 1%N (build ["b"; "a"; "b"; "a"]).
Proof.
  assert (Hq : queue (build ["b"; "a"; "b"; "a"]) 1%N [2%N; 4%N; 6%N; 8%N])
    by by_evaluation.
  split; [exact Hq|].
  destruct (q_sort_order_of_evaluation (build ["b"; "a"; "b"; "a"]) 1%N
              [2%N; 4%N; 6%N; 8%N] 6 Hq) as (m' & Ht & Hf).
  - by vm_compute.
  - vm_compute. lia.
  - by rewrite Ht, Hf.
Defined.

(** X15: [q_sort] followed by [q_delete_dup] leaves exactly the elements
    whose payload occurs once in the queue, with their payloads, in
    strictly ascending order: no two payloads left compare equal. *)
Theorem q_sort_then_delete_dup rtl m head ps fuel :
  queue m head ps -> (Z.of_nat (length ps) <= INT_MAX)%Z ->
  (S (length ps) < fuel)%nat ->
  exists m' ps',
    (q_sort rtl fuel head ;;; q_delete_dup fuel head) m = Ok true m' /\
    queue m' head ps' /\
    (forall p, p ∈ ps' <->
       p ∈ ps /\ occurrences str_eqb (payload m p) (contents m ps) = 1%nat) /\
    contents m' ps' = payload m <$> ps' /\
    strictly_ascending (contents m' ps').
Proof.
  intros Hq Hmax Hfuel.
  destruct (q_sort_spec rtl m head ps fuel Hq Hmax Hfuel)
    as ([] & m1 & Hrun1 & ps1 & Hq1 & Hso & Hs1 & _).
  pose proof Hso as (Hperm & _ & _).
  assert (Hlen : length ps1 = length ps) by by rewrite Hperm.
  destruct (q_delete_dup_spec m1 head ps1 fuel Hq1)
    as (r & m2 & Hrun2 & -> & Hq2 & Hpay & _); [lia|].
  pose proof (sorted_of_ascending m m1 ps ps1 Hso Hs1) as Hasc.
  pose proof (sorted_of_sorted_after m m1 ps ps1 Hso Hs1) as Hsorted.
  rewrite (isolated_once m1 ps1 Hasc) in Hq2, Hpay.
  set (ps2 := filter _ ps1) in *.
  assert (Hc : contents m2 ps2 = payload m <$> ps2).
  { rewrite (contents_ext m1 m2 ps2 Hpay). by apply contents_same. }
  exists m2, ps2. split_and!; try done.
  - unfold bind. by rewrite Hrun1.
  - intros p. unfold ps2. rewrite list_elem_of_filter.
    assert (Hocc : occurrences str_eqb (payload m1 p) (contents m1 ps1)
                   = occurrences str_eqb (payload m p) (contents m ps)).
    { rewrite (payload_same _ _ _ Hs1). apply occurrences_perm.
      by apply (sorted_of_contents m m1). }
    rewrite Hocc. split; intros [H1 H2]; split; try done.
    + by rewrite <- Hperm.
    + by rewrite Hperm.
  - rewrite (contents_ext m1 m2 ps2 Hpay). by apply once_strict.
Qed.

Lemma q_sort_then_delete_dup_witness :
  queue (build ["c"; "a"; "b"; "a"; "c"; "d"]) 1%N
        [2%N; 4%N; 6%N; 8%N; 10%N; 12%N] /\
  exists m' ps',
    (q_sort true 8 1%N ;;; q_delete_dup 8 1%N)
      (build ["c"; "a"; "b"; "a"; "c"; "d"]) = Ok true m' /\
    queue m' 1%N ps' /\ strictly_ascending (contents m' ps') /\
    (6%N ∈ ps' /\ 2%N ∉ ps').
Proof.
  assert (Hq : queue (build ["c"; "a"; "b"; "a"; "c"; "d"]) 1%N
                 [2%N; 4%N; 6%N; 8%N; 10%N; 12%N]) by by_evaluation.
  split; [exact Hq|].
  destruct (q_sort_then_delete_dup true (build ["c"; "a"; "b"; "a"; "c"; "d"])
              1%N [2%N; 4%N; 6%N; 8%N; 10%N; 12%N] 8 Hq)
    as (m' & ps' & Hrun & Hq' & Hin & _ & Hstrict).
  - by vm_compute.
  - vm_compute. lia.
  - exists m', ps'. split; [exact Hrun|]. split; [exact Hq'|].
    split; [exact Hstrict|]. split.
    + apply Hin. split; [elem_here|by vm_compute].
    + intros [_ Hocc]%Hin. vm_compute in Hocc. discriminate Hocc.
Defined.

(** X16: [merge_two_lists], given two chains ended by [NULL] whose
    payloads ascend, returns the head of one chain that holds the nodes of
    both with the payloads ascending; among nodes that compare equal those
    of the first chain come first, each chain keeping its own order.  Only
    [next] links of the nodes of the two chains are written: every other
    node is as it was, every [prev] link is as it was, and no [value]
    field or string changes.  When one of the two chains is empty the
    other is returned as it is. *)
Theorem merge_two_lists_merges m a b l1 l2 fuel :
  chain (heads m) l1 a -> chain (heads m) l2 b ->
  NoDup (a ++ b)%list -> Forall (element m) (a ++ b)%list ->
  StronglySorted (payload_le m) a -> StronglySorted (payload_le m) b ->
  (length a + length b < fuel)%nat ->
  (forall m0 l, merge_two_lists fuel NULL l m0 = Ok l m0 /\
                merge_two_lists fuel l NULL m0 = Ok l m0) /\
  exists r m' c,
    merge_two_lists fuel l1 l2 m = Ok r m' /\
    chain (heads m') r c /\ c ≡ₚ (a ++ b)%list /\
    StronglySorted (payload_le m') c /\
    (forall k, filter (fun x => same_payload m k x = true) c
               = (filter (fun x => same_payload m k x = true) a ++
                  filter (fun x => same_payload m k x = true) b)%list) /\
    same_payloads m m' /\ heads_frame (a ++ b)%list m m' /\
    prevs_kept m m'.
Proof.
  intros Ha Hb Hnd He Hsa Hsb Hfuel. split.
  { intros m0 l. destruct fuel as [|fuel]; [lia|]. apply merge_two_lists_null. }
  destruct (merge_two_lists_spec m a b l1 l2 fuel Ha Hb Hnd He Hfuel)
    as (r & m' & Hrun & Hc & Hf & Hs).
  pose proof (merge_two_lists_prevs _ _ _ _ _ _ Hrun) as Hprev.
  exists r, m', (merged (payload_leb m) a b). split_and!; try done.
  - apply merged_perm.
  - apply (sorted_same m m' _ Hs).
    apply (merged_sorted (payload_leb m) (payload_le m)); try done.
    + apply payload_leb_le.
    + apply payload_le_total.
    + apply payload_le_trans.
  - intros k.
    apply (merged_filter (payload_leb m) (same_payload m) (payload_le m));
      try done.
    + apply payload_leb_le.
    + apply payload_le_total.
    + apply payload_le_trans.
    + apply same_payload_le.
Qed.

Lemma merge_two_lists_merges_witness :
  let m := cut_after [4%N; 8%N] (build ["a"; "c"; "b"; "c"]) in
  chain (heads m) 2%N [2%N; 4%N] /\ chain (heads m) 6%N [6%N; 8%N] /\
  exists r m' c,
    merge_two_lists 5 2%N 6%N m = Ok r m' /\
    chain (heads m') r c /\ StronglySorted (payload_le m') c /\
    filter (fun x => same_payload m 4%N x = true) c = [4%N; 8%N] /\
    prevs_kept m m'.
Proof.
  intros m.
  assert (Ha : chain (heads m) 2%N [2%N; 4%N]) by by_evaluation.
  assert (Hb : chain (heads m) 6%N [6%N; 8%N]) by by_evaluation.
  split; [exact Ha|]. split; [exact Hb|].
  destruct (merge_two_lists_merges m [2%N; 4%N] [6%N; 8%N] 2%N 6%N 5 Ha Hb)
    as (_ & r & m' & c & Hrun & Hc & _ & Hs & Hst & _ & _ & Hprev).
  - by_evaluation.
  - by_evaluation.
  - repeat (constructor; [|first [constructor; by vm_compute | constructor]]).
    constructor.
  - repeat (constructor; [|first [constructor; by vm_compute | constructor]]).
    constructor.
  - simpl. lia.
  - exists r, m', c. split; [exact Hrun|]. split; [exact Hc|].
    split; [exact Hs|]. split; [|exact Hprev]. rewrite (Hst 4%N). by vm_compute.
Defined.

(** X17: [merge_sort], given the head of a chain ended by [NULL], returns
    the head of a chain of the same nodes with the payloads in ascending
    order, nodes that compare equal keeping their order.  Only [next]
    links of the nodes of the chain are written: every other node is as it
    was, every [prev] link is as it was, and no [value] field or string
    changes.  An empty chain and a chain of one node are returned at once,
    the memory untouched.  This holds for either order of evaluation of
    the two recursive calls. *)
Theorem merge_sort_sorts_chain rtl m p ps fuel :
  chain (heads m) p ps -> NoDup ps -> Forall (element m) ps ->
  (S (length ps) < fuel)%nat ->
  (forall m0, merge_sort rtl fuel NULL m0 = Ok NULL m0) /\
  ((length ps <= 1)%nat -> merge_sort rtl fuel p m = Ok p m) /\
  exists p' m' ps',
    merge_sort rtl fuel p m = Ok p' m' /\
    chain (heads m') p' ps' /\ ps' ≡ₚ ps /\
    StronglySorted (payload_le m') ps' /\
    stable (same_payload m) ps ps' /\
    same_payloads m m' /\ heads_frame ps m m' /\
    prevs_kept m m'.
Proof.
  intros Hc Hnd He Hfuel.
  destruct fuel as [|fuel]; [lia|]. split; [done|]. split.
  { intros Hlen. destruct ps as [|x [|y ps]]; [| |simpl in Hlen; lia].
    - apply chain_nil in Hc as ->. done.
    - pose proof (chain_hd _ _ _ Hc) as Hp. simpl in Hp. subst p.
      by apply merge_sort_single. }
  destruct (merge_sort_spec rtl (S fuel) m p ps Hc Hnd He)
    as (p' & m' & Hrun & ps' & Hc' & (Hperm & Hs & Hst) & Hf & Hsame).
  { simpl. lia. }
  pose proof (merge_sort_prevs _ _ _ _ _ _ Hrun) as Hprev.
  exists p', m', ps'. split_and!; try done.
  by apply (sorted_same m m').
Qed.

Lemma merge_sort_sorts_chain_witness :
  let m := cut_after [8%N] (build ["d"; "b"; "c"; "a"]) in
  chain (heads m) 2%N [2%N; 4%N; 6%N; 8%N] /\
  exists p' m' ps',
    merge_sort false 6 2%N m = Ok p' m' /\
    chain (heads m') p' ps' /\ StronglySorted (payload_le m') ps' /\
    ps' ≡ₚ [2%N; 4%N; 6%N; 8%N] /\ prevs_kept m m'.
Proof.
  intros m.
  assert (Hc : chain (heads m) 2%N [2%N; 4%N; 6%N; 8%N]) by by_evaluation.
  split; [exact Hc|].
  destruct (merge_sort_sorts_chain false m 2%N [2%N; 4%N; 6%N; 8%N] 6 Hc)
    as (_ & _ & p' & m' & ps' & Hrun & Hc' & Hperm & Hs & _ & _ & _ & Hprev).
  - by_evaluation.
  - by_evaluation.
  - simpl. lia.
  - exists p', m', ps'. split; [exact Hrun|]. split; [exact Hc'|].
    split; [exact Hs|]. split; [exact Hperm|exact Hprev].
Defined.

(** X18: [q_delete_dup] does not need its input sorted to return: on any
    queue it returns [true] and keeps, in their order and with their
    payloads, exactly the elements whose payload differs from the payload
    of the element before and from the payload of the element after.
    Equal payloads that are not adjacent are not detected. *)
Theorem q_delete_dup_neighbours m head ps fuel :
  queue m head ps -> (length ps < fuel)%nat ->
  exists m' ps',
    q_delete_dup fuel head m = Ok true m' /\
    queue m' head ps' /\ ps' `sublist_of` ps /\
    (forall i p, ps !! i = Some p ->
       (p ∈ ps' <->
        (forall j q, i = S j -> ps !! j = Some q -> same_payload m q p = false) /\
        (forall q, ps !! S i = Some q -> same_payload m p q = false))) /\
    contents m' ps' = payload m <$> ps'.
Proof.
  intros Hq Hfuel.
  destruct (q_delete_dup_spec m head ps fuel Hq Hfuel)
    as (r & m' & Hrun & -> & Hq' & Hpay & _).
  exists m', (isolated (same_payload m) None ps). split_and!; try done.
  - apply isolated_sublist.
  - intros i p Hi.
    pose proof (ring_NoDup _ _ _ (queue_ring _ _ _ Hq)) as [_ Hnd]%NoDup_cons.
    rewrite (isolated_lookup (same_payload m) None ps i p Hnd Hi).
    destruct i as [|i]; split; intros [H1 H2]; split; try done.
    + intros j q [= <-] Hj. by apply H1.
    + intros q Hj. by apply (H1 i).
  - by apply contents_ext.
Qed.

Lemma q_delete_dup_neighbours_witness :
  queue (build ["a"; "b"; "b"; "a"]) 1%N [2%N; 4%N; 6%N; 8%N] /\
  exists m' ps',
    q_delete_dup 5 1%N (build ["a"; "b"; "b"; "a"]) = Ok true m' /\
    queue m' 1%N ps' /\ contents m' ps' = ["a"; "a"].
Proof.
  assert (Hq : queue (build ["a"; "b"; "b"; "a"]) 1%N [2%N; 4%N; 6%N; 8%N])
    by by_evaluation.
  split; [exact Hq|].
  destruct (q_delete_dup_neighbours (build ["a"; "b"; "b"; "a"]) 1%N
              [2%N; 4%N; 6%N; 8%N] 5 Hq)
    as (m' & ps' & Hrun & Hq' & _ & _ & Hc).
  - vm_compute. lia.
  - exists m', ps'. split; [exact Hrun|]. split; [exact Hq'|].
    assert (Hq2 : exists m2, q_delete_dup 5 1%N (build ["a"; "b"; "b"; "a"])
                             = Ok true m2 /\ queue m2 1%N [2%N; 8%N]).
    { eexists. split; [vm_compute; reflexivity|by_evaluation]. }
    destruct Hq2 as (m2 & Hrun2 & Hq2). rewrite Hrun in Hrun2.
    injection Hrun2 as <-. rewrite (queue_unique _ _ _ _ Hq' Hq2) in Hc |- *.
    rewrite Hc. by vm_compute.
Defined.

(** X19: on a queue in which no two adjacent payloads compare equal
    [q_delete_dup] returns [true] and leaves the memory exactly as it
    was. *)
Theorem q_delete_dup_nothing_to_do m head ps fuel :
  queue m head ps -> (length ps < fuel)%nat ->
  adjacent_distinct (contents m ps) ->
  q_delete_dup fuel head m = Ok true m.
Proof.
  intros Hq Hfuel Hdistinct.
  exact (q_delete_dup_distinct m head ps fuel Hq Hfuel Hdistinct).
Qed.

Lemma q_delete_dup_nothing_to_do_witness :
  queue (build ["a"; "b"; "a"]) 1%N [2%N; 4%N; 6%N] /\
  q_delete_dup 4 1%N (build ["a"; "b"; "a"]) = Ok true (build ["a"; "b"; "a"]).
Proof.
  assert (Hq : queue (build ["a"; "b"; "a"]) 1%N [2%N; 4%N; 6%N]) by by_evaluation.
  split; [exact Hq|].
  apply (q_delete_dup_nothing_to_do _ _ _ 4 Hq).
  - vm_compute. lia.
  - intros [|[|i]] x y Hx Hy; vm_compute in Hx, Hy; try done.
    + by injection Hx as <-; injection Hy as <-.
    + by injection Hx as <-; injection Hy as <-.
Defined.

(** X20: on a queue whose payloads ascend [q_delete_dup] is idempotent: a
    second call finds nothing to delete and returns the memory the first
    call left. *)
Theorem q_delete_dup_idempotent m head ps fuel :
  queue m head ps -> ascending (contents m ps) -> (length ps < fuel)%nat ->
  exists m',
    q_delete_dup fuel head m = Ok true m' /\
    (q_delete_dup fuel head ;;; q_delete_dup fuel head) m = Ok true m'.
Proof.
  intros Hq Hasc Hfuel.
  destruct (q_delete_dup_spec m head ps fuel Hq Hfuel)
    as (r & m' & Hrun & -> & Hq' & Hpay & _).
  exists m'. split; [done|]. unfold bind. rewrite Hrun.
  apply (q_delete_dup_distinct m' head _ fuel Hq').
  - pose proof (sublist_length _ _ (isolated_sublist (same_payload m) None ps)).
    lia.
  - rewrite (contents_ext m m' _ Hpay). rewrite (isolated_once m ps Hasc).
    apply strictly_adjacent, once_strict. by apply ascending_sorted.
Qed.

Lemma q_delete_dup_idempotent_witness :
  queue (build ["1"; "1"; "2"; "3"; "3"; "3"; "4"]) 1%N
        [2%N; 4%N; 6%N; 8%N; 10%N; 12%N; 14%N] /\
  exists m',
    q_delete_dup 8 1%N (build ["1"; "1"; "2"; "3"; "3"; "3"; "4"]) = Ok true m' /\
    q_delete_dup 8 1%N m' = Ok true m'.
Proof.
  assert (Hq : queue (build ["1"; "1"; "2"; "3"; "3"; "3"; "4"]) 1%N
                 [2%N; 4%N; 6%N; 8%N; 10%N; 12%N; 14%N]) by by_evaluation.
  split; [exact Hq|].
  destruct (q_delete_dup_idempotent (build ["1"; "1"; "2"; "3"; "3"; "3"; "4"])
              1%N [2%N; 4%N; 6%N; 8%N; 10%N; 12%N; 14%N] 8 Hq)
    as (m' & Hrun & Htwice).
  - apply (sorted_ascending _ _).
    repeat (constructor; [|first [constructor; by vm_compute | constructor]]).
    constructor.
  - vm_compute. lia.
  - exists m'. split; [exact Hrun|]. unfold bind in Htwice.
    by rewrite Hrun in Htwice.
Defined.

(** X21: [q_delete_mid] and [q_delete_dup] release the storage of every
    element they delete and touch nothing outside the queue: the memory
    without the queue is the same after the call as before it.  Destroying
    the queue afterwards therefore leaves what destroying it before the
    call leaves. *)
Theorem deletions_account_storage m head ps fuel m0 :
  queue m head ps -> (length ps < fuel)%nat ->
  without_queue m head ps m0 ->
  q_free fuel head m = Ok tt m0 /\
  (exists r m' ps',
     q_delete_mid fuel head m = Ok r m' /\ queue m' head ps' /\
     without_queue m' head ps' m0 /\ q_free fuel head m' = Ok tt m0) /\
  (exists m' ps',
     q_delete_dup fuel head m = Ok true m' /\ queue m' head ps' /\
     without_queue m' head ps' m0 /\ q_free fuel head m' = Ok tt m0).
Proof.
  intros Hq Hfuel Hw.
  assert (Hfree : forall m' ps', queue m' head ps' -> (length ps' < fuel)%nat ->
            without_queue m' head ps' m0 -> q_free fuel head m' = Ok tt m0).
  { intros m' ps' Hq' Hlen Hw'.
    destruct (q_free_spec m' head ps' fuel Hq' Hlen) as ([] & m1 & Hrun & Hw1).
    rewrite Hrun. f_equal. by apply (without_queue_unique m' head ps'). }
  split; [by apply (Hfree m ps)|]. split.
  - destruct ps as [|x ps].
    { exists false, m, []. split; [by apply q_delete_mid_empty|].
      split_and!; try done. by apply (Hfree m []). }
    destruct (q_delete_mid_acc m head (x :: ps) fuel Hq)
      as (r & m' & Hrun & -> & Hq' & Hacc); [done| |].
    { assert (length (x :: ps) / 2 <= length (x :: ps))%nat
        by (apply Nat.Div0.div_le_upper_bound; lia).
      lia. }
    eexists true, m', _. split_and!; try done; [by apply Hacc|].
    apply (Hfree m' _ Hq'); [|by apply Hacc].
    pose proof (sublist_length _ _ (sublist_delete (x :: ps)
                  (length (x :: ps) / 2))). lia.
  - destruct (q_delete_dup_acc m head ps fuel Hq Hfuel)
      as (r & m' & Hrun & -> & Hq' & Hacc).
    eexists m', _. split_and!; try done; [by apply Hacc|].
    apply (Hfree m' _ Hq'); [|by apply Hacc].
    pose proof (sublist_length _ _ (isolated_sublist (same_payload m) None ps)).
    lia.
Qed.

Lemma deletions_account_storage_witness :
  queue (build ["a"; "a"; "b"]) 1%N [2%N; 4%N; 6%N] /\
  without_queue (build ["a"; "a"; "b"]) 1%N [2%N; 4%N; 6%N] empty_mem /\
  (exists m', q_delete_dup 4 1%N (build ["a"; "a"; "b"]) = Ok true m' /\
              q_free 4 1%N m' = Ok tt empty_mem) /\
  (exists r m', q_delete_mid 4 1%N (build ["a"; "a"; "b"]) = Ok r m' /\
                q_free 4 1%N m' = Ok tt empty_mem).
Proof.
  assert (Hq : queue (build ["a"; "a"; "b"]) 1%N [2%N; 4%N; 6%N]) by by_evaluation.
  assert (Hw : without_queue (build ["a"; "a"; "b"]) 1%N [2%N; 4%N; 6%N] empty_mem).
  { destruct (q_free_spec (build ["a"; "a"; "b"]) 1%N [2%N; 4%N; 6%N] 4 Hq)
      as ([] & m1 & Hrun & Hw); [vm_compute; lia|].
    assert (Hc : q_free 4 1%N (build ["a"; "a"; "b"]) = Ok tt empty_mem)
      by (vm_compute; reflexivity).
    rewrite Hc in Hrun. by injection Hrun as <-. }
  split; [exact Hq|]. split; [exact Hw|].
  destruct (deletions_account_storage (build ["a"; "a"; "b"]) 1%N
              [2%N; 4%N; 6%N] 4 empty_mem Hq)
    as (_ & (r & m1 & ps1 & Hrun1 & _ & _ & Hfree1)
          & (m2 & ps2 & Hrun2 & _ & _ & Hfree2)).
  - vm_compute. lia.
  - exact Hw.
  - split.
    + exists m2. split; [exact Hrun2|exact Hfree2].
    + exists r, m1. split; [exact Hrun1|exact Hfree1].
Defined.

(** X22: [q_swap], [q_reverse] and [q_sort] only relink: the memory
    without the queue is the same after the call as before it, and
    destroying the queue afterwards leaves what destroying it before the
    call leaves. *)
Theorem relinking_accounts_storage rtl m head ps fuel m0 :
  queue m head ps -> (Z.of_nat (length ps) <= INT_MAX)%Z ->
  (S (length ps) < fuel)%nat ->
  without_queue m head ps m0 ->
  (exists m' ps',
     q_swap fuel head m = Ok tt m' /\ queue m' head ps' /\
     without_queue m' head ps' m0 /\ q_free fuel head m' = Ok tt m0) /\
  (exists m' ps',
     q_reverse fuel head m = Ok tt m' /\ queue m' head ps' /\
     without_queue m' head ps' m0 /\ q_free fuel head m' = Ok tt m0) /\
  (exists m' ps',
     q_sort rtl fuel head m = Ok tt m' /\ queue m' head ps' /\
     without_queue m' head ps' m0 /\ q_free fuel head m' = Ok tt m0).
Proof.
  intros Hq Hmax Hfuel Hw.
  assert (Hfree : forall m' ps', queue m' head ps' -> ps' ≡ₚ ps ->
            without_queue m' head ps' m0 -> q_free fuel head m' = Ok tt m0).
  { intros m' ps' Hq' Hperm Hw'.
    destruct (q_free_spec m' head ps' fuel Hq') as ([] & m1 & Hrun & Hw1).
    { rewrite Hperm. lia. }
    rewrite Hrun. f_equal. by apply (without_queue_unique m' head ps'). }
  assert (Hhalf : (length ps / 2 < fuel)%nat).
  { assert (length ps / 2 <= length ps)%nat
      by (apply Nat.Div0.div_le_upper_bound; lia).
    lia. }
  split_and!.
  - destruct (q_swap_framed m head ps fuel Hq Hhalf)
      as ([] & m' & Hrun & Hq' & Hs & Hf).
    assert (Hw' : without_queue m' head (swap_pairs ps) m0).
    { apply (without_queue_relink m m' head ps); try done.
      apply swap_pairs_perm. }
    exists m', (swap_pairs ps). split_and!; try done.
    apply (Hfree m' _ Hq'); [apply swap_pairs_perm|done].
  - destruct (q_reverse_spec m head ps fuel Hq Hfuel)
      as ([] & m' & Hrun & Hq' & Hs & Hf).
    assert (Hw' : without_queue m' head (reverse ps) m0).
    { apply (without_queue_relink m m' head ps); try done.
      apply reverse_Permutation. }
    exists m', (reverse ps). split_and!; try done.
    apply (Hfree m' _ Hq'); [apply reverse_Permutation|done].
  - destruct (q_sort_spec rtl m head ps fuel Hq Hmax Hfuel)
      as ([] & m' & Hrun & ps' & Hq' & (Hperm & _) & Hs & Hf & _).
    assert (Hw' : without_queue m' head ps' m0).
    { by apply (without_queue_relink m m' head ps). }
    exists m', ps'. split_and!; try done.
    by apply (Hfree m' _ Hq').
Qed.

Lemma relinking_accounts_storage_witness :
  queue (build ["c"; "a"; "b"]) 1%N [2%N; 4%N; 6%N] /\
  without_queue (build ["c"; "a"; "b"]) 1%N [2%N; 4%N; 6%N] empty_mem /\
  exists m', q_sort true 5 1%N (build ["c"; "a"; "b"]) = Ok tt m' /\
             q_free 5 1%N m' = Ok tt empty_mem.
Proof.
  assert (Hq : queue (build ["c"; "a"; "b"]) 1%N [2%N; 4%N; 6%N]) by by_evaluation.
  assert (Hw : without_queue (build ["c"; "a"; "b"]) 1%N [2%N; 4%N; 6%N] empty_mem).
  { destruct (q_free_spec (build ["c"; "a"; "b"]) 1%N [2%N; 4%N; 6%N] 4 Hq)
      as ([] & m1 & Hrun & Hw); [vm_compute; lia|].
    assert (Hc : q_free 4 1%N (build ["c"; "a"; "b"]) = Ok tt empty_mem)
      by (vm_compute; reflexivity).
    rewrite Hc in Hrun. by injection Hrun as <-. }
  split; [exact Hq|]. split; [exact Hw|].
  destruct (relinking_accounts_storage true (build ["c"; "a"; "b"]) 1%N
              [2%N; 4%N; 6%N] 5 empty_mem Hq)
    as (_ & _ & m' & ps' & Hrun & _ & _ & Hfree).
  - by vm_compute.
  - vm_compute. lia.
  - exact Hw.
  - exists m'. split; [exact Hrun|exact Hfree].
Defined.
